(** * Transcript annotation and protocol synthesis: a shallow embedding

    The client code is TypeScript.  Strings are sequences of UTF-16 code
    units, regular expressions follow the backtracking semantics of
    ECMAScript, untyped payloads are JSON values, and the React components
    are read as transition functions on their state. *)

From Stdlib Require Import List NArith ZArith Arith Bool Lia String Ascii.
From Stdlib Require Import Sorting.Sorted Sorting.Permutation.
Import ListNotations.

Set Implicit Arguments.

(* ================================================================= *)
(** ** JavaScript strings *)

(** A string value is its list of UTF-16 code units. *)
Definition jsstring := list N.

Definition byte_of_ascii (a : ascii) : N := N_of_ascii a.

(** Source literals are written as UTF-8 text and decoded to code units
    (one, two and three byte sequences: the Basic Multilingual Plane). *)
Fixpoint utf8_decode (bs : list N) (fuel : nat) : jsstring :=
  match fuel with
  | O => []
  | S fuel' =>
    match bs with
    | [] => []
    | b0 :: tl =>
      if N.ltb b0 128 then b0 :: utf8_decode tl fuel'
      else if N.ltb b0 224 then
        match tl with
        | b1 :: tl' =>
            (N.land b0 31 * 64 + N.land b1 63)%N :: utf8_decode tl' fuel'
        | [] => []
        end
      else
        match tl with
        | b1 :: b2 :: tl' =>
            (N.land b0 15 * 4096 + N.land b1 63 * 64 + N.land b2 63)%N
              :: utf8_decode tl' fuel'
        | _ => []
        end
    end
  end.

Definition js (s : string) : jsstring :=
  let bs := map byte_of_ascii (list_ascii_of_string s) in
  utf8_decode bs (List.length bs).

Fixpoint str_eqb (a b : jsstring) : bool :=
  match a, b with
  | [], [] => true
  | x :: a', y :: b' => N.eqb x y && str_eqb a' b'
  | _, _ => false
  end.

(** Code-unit order, the order of [<] on strings and of the default
    [Array.prototype.sort]. *)
Fixpoint str_ltb (a b : jsstring) : bool :=
  match a, b with
  | _, [] => false
  | [], _ :: _ => true
  | x :: a', y :: b' =>
      if N.ltb x y then true
      else if N.eqb x y then str_ltb a' b' else false
  end.

Definition str_leb (a b : jsstring) : bool := negb (str_ltb b a).

(** WhiteSpace and LineTerminator of ECMAScript: what [\s] matches and what
    [trim] strips. *)
Definition is_space (c : N) : bool :=
  existsb (N.eqb c)
    [9; 10; 11; 12; 13; 32; 160; 5760; 8192; 8193; 8194; 8195; 8196; 8197;
     8198; 8199; 8200; 8201; 8202; 8232; 8233; 8239; 8287; 12288; 65279]%N.

Definition is_line_terminator (c : N) : bool :=
  existsb (N.eqb c) [10; 13; 8232; 8233]%N.

Definition is_digit (c : N) : bool := N.leb 48 c && N.leb c 57.
Definition is_upper (c : N) : bool := N.leb 65 c && N.leb c 90.
Definition is_lower (c : N) : bool := N.leb 97 c && N.leb c 122.

Fixpoint trimStart (s : jsstring) : jsstring :=
  match s with
  | c :: tl => if is_space c then trimStart tl else s
  | [] => []
  end.

Definition trimEnd (s : jsstring) : jsstring := rev (trimStart (rev s)).
Definition trim (s : jsstring) : jsstring := trimEnd (trimStart s).

Fixpoint startsWith (s p : jsstring) : bool :=
  match p, s with
  | [], _ => true
  | x :: p', y :: s' => N.eqb x y && startsWith s' p'
  | _ :: _, [] => false
  end.

Fixpoint includes (s p : jsstring) : bool :=
  startsWith s p ||
  match s with
  | [] => false
  | _ :: tl => includes tl p
  end.

Definition substring (s : jsstring) (a b : nat) : jsstring :=
  firstn (b - a) (skipn a s).

Definition substring_from (s : jsstring) (a : nat) : jsstring := skipn a s.

(** [s.split(sep)] for a one-unit separator. *)
Fixpoint split_on (sep : N) (s : jsstring) (cur : jsstring) : list jsstring :=
  match s with
  | [] => [rev cur]
  | c :: tl =>
      if N.eqb c sep then rev cur :: split_on sep tl []
      else split_on sep tl (c :: cur)
  end.

Definition split_lines (s : jsstring) : list jsstring := split_on 10%N s [].

Fixpoint join (sep : jsstring) (l : list jsstring) : jsstring :=
  match l with
  | [] => []
  | [x] => x
  | x :: tl => x ++ sep ++ join sep tl
  end.

(** Decimal digits of a natural number, [String(n)] for a non-negative
    integer. *)
Fixpoint digits_fuel (fuel : nat) (n : N) (acc : jsstring) : jsstring :=
  match fuel with
  | O => acc
  | S f =>
      let acc' := (48 + N.modulo n 10)%N :: acc in
      if N.ltb n 10 then acc' else digits_fuel f (N.div n 10) acc'
  end.

Definition String_of_N (n : N) : jsstring :=
  digits_fuel (S (N.to_nat (N.log2 n))) n [].

Definition String_of_Z (z : Z) : jsstring :=
  match z with
  | Zneg p => 45%N :: String_of_N (Npos p)
  | _ => String_of_N (Z.to_N z)
  end.

(** [s.padStart(2, '0')]. *)
Definition padStart2 (s : jsstring) : jsstring :=
  match s with
  | [] => [48; 48]%N
  | [c] => [48%N; c]
  | _ => s
  end.

Example js_cyrillic : js "Спикер A" = [1057; 1087; 1080; 1082; 1077; 1088; 32; 65]%N.
Proof. reflexivity. Qed.

Example string_of_n_ex : String_of_N 2025 = js "2025" /\ String_of_N 0 = js "0" /\ String_of_N 1000 = js "1000".
Proof. repeat split; reflexivity. Qed.

(* ================================================================= *)
(** ** Regular expressions *)

(** Canonicalize of the regular expression semantics for the [i] flag
    without the [u] flag: the upper case of a single code unit, with the
    two guarantees the language gives: on ASCII it is the ASCII upper case,
    and a non-ASCII unit never canonicalizes to an ASCII one.  The full
    Unicode case table belongs to the runtime; the development is generic
    in it. *)
Definition ascii_upper (c : N) : N := if is_lower c then (c - 32)%N else c.

Record Canonicalizer := {
  canon :> N -> N;
  canon_ascii : forall c, (c < 128)%N -> canon c = ascii_upper c;
  canon_high : forall c, (128 <= c)%N -> (128 <= canon c)%N
}.

(** The instance used for closed examples: exact on Basic Latin and on the
    Cyrillic block (U+0430..U+045F map to U+0410..U+042F and
    U+0400..U+040F), identity elsewhere. *)
Definition canon_basic_fun (c : N) : N :=
  if N.ltb c 128 then ascii_upper c
  else if N.leb 1072 c && N.leb c 1103 then (c - 32)%N
  else if N.leb 1104 c && N.leb c 1119 then (c - 80)%N
  else c.

Lemma canon_basic_ascii : forall c, (c < 128)%N -> canon_basic_fun c = ascii_upper c.
Proof.
  intros c H. unfold canon_basic_fun.
  destruct (N.ltb_spec c 128); [reflexivity | lia].
Qed.

Lemma canon_basic_high : forall c, (128 <= c)%N -> (128 <= canon_basic_fun c)%N.
Proof.
  intros c H. unfold canon_basic_fun.
  destruct (N.ltb_spec c 128); [lia |].
  destruct (N.leb_spec 1072 c); destruct (N.leb_spec c 1103); simpl; try lia;
  destruct (N.leb_spec 1104 c); destruct (N.leb_spec c 1119); simpl; lia.
Qed.

Definition canon_basic : Canonicalizer :=
  {| canon := canon_basic_fun;
     canon_ascii := canon_basic_ascii;
     canon_high := canon_basic_high |}.

(** The state of a match in progress: the index reached, the input from
    there on, and the captures made so far (latest first). *)
Record mstate := MState {
  pos : nat;
  rest : jsstring;
  caps : list (nat * jsstring)
}.

Inductive regex :=
| REmpty
| RChar (p : N -> bool)
| RSeq (r1 r2 : regex)
| RAlt (r1 r2 : regex)
| RStar (greedy : bool) (r : regex)
| RGroup (n : nat) (r : regex)
| RBol
| REol.

(** Repetition.  The alternatives are listed in the order the backtracking
    matcher tries them: a greedy star iterates first, a lazy one stops
    first.  An iteration that consumes nothing is rejected, so the length of
    the remaining input bounds the number of iterations. *)
Fixpoint star_loop (step : mstate -> list mstate) (greedy : bool)
         (fuel : nat) (st : mstate) : list mstate :=
  match fuel with
  | O => [st]
  | S f =>
      let more :=
        flat_map (fun st' => if Nat.ltb (pos st) (pos st')
                             then star_loop step greedy f st' else [])
                 (step st) in
      if greedy then more ++ [st] else st :: more
  end.

(** All the ways [r] matches at [st], in backtracking priority order; the
    match the engine reports is the first one. *)
Fixpoint rmatch (r : regex) (st : mstate) : list mstate :=
  match r with
  | REmpty => [st]
  | RChar p =>
      match rest st with
      | c :: tl => if p c then [MState (S (pos st)) tl (caps st)] else []
      | [] => []
      end
  | RSeq r1 r2 => flat_map (rmatch r2) (rmatch r1 st)
  | RAlt r1 r2 => rmatch r1 st ++ rmatch r2 st
  | RStar g r' => star_loop (rmatch r') g (List.length (rest st)) st
  | RGroup n r' =>
      map (fun st' =>
             MState (pos st') (rest st')
                    ((n, firstn (pos st' - pos st) (rest st)) :: caps st'))
          (rmatch r' st)
  | RBol => if Nat.eqb (pos st) 0 then [st] else []
  | REol => match rest st with [] => [st] | _ => [] end
  end.

(** Pattern syntax. *)
Definition rplus (g : bool) (r : regex) : regex := RSeq r (RStar g r).

Fixpoint rseq (rs : list regex) : regex :=
  match rs with
  | [] => REmpty
  | [r] => r
  | r :: tl => RSeq r (rseq tl)
  end.

(** A literal character and a literal string, without and with the [i]
    flag. *)
Definition chr (c : N) : regex := RChar (N.eqb c).
Definition chri (C : Canonicalizer) (c : N) : regex :=
  RChar (fun x => N.eqb (C x) (C c)).

Fixpoint lit (s : jsstring) : regex :=
  match s with
  | [] => REmpty
  | c :: tl => RSeq (chr c) (lit tl)
  end.

Fixpoint liti (C : Canonicalizer) (s : jsstring) : regex :=
  match s with
  | [] => REmpty
  | c :: tl => RSeq (chri C c) (liti C tl)
  end.

(** Character classes.  [\d], [\s] and [.] contain no letter and no unit
    that is the upper case of another, so the [i] flag does not change
    them; [[A-Z0-9]] under [i] is [[A-Za-z0-9]]. *)
Definition cls_d : regex := RChar is_digit.
Definition cls_s : regex := RChar is_space.
Definition cls_dot : regex := RChar (fun c => negb (is_line_terminator c)).
Definition is_upper_alnum (c : N) : bool := is_upper c || is_digit c.
Definition is_alnum_i (c : N) : bool := is_upper c || is_lower c || is_digit c.
Definition cls_AZ09 : regex := RChar is_upper_alnum.
Definition cls_AZ09_i : regex := RChar is_alnum_i.
Definition cls_not_colon : regex := RChar (fun c => negb (N.eqb c 58)).

(** A match as [exec] reports it. *)
Record rx_match := RxMatch {
  m_index : nat;
  m_stop : nat;
  m_caps : list (nat * jsstring)
}.

Fixpoint cap_lookup (n : nat) (cs : list (nat * jsstring)) : option jsstring :=
  match cs with
  | [] => None
  | (k, v) :: tl => if Nat.eqb k n then Some v else cap_lookup n tl
  end.

Definition group (n : nat) (m : rx_match) : option jsstring :=
  cap_lookup n (m_caps m).

Definition match_text (input : jsstring) (m : rx_match) : jsstring :=
  substring input (m_index m) (m_stop m).

(** The match at one start index. *)
Definition match_at (r : regex) (input : jsstring) (i : nat) : option rx_match :=
  match rmatch r (MState i (skipn i input) []) with
  | st :: _ => Some (RxMatch i (pos st) (caps st))
  | [] => None
  end.

(** The leftmost match at or after index [i]: the start indices [i],
    [i+1], ... up to the length of the input are tried in turn. *)
Fixpoint search_from (r : regex) (input : jsstring) (i : nat) (tries : nat)
  : option rx_match :=
  match match_at r input i with
  | Some m => Some m
  | None =>
      match tries with
      | O => None
      | S t => search_from r input (S i) t
      end
  end.

Definition exec (r : regex) (input : jsstring) (lastIndex : nat) : option rx_match :=
  if Nat.ltb (List.length input) lastIndex then None
  else search_from r input lastIndex (List.length input - lastIndex).

(** [re.test(s)] for a regular expression without the [g] flag. *)
Definition test (r : regex) (input : jsstring) : bool :=
  match exec r input 0 with Some _ => true | None => false end.

(** All matches of a global regular expression, as [matchAll] and the
    global [replace] find them: after a match the search resumes at its
    end, one unit further when the match is empty. *)
Fixpoint all_matches (fuel : nat) (r : regex) (input : jsstring) (lastIndex : nat)
  : list rx_match :=
  match fuel with
  | O => []
  | S f =>
      match exec r input lastIndex with
      | None => []
      | Some m =>
          let next := if Nat.eqb (m_stop m) (m_index m)
                      then S (m_stop m) else m_stop m in
          m :: all_matches f r input next
      end
  end.

Definition matchAll (r : regex) (input : jsstring) : list rx_match :=
  all_matches (S (List.length input)) r input 0.

(** The loop [while ((match = re.exec(text)) !== null)] over a global
    regular expression: [exec] resumes at the end of the previous match
    and does not step over an empty match, so that the loop does not
    terminate on one ([None]). *)
Fixpoint exec_loop (fuel : nat) (r : regex) (input : jsstring) (lastIndex : nat)
  : option (list rx_match) :=
  match fuel with
  | O => None
  | S f =>
      match exec r input lastIndex with
      | None => Some []
      | Some m =>
          if Nat.leb (m_stop m) lastIndex then None
          else option_map (cons m) (exec_loop f r input (m_stop m))
      end
  end.

(** Assembling the result of a replacement: the text between the matches
    is kept, every match is replaced by what [f] computes for it. *)
Fixpoint splice (input : jsstring) (from : nat) (ms : list rx_match)
         (f : rx_match -> jsstring) : jsstring :=
  match ms with
  | [] => substring_from input from
  | m :: tl =>
      substring input from (m_index m) ++ f m ++ splice input (m_stop m) tl f
  end.

(** [s.replace(re, f)] with the [g] flag and a replacer function. *)
Definition replace_all (r : regex) (input : jsstring)
           (f : rx_match -> jsstring) : jsstring :=
  splice input 0 (matchAll r input) f.

(** [s.replace(re, f)] without the [g] flag: the first match only. *)
Definition replace_first (r : regex) (input : jsstring)
           (f : rx_match -> jsstring) : jsstring :=
  match exec r input 0 with
  | None => input
  | Some m => splice input 0 [m] f
  end.

(** The literal part of a pattern text: [escapeRegExp] puts a backslash
    before every syntax character, and a pattern text made of escaped
    syntax characters and other characters denotes exactly these
    characters.  [literal_of_pattern] reads such a text back ([None] when
    an unescaped syntax character occurs). *)
Definition is_syntax_char (c : N) : bool :=
  existsb (N.eqb c) [46; 42; 43; 63; 94; 36; 123; 125; 40; 41; 124; 91; 93; 92]%N.

(** [s.replace(/[.*+?^${}()|[\]\\]/g, "\\$&")] *)
Fixpoint escapeRegExp (s : jsstring) : jsstring :=
  match s with
  | [] => []
  | c :: tl =>
      if is_syntax_char c then 92%N :: c :: escapeRegExp tl
      else c :: escapeRegExp tl
  end.

Fixpoint literal_of_pattern (fuel : nat) (p : jsstring) : option jsstring :=
  match fuel with
  | O => match p with [] => Some [] | _ => None end
  | S f =>
      match p with
      | [] => Some []
      | c :: tl =>
          if N.eqb c 92 then
            match tl with
            | d :: tl' =>
                if is_syntax_char d
                then option_map (cons d) (literal_of_pattern f tl')
                else None
            | [] => None
            end
          else if is_syntax_char c then None
          else option_map (cons c) (literal_of_pattern f tl)
      end
  end.

(** The regular expression for an interpolated [${escapeRegExp(s)}] under
    the [i] flag. *)
Definition escaped_literal (C : Canonicalizer) (s : jsstring) : regex :=
  let p := escapeRegExp s in
  match literal_of_pattern (List.length p) p with
  | Some l => liti C l
  | None => RAlt REmpty REmpty
  end.

(* ================================================================= *)
(** ** JSON values *)

(** What [JSON.parse] and the server responses deliver (numbers are the
    integral ones), with [undefined] for what is absent. *)
#[warnings="-register-all"]
Inductive value :=
| VUndefined
| VNull
| VBool (b : bool)
| VNumber (z : Z)
| VString (s : jsstring)
| VArray (items : list value)
| VObject (fields : list (jsstring * value)).

Fixpoint assoc (k : jsstring) (fields : list (jsstring * value)) : option value :=
  match fields with
  | [] => None
  | (k', v) :: tl => if str_eqb k k' then Some v else assoc k tl
  end.

Definition truthy (v : value) : bool :=
  match v with
  | VUndefined | VNull => false
  | VBool b => b
  | VNumber z => negb (Z.eqb z 0)
  | VString s => match s with [] => false | _ => true end
  | VArray _ | VObject _ => true
  end.

Definition nullish (v : value) : bool :=
  match v with VUndefined | VNull => true | _ => false end.

(** [v.k] for a key that no prototype defines: a [TypeError] ([None]) on
    [undefined] and [null], the own property of an object, [undefined]
    otherwise. *)
Definition get (v : value) (k : string) : option value :=
  match v with
  | VUndefined | VNull => None
  | VObject fields =>
      Some (match assoc (js k) fields with Some x => x | None => VUndefined end)
  | _ => Some VUndefined
  end.

(** [v?.k] *)
Definition get_opt (v : value) (k : string) : value :=
  match get v k with Some x => x | None => VUndefined end.

(** [a || b], [a ?? b] *)
Definition or_else (a b : value) : value := if truthy a then a else b.
Definition coalesce (a b : value) : value := if nullish a then b else a.

(** [String(v)].  A number is printed with all its digits, which is how
    the runtime prints the integers a double holds exactly, those below
    2^53 in absolute value.  An array is joined with commas, [null] and
    [undefined] elements giving the empty string; an object gives
    [[object Object]] unless it has an own [toString] property, which,
    parsed from JSON, is not callable: the conversion then throws
    ([None]). *)
Fixpoint String_of (v : value) : option jsstring :=
  match v with
  | VUndefined => Some (js "undefined")
  | VNull => Some (js "null")
  | VBool true => Some (js "true")
  | VBool false => Some (js "false")
  | VNumber z => Some (String_of_Z z)
  | VString s => Some s
  | VArray items =>
      (fix join_items (l : list value) : option jsstring :=
         match l with
         | [] => Some []
         | x :: tl =>
             match (if nullish x then Some [] else String_of x) with
             | None => None
             | Some sx =>
                 match tl with
                 | [] => Some sx
                 | _ => match join_items tl with
                        | None => None
                        | Some stl => Some (sx ++ 44%N :: stl)
                        end
                 end
             end
         end) items
  | VObject fields =>
      match assoc (js "toString") fields with
      | Some _ => None
      | None => Some (js "[object Object]")
      end
  end.

Example String_of_ex :
  String_of (VArray [VNumber 1; VNull; VString (js "a")]) = Some (js "1,,a")
  /\ String_of (VNumber (-12)) = Some (js "-12").
Proof. split; reflexivity. Qed.

(* ================================================================= *)
(** ** SpeakerMapping.tsx *)

(** Evaluation that can throw: [None] is an exception that nothing
    catches. *)
Definition bind {A B : Type} (x : option A) (f : A -> option B) : option B :=
  match x with Some a => f a | None => None end.

Notation "'let*' x ':=' e 'in' k" := (bind e (fun x => k))
  (at level 10, x name, e at level 100, k at level 200).

Inductive ptype := permanent | temporary.

Record Participant := {
  p_id : jsstring;
  p_name : jsstring;
  p_role : jsstring;
  p_organization : option jsstring;
  p_type : ptype
}.

(** A [Set<string>] in insertion order. *)
Fixpoint set_has (l : list jsstring) (x : jsstring) : bool :=
  match l with
  | [] => false
  | y :: tl => str_eqb x y || set_has tl x
  end.

Definition set_add (l : list jsstring) (x : jsstring) : list jsstring :=
  if set_has l x then l else l ++ [x].

(** [Array.from(labels).sort()]: ascending in code-unit order. *)
Fixpoint sort_insert (x : jsstring) (l : list jsstring) : list jsstring :=
  match l with
  | [] => [x]
  | y :: tl => if str_leb x y then x :: l else y :: sort_insert x tl
  end.

Fixpoint sort_strings (l : list jsstring) : list jsstring :=
  match l with
  | [] => []
  | x :: tl => sort_insert x (sort_strings tl)
  end.

Definition Spiker : jsstring := js "Спикер".
Definition Spiker_sp : jsstring := js "Спикер ".

(** [/^[A-Z0-9]+$/] *)
Definition re_token : regex := rseq [RBol; rplus true cls_AZ09; REol].

(** [\d{2}:\d{2}] *)
Definition re_mmss : regex := rseq [cls_d; cls_d; chr 58; cls_d; cls_d].

(** [/\[(\d{2}:\d{2})\s*-\s*(\d{2}:\d{2})\]\s*(?:Спикер\s+([A-Z0-9]+)|([^:]+)):/g] *)
Definition transcriptPattern : regex :=
  rseq [chr 91; RGroup 1 re_mmss; RStar true cls_s; chr 45; RStar true cls_s;
        RGroup 2 re_mmss; chr 93; RStar true cls_s;
        RAlt (rseq [lit Spiker; rplus true cls_s; RGroup 3 (rplus true cls_AZ09)])
             (RGroup 4 (rplus true cls_not_colon));
        chr 58].

(** [/Спикер\s+([A-Z0-9]+)/gi], [/Speaker\s+([A-Z0-9]+)/gi],
    [/SPEAKER_(\d{2})/gi] *)
Definition simplePatterns (C : Canonicalizer) : list regex :=
  [ rseq [liti C Spiker; rplus true cls_s; RGroup 1 (rplus true cls_AZ09_i)];
    rseq [liti C (js "Speaker"); rplus true cls_s; RGroup 1 (rplus true cls_AZ09_i)];
    rseq [liti C (js "SPEAKER_"); RGroup 1 (rseq [cls_d; cls_d])] ].

(** The first scan tier: one diarization segment. *)
Definition segment_label (labels : list jsstring) (seg : value)
  : option (list jsstring) :=
  let* speaker := get seg "speaker" in
  let s := or_else speaker
             (or_else (get_opt seg "spk")
                (or_else (get_opt seg "label") (get_opt seg "speaker_label"))) in
  if nullish s then Some labels
  else
    let* str := String_of s in
    let speakerId := trim str in
    let speakerLabel :=
      if test re_token speakerId then Spiker_sp ++ speakerId else speakerId in
    Some (set_add labels speakerLabel).

Fixpoint scan_segments (labels : list jsstring) (segs : list value)
  : option (list jsstring) :=
  match segs with
  | [] => Some labels
  | seg :: tl =>
      let* labels' := segment_label labels seg in
      scan_segments labels' tl
  end.

(** The second tier: one match of [transcriptPattern]. *)
Definition transcript_match_label (labels : list jsstring) (m : rx_match)
  : list jsstring :=
  let speakerLabel :=
    match group 3 m with
    | Some (c :: s) => c :: s
    | _ => match group 4 m with Some s => s | None => [] end
    end in
  match speakerLabel with
  | [] => labels
  | _ =>
      if test re_token (trim speakerLabel)
      then set_add labels (Spiker_sp ++ trim speakerLabel)
      else set_add labels (trim speakerLabel)
  end.

(** The third tier: the whole matched text, trimmed. *)
Definition simple_pattern_labels (transcript : jsstring)
           (labels : list jsstring) (pattern : regex) : list jsstring :=
  fold_left (fun ls m => set_add ls (trim (match_text transcript m)))
            (matchAll pattern transcript) labels.

Definition fallback_labels : list jsstring := [js "Спикер A"; js "Спикер B"].

(** [diarization?.utterances || diarization?.segments ||
    diarization?.diarization || []] *)
Definition segments_value (diarization : value) : value :=
  or_else (get_opt diarization "utterances")
    (or_else (get_opt diarization "segments")
       (or_else (get_opt diarization "diarization") (VArray []))).

(** The segments that are scanned: those of a non-empty array. *)
Definition segments_of (diarization : value) : list value :=
  match segments_value diarization with
  | VArray segs => segs
  | _ => []
  end.

(** The labels after each of the three scans, each scan starting from the
    empty set. *)
Definition tier_diarization (diarization : value) : option (list jsstring) :=
  scan_segments [] (segments_of diarization).

Definition tier_transcript (transcript : jsstring) : list jsstring :=
  fold_left transcript_match_label (matchAll transcriptPattern transcript) [].

Definition tier_simple (C : Canonicalizer) (transcript : jsstring) : list jsstring :=
  fold_left (simple_pattern_labels transcript) (simplePatterns C) [].

(** The [speakerLabels] memo: a scan runs only while the set of labels is
    empty. *)
Definition speakerLabels (C : Canonicalizer) (diarization : value)
           (transcript : jsstring) : option (list jsstring) :=
  let* labels1 := tier_diarization diarization in
  let labels2 :=
    match labels1 with
    | [] => tier_transcript transcript
    | _ => labels1
    end in
  let labels3 :=
    match labels2 with
    | [] => tier_simple C transcript
    | _ => labels2
    end in
  let labels4 :=
    match labels3 with
    | [] => fold_left set_add fallback_labels labels3
    | _ => labels3
    end in
  Some (sort_strings labels4).

Example scenario_A :
  speakerLabels canon_basic
    (VObject [(js "utterances",
               VArray [VObject [(js "speaker", VString (js "A"))];
                       VObject [(js "speaker", VString (js "B"))];
                       VObject [(js "speaker", VString (js "A"))]])])
    (js "") = Some [js "Спикер A"; js "Спикер B"].
Proof. vm_compute. reflexivity. Qed.

Example labels_from_transcript :
  speakerLabels canon_basic VUndefined
    (js "[00:01 - 00:05] Спикер B: hello
[00:06 - 00:09] Anna: hi
[00:10 - 00:12] Спикер A: ok") = Some [js "Anna"; js "Спикер A"; js "Спикер B"].
Proof. vm_compute. reflexivity. Qed.

Example labels_simple :
  speakerLabels canon_basic VNull (js "then SPEAKER_01 and speaker a said")
  = Some [js "SPEAKER_01"; js "speaker a"].
Proof. vm_compute. reflexivity. Qed.

(** The speaker mapping, a [Record<string, string>] read in the order of
    [Object.entries] (insertion order; the labels are not array indices). *)
Definition Mapping := list (jsstring * jsstring).


(** [{ ...prev, [k]: v }] *)
Fixpoint mapping_set (m : Mapping) (k v : jsstring) : Mapping :=
  match m with
  | [] => [(k, v)]
  | (k', v') :: tl =>
      if str_eqb k k' then (k', v) :: tl else (k', v') :: mapping_set tl k v
  end.

Definition nonempty (s : jsstring) : bool :=
  match s with [] => false | _ => true end.

(** The replacement text of [String.prototype.replace] for a pattern
    without capture groups: [$$], [$&], [$`] and [$'] are expanded. *)
Fixpoint get_substitution (tpl matched before after : jsstring) : jsstring :=
  match tpl with
  | [] => []
  | c :: tl =>
      if N.eqb c 36 then
        match tl with
        | d :: tl' =>
            if N.eqb d 36 then 36%N :: get_substitution tl' matched before after
            else if N.eqb d 38 then matched ++ get_substitution tl' matched before after
            else if N.eqb d 96 then before ++ get_substitution tl' matched before after
            else if N.eqb d 39 then after ++ get_substitution tl' matched before after
            else c :: get_substitution tl matched before after
        | [] => [c]
        end
      else c :: get_substitution tl matched before after
  end.

(** [s.replace(re, replacement)] with the [g] flag and a replacement
    string. *)
Definition replace_all_str (r : regex) (input replacement : jsstring) : jsstring :=
  replace_all r input
    (fun m => get_substitution replacement (match_text input m)
                (substring input 0 (m_index m)) (substring_from input (m_stop m))).

(** [speakerLabel.replace(/^Спикер\s+/i, '').trim()] *)
Definition speakerId_of (C : Canonicalizer) (speakerLabel : jsstring) : jsstring :=
  trim (replace_first (rseq [RBol; liti C Spiker; rplus true cls_s])
                      speakerLabel (fun _ => [])).

(** The captured timing prefix of the first two patterns, under the [i]
    flag: an opening bracket, [\d{2}:\d{2}], spaces, a dash, spaces,
    [\d{2}:\d{2}], a closing bracket and spaces. *)
Definition re_timing (C : Canonicalizer) : regex :=
  RGroup 1 (rseq [chri C 91; cls_d; cls_d; chri C 58; cls_d; cls_d;
                  RStar true cls_s; chri C 45; RStar true cls_s;
                  cls_d; cls_d; chri C 58; cls_d; cls_d; chri C 93;
                  RStar true cls_s]).

(** [(^|\n)] *)
Definition re_line_start (C : Canonicalizer) : regex :=
  RGroup 1 (RAlt RBol (chri C 10)).

(** [Спикер\s+${escapeRegExp(speakerId)}] *)
Definition re_spiker_id (C : Canonicalizer) (speakerId : jsstring) : regex :=
  rseq [liti C Spiker; rplus true cls_s; escaped_literal C speakerId].

(** The four patterns of one mapping entry, in the order they are
    applied. *)
Definition pattern_timing_id (C : Canonicalizer) (speakerId : jsstring) : regex :=
  rseq [re_timing C; re_spiker_id C speakerId; RStar true cls_s; chri C 58].

Definition pattern_timing_label (C : Canonicalizer) (speakerLabel : jsstring) : regex :=
  rseq [re_timing C; escaped_literal C speakerLabel; RStar true cls_s; chri C 58].

Definition pattern_line_id (C : Canonicalizer) (speakerId : jsstring) : regex :=
  rseq [re_line_start C; RStar true cls_s; re_spiker_id C speakerId;
        RStar true cls_s; chri C 58].

Definition pattern_line_label (C : Canonicalizer) (speakerLabel : jsstring) : regex :=
  rseq [re_line_start C; RStar true cls_s; escaped_literal C speakerLabel;
        RStar true cls_s; chri C 58].

Definition entry_patterns (C : Canonicalizer) (speakerLabel : jsstring) : list regex :=
  let speakerId := speakerId_of C speakerLabel in
  [ pattern_timing_id C speakerId; pattern_timing_label C speakerLabel;
    pattern_line_id C speakerId; pattern_line_label C speakerLabel ].

(** The replacer function [(match, prefix = '') => ...]. *)
Definition replacer (C : Canonicalizer) (speakerLabel participantName : jsstring)
           (text : jsstring) (m : rx_match) : jsstring :=
  let speakerId := speakerId_of C speakerLabel in
  let matched := match_text text m in
  let prefix := match group 1 m with Some p => p | None => [] end in
  if nonempty prefix && nonempty (trim prefix)
  then prefix ++ participantName ++ [58%N]
  else if includes matched [58%N]
  then replace_all_str
         (RAlt (re_spiker_id C speakerId) (escaped_literal C speakerLabel))
         matched participantName
  else participantName ++ [58%N].

(** One [result = result.replace(pattern, ...)]. *)
Definition apply_pattern (C : Canonicalizer) (speakerLabel participantName : jsstring)
           (result : jsstring) (pattern : regex) : jsstring :=
  replace_all pattern result (replacer C speakerLabel participantName result).

Definition apply_entry (C : Canonicalizer) (result : jsstring)
           (entry : jsstring * jsstring) : jsstring :=
  let (speakerLabel, participantName) := entry in
  if negb (nonempty participantName) || negb (nonempty (trim participantName))
  then result
  else fold_left (apply_pattern C speakerLabel participantName)
                 (entry_patterns C speakerLabel) result.

Definition applyMappingToTranscript (C : Canonicalizer) (mapping : Mapping)
           (text : jsstring) : jsstring :=
  fold_left (apply_entry C) mapping text.

Example scenario_B_runs :
  applyMappingToTranscript canon_basic [(js "Спикер A", js "John Smith")]
    (js "[00:01 - 00:05] Спикер A: hello")
  = js "[00:01 - 00:05] John Smith: hello".
Proof. vm_compute. reflexivity. Qed.

Example annotate_lines :
  applyMappingToTranscript canon_basic
    [(js "Спикер A", js "Иван"); (js "Anna", js "Анна П.")]
    (js "[00:01 - 00:05] спикер  a : hello
Спикер A: no timing
  anna: x
[00:07-00:09]Anna: hi")
  = js "[00:01 - 00:05] Иван: hello
Иван: no timing
  Анна П.: x
[00:07-00:09]Анна П.: hi".
Proof. vm_compute. reflexivity. Qed.

(** *** The component state and its handlers *)

Record FormData := {
  f_name : jsstring;
  f_role : jsstring;
  f_organization : jsstring;
  f_type : ptype
}.

Definition empty_form : FormData :=
  {| f_name := []; f_role := []; f_organization := []; f_type := permanent |}.


Record State := {
  participants : list Participant;
  mapping : Mapping;
  submitting : bool;
  error : jsstring;
  isDialogOpen : bool;
  editingId : option jsstring;
  formData : FormData
}.

Definition with_participants (st : State) (ps : list Participant) : State :=
  {| participants := ps; mapping := mapping st; submitting := submitting st;
     error := error st; isDialogOpen := isDialogOpen st;
     editingId := editingId st; formData := formData st |}.

Definition with_mapping (st : State) (m : Mapping) : State :=
  {| participants := participants st; mapping := m; submitting := submitting st;
     error := error st; isDialogOpen := isDialogOpen st;
     editingId := editingId st; formData := formData st |}.


Definition has_name (ps : list Participant) (name : jsstring) : bool :=
  existsb (fun p => str_eqb (p_name p) name) ps.

(** The initial mapping: label number [idx] gets the name of participant
    number [idx], or the empty string. *)
Fixpoint init_mapping (labels : list jsstring) (ps : list Participant)
         (acc : Mapping) : Mapping :=
  match labels with
  | [] => acc
  | label :: tl =>
      let name := match ps with p :: _ => p_name p | [] => [] end in
      init_mapping tl (List.tl ps) (mapping_set acc label name)
  end.

(** The effect that follows every change of [participants]: entries whose
    non-empty target is no participant's name are deleted. *)
Definition prune_mapping (ps : list Participant) (m : Mapping) : Mapping :=
  filter (fun kv => negb (nonempty (snd kv) && negb (has_name ps (snd kv)))) m.

Definition rerender (st : State) : State :=
  with_mapping st (prune_mapping (participants st) (mapping st)).

Definition find_by_id (ps : list Participant) (id : jsstring) : option Participant :=
  find (fun p => str_eqb (p_id p) id) ps.

(** [handleDelete], given the answer to the confirmation dialog; the
    updates of the handler itself, before the next render. *)
Definition handleDelete_updates (st : State) (id : jsstring) (confirmed : bool) : State :=
  if confirmed then
    let deletedParticipant := find_by_id (participants st) id in
    let ps := filter (fun p => negb (str_eqb (p_id p) id)) (participants st) in
    let m :=
      match deletedParticipant with
      | Some d => filter (fun kv => negb (str_eqb (snd kv) (p_name d))) (mapping st)
      | None => mapping st
      end in
    with_mapping (with_participants st ps) m
  else st.

Definition handleDelete (st : State) (id : jsstring) (confirmed : bool) : State :=
  if confirmed then rerender (handleDelete_updates st id confirmed) else st.

Definition apply_form (p : Participant) (f : FormData) : Participant :=
  {| p_id := p_id p; p_name := f_name f; p_role := f_role f;
     p_organization := Some (f_organization f); p_type := f_type f |}.

(** [handleSave]; [now] is [Date.now().toString()]. *)
Definition handleSave (st : State) (now : jsstring) : State :=
  if negb (nonempty (trim (f_name (formData st)))) then st
  else
    let f := formData st in
    let ps :=
      match editingId st with
      | Some (c :: id) =>
          map (fun p => if str_eqb (p_id p) (c :: id) then apply_form p f else p)
              (participants st)
      | _ =>
          participants st ++
            [ {| p_id := now; p_name := f_name f; p_role := f_role f;
                 p_organization := Some (f_organization f); p_type := f_type f |} ]
      end in
    rerender
      {| participants := ps; mapping := mapping st; submitting := submitting st;
         error := error st; isDialogOpen := false;
         editingId := editingId st; formData := empty_form |}.

(** [handleChange]; the select offers the names of the participants. *)
Definition handleChange (st : State) (speaker participantName : jsstring) : State :=
  with_mapping st (mapping_set (mapping st) speaker participantName).

(** The effect on [initialParticipants]: a new roster from the props or
    from the storage, when it is not empty. *)
Definition syncParticipants (st : State) (ps : list Participant) : State :=
  match ps with
  | [] => st
  | _ => rerender (with_participants st ps)
  end.

(** The state after mounting. *)
Definition mount (labels : list jsstring) (ps : list Participant) : State :=
  rerender
    {| participants := ps; mapping := init_mapping labels ps [];
       submitting := false; error := []; isDialogOpen := false;
       editingId := None; formData := empty_form |}.

Inductive Event :=
| EvDelete (id : jsstring) (confirmed : bool)
| EvSave (now : jsstring)
| EvEditForm (editing : option jsstring) (f : FormData)
| EvChange (speaker participantName : jsstring)
| EvSync (ps : list Participant).

Definition step (st : State) (ev : Event) : State :=
  match ev with
  | EvDelete id confirmed => handleDelete st id confirmed
  | EvSave now => handleSave st now
  | EvEditForm editing f =>
      {| participants := participants st; mapping := mapping st;
         submitting := submitting st; error := error st; isDialogOpen := true;
         editingId := editing; formData := f |}
  | EvChange speaker participantName => handleChange st speaker participantName
  | EvSync ps => syncParticipants st ps
  end.

(** An event the interface can produce: the select of a speaker offers
    only the names of the current participants. *)
Definition event_ok (st : State) (ev : Event) : Prop :=
  match ev with
  | EvChange _ participantName => has_name (participants st) participantName = true
  | _ => True
  end.

Inductive reachable (labels : list jsstring) (ps0 : list Participant) : State -> Prop :=
| reach_mount : reachable labels ps0 (mount labels ps0)
| reach_step st ev :
    reachable labels ps0 st -> event_ok st ev ->
    reachable labels ps0 (step st ev).

(** *** Generation *)










(* ================================================================= *)
(** ** permanentParticipants.ts *)

(** The item [localStorage] holds under the key [permanent_participants],
    if any.  The module reads and writes no other key. *)
Definition Storage := option jsstring.

Module PermanentParticipants.
Section WithRuntime.
(** [JSON.stringify] and [JSON.parse] ([None]: a [SyntaxError]), and
    whether [localStorage.setItem] takes a text or throws for want of
    room. *)
Variable JSON_stringify : value -> jsstring.
Variable JSON_parse : jsstring -> option value.
Variable has_room : jsstring -> bool.

(** [p && p.type === "permanent"] *)
Definition is_permanent (p : value) : bool :=
  truthy p
  && match get_opt p "type" with
     | VString s => str_eqb s (js "permanent")
     | _ => false
     end.

(** [savePermanentParticipants]: the storage it leaves.  Every exception
    is caught and logged. *)
Definition savePermanentParticipants (participants : value) (store : Storage)
  : Storage :=
  match participants with
  | VArray (p :: ps) =>
      match filter is_permanent (p :: ps) with
      | [] => store
      | permanentOnly =>
          let dataToSave := JSON_stringify (VArray permanentOnly) in
          if has_room dataToSave then Some dataToSave else store
      end
  | _ => store
  end.

(** [typeof p === 'object'] for a value that is not [null]. *)
Definition is_object (p : value) : bool :=
  match p with VObject _ | VArray _ => true | _ => false end.

(** The test of the filter in [loadPermanentParticipants]. *)
Definition isValid (p : value) : bool :=
  truthy p && is_object p
  && match get_opt p "type" with
     | VString s => str_eqb s (js "permanent")
     | _ => false
     end
  && truthy (get_opt p "name") && truthy (get_opt p "id").

(** [loadPermanentParticipants]: what it returns and the storage it
    leaves. *)
Definition loadPermanentParticipants (store : Storage) : list value * Storage :=
  match store with
  | Some (c :: s) =>
      match JSON_parse (c :: s) with
      | Some (VArray participants) => (filter isValid participants, store)
      | _ => ([], None)
      end
  | _ => ([], store)
  end.

(** [clearPermanentParticipants] *)
Definition clearPermanentParticipants (store : Storage) : Storage := None.
End WithRuntime.
End PermanentParticipants.

(** A participant of the components as the value that is stored. *)
Definition participant_value (p : Participant) : value :=
  VObject ((js "id", VString (p_id p))
             :: (js "name", VString (p_name p))
             :: (js "role", VString (p_role p))
             :: match p_organization p with
                | Some o => [(js "organization", VString o)]
                | None => []
                end
             ++ [(js "type",
                  VString (match p_type p with
                           | permanent => js "permanent"
                           | temporary => js "temporary"
                           end))]).

(* ================================================================= *)
(** ** protocolFormatter.tsx *)

(** What the formatter renders: React nodes. *)
#[warnings="-register-all"]
Inductive node :=
| NNull
| NText (s : jsstring)
| NFragment (parts : list node)
| NSpan (s : jsstring)
| NStrong (child : node)
| NEm (s : jsstring).

Inductive mtype := bold | italic.

Record imatch := {
  im_start : nat;
  im_end : nat;
  im_type : mtype;
  im_text : jsstring
}.

(** [/\*\*(.+?)\*\*/g] and [/_(.+?)_/g] *)
Definition boldRegex : regex :=
  rseq [chr 42; chr 42; RGroup 1 (rplus false cls_dot); chr 42; chr 42].
Definition italicRegex : regex :=
  rseq [chr 95; RGroup 1 (rplus false cls_dot); chr 95].

Definition to_imatch (t : mtype) (m : rx_match) : imatch :=
  {| im_start := m_index m; im_end := m_stop m; im_type := t;
     im_text := match group 1 m with Some s => s | None => [] end |}.

(** The two [while (... exec ...)] loops, one after the other, filling
    [matches]. *)
Definition find_matches (text : jsstring) : option (list imatch) :=
  let* bs := exec_loop (S (List.length text)) boldRegex text 0 in
  let* its := exec_loop (S (List.length text)) italicRegex text 0 in
  Some (map (to_imatch bold) bs ++ map (to_imatch italic) its).

(** [matches.sort((a, b) => a.start - b.start)], a stable sort. *)
Fixpoint insert_by_start (x : imatch) (l : list imatch) : list imatch :=
  match l with
  | [] => [x]
  | y :: tl =>
      if Nat.leb (im_start x) (im_start y) then x :: l
      else y :: insert_by_start x tl
  end.

Fixpoint sort_by_start (l : list imatch) : list imatch :=
  match l with
  | [] => []
  | x :: tl => insert_by_start x (sort_by_start tl)
  end.

(** The test of the inner loop over [filteredMatches]. *)
Definition overlaps (current filtered : imatch) : bool :=
  (Nat.leb (im_start filtered) (im_start current)
   && Nat.ltb (im_start current) (im_end filtered))
  || (Nat.ltb (im_start filtered) (im_end current)
      && Nat.leb (im_end current) (im_end filtered))
  || (Nat.leb (im_start current) (im_start filtered)
      && Nat.leb (im_end filtered) (im_end current)).

Fixpoint filter_overlaps (ms : list imatch) (filteredMatches : list imatch)
  : list imatch :=
  match ms with
  | [] => filteredMatches
  | current :: tl =>
      if existsb (overlaps current) filteredMatches
      then filter_overlaps tl filteredMatches
      else filter_overlaps tl (filteredMatches ++ [current])
  end.

(** The matches that are rendered. *)
Definition filteredMatches (text : jsstring) : option (list imatch) :=
  let* ms := find_matches text in
  Some (filter_overlaps (sort_by_start ms) []).

(** The [forEach] over [filteredMatches] and the remaining text. *)
Fixpoint build_parts (format : jsstring -> option node) (text : jsstring)
         (ms : list imatch) (lastIndex : nat) : option (list node) :=
  match ms with
  | [] =>
      Some (if Nat.ltb lastIndex (List.length text)
            then match substring_from text lastIndex with
                 | [] => []
                 | plainText => [NSpan plainText]
                 end
            else [])
  | m :: tl =>
      let before :=
        if Nat.ltb lastIndex (im_start m)
        then match substring text lastIndex (im_start m) with
             | [] => []
             | plainText => [NSpan plainText]
             end
        else [] in
      let* formatted :=
        match im_type m with
        | bold => let* inner := format (im_text m) in Some (NStrong inner)
        | italic => Some (NEm (im_text m))
        end in
      let* others := build_parts format text tl (im_end m) in
      Some (before ++ formatted :: others)
  end.

(** [formatInlineMarkdown]; it calls itself on the text of a bold match,
    which is shorter than [text].  [None]: no result within [fuel]
    calls, or one of the [exec] loops does not end. *)
Fixpoint formatInline (fuel : nat) (text : jsstring) : option node :=
  match fuel with
  | O => None
  | S f =>
      match text with
      | [] => Some NNull
      | _ =>
          let* filtered := filteredMatches text in
          let* parts := build_parts (formatInline f) text filtered 0 in
          match parts with
          | [] => Some (NText text)
          | _ => Some (NFragment parts)
          end
      end
  end.

Definition formatInlineMarkdown (text : jsstring) : option node :=
  formatInline (S (List.length text)) text.

Example inline_bold :
  formatInlineMarkdown (js "**bold**")
  = Some (NFragment [NStrong (NFragment [NSpan (js "bold")])]).
Proof. vm_compute. reflexivity. Qed.

Example inline_mixed :
  formatInlineMarkdown (js "a _b **c_ d** e")
  = Some (NFragment [NSpan (js "a "); NEm (js "b **c"); NSpan (js " d** e")]).
Proof. vm_compute. reflexivity. Qed.

Example inline_nested :
  formatInlineMarkdown (js "x **b _i_** y")
  = Some (NFragment [NSpan (js "x ");
                     NStrong (NFragment [NSpan (js "b "); NEm (js "i")]);
                     NSpan (js " y")]).
Proof. vm_compute. reflexivity. Qed.

(** The elements [formatProtocolContent] pushes. *)
Inductive block :=
| Spacer
| Heading (level : nat) (content : option node)
| TranscriptUtterance (startTime endTime speaker text : jsstring)
| NumberedItem (number : jsstring) (level : nat) (content : option node)
| BulletList (items : list (option node))
| InstructionLine (content : option node)
| Paragraph (content : option node).

(** [/^-{3,}$/] *)
Definition re_rule : regex :=
  rseq [RBol; chr 45; chr 45; chr 45; RStar true (chr 45); REol].

(** The transcript line pattern of [formatProtocolContent], with the [i]
    flag: [^], an opening bracket, [(\d{2}:\d{2})], spaces, a dash, spaces,
    [(\d{2}:\d{2})], a closing bracket, spaces, [Спикер\s+([A-Z0-9]+):],
    spaces, [(.+)$]. *)
Definition transcriptRegex (C : Canonicalizer) : regex :=
  rseq [RBol; chri C 91;
        RGroup 1 (rseq [cls_d; cls_d; chri C 58; cls_d; cls_d]);
        RStar true cls_s; chri C 45; RStar true cls_s;
        RGroup 2 (rseq [cls_d; cls_d; chri C 58; cls_d; cls_d]);
        chri C 93; RStar true cls_s;
        liti C Spiker; rplus true cls_s; RGroup 3 (rplus true cls_AZ09_i);
        chri C 58; RStar true cls_s; RGroup 4 (rplus true cls_dot); REol].

(** The numbered item pattern: [^], a group of [\d+], any number of
    [\.\d+] and a dot, spaces, [(.+)$]. *)
Definition numberedRegex : regex :=
  rseq [RBol;
        RGroup 1 (rseq [rplus true cls_d;
                        RStar true (RSeq (chr 46) (rplus true cls_d));
                        chr 46]);
        RStar true cls_s; RGroup 2 (rplus true cls_dot); REol].

(** [/^[-•]\s*/] *)
Definition re_bullet_prefix : regex :=
  rseq [RBol; RChar (fun c => N.eqb c 45 || N.eqb c 8226); RStar true cls_s].

(** [/^(Поручение|Ответственный|Срок|Ответственные|Сроки):/i] *)
Definition instructionRegex (C : Canonicalizer) : regex :=
  rseq [RBol;
        RGroup 1 (RAlt (liti C (js "Поручение"))
                 (RAlt (liti C (js "Ответственный"))
                 (RAlt (liti C (js "Срок"))
                 (RAlt (liti C (js "Ответственные"))
                       (liti C (js "Сроки"))))));
        chri C 58].

Definition count_dots (s : jsstring) : nat :=
  List.length (filter (N.eqb 46) s).

(** The scanner state: the elements pushed so far and the open list. *)
Record Scan := {
  elements : list block;
  currentList : list jsstring
}.

Definition flushList (s : Scan) : Scan :=
  match currentList s with
  | [] => s
  | items =>
      {| elements := elements s ++ [BulletList (map formatInlineMarkdown items)];
         currentList := [] |}
  end.

Definition push (s : Scan) (b : block) : Scan :=
  {| elements := elements s ++ [b]; currentList := currentList s |}.

Definition cap (n : nat) (m : rx_match) : jsstring :=
  match group n m with Some s => s | None => [] end.

(** The body of [lines.forEach]. *)
Definition scan_line (C : Canonicalizer) (s : Scan) (line : jsstring) : Scan :=
  let trimmed := trim line in
  if negb (nonempty trimmed) || str_eqb trimmed (js "---") || test re_rule trimmed
  then
    let s1 := flushList s in
    if negb (nonempty trimmed) && Nat.ltb 0 (List.length (elements s1))
    then push s1 Spacer else s1
  else if startsWith trimmed (js "# ") then
    push (flushList s)
         (Heading 1 (formatInlineMarkdown (trim (substring_from trimmed 2))))
  else if startsWith trimmed (js "## ") then
    push (flushList s)
         (Heading 2 (formatInlineMarkdown (trim (substring_from trimmed 3))))
  else if startsWith trimmed (js "### ") then
    push (flushList s)
         (Heading 3 (formatInlineMarkdown (trim (substring_from trimmed 4))))
  else
    match exec (transcriptRegex C) trimmed 0 with
    | Some m =>
        push (flushList s)
             (TranscriptUtterance (cap 1 m) (cap 2 m) (cap 3 m) (cap 4 m))
    | None =>
      match exec numberedRegex trimmed 0 with
      | Some m =>
          push (flushList s)
               (NumberedItem (cap 1 m) (count_dots (cap 1 m))
                             (formatInlineMarkdown (cap 2 m)))
      | None =>
        if startsWith trimmed (js "- ") || startsWith trimmed (js "•") then
          let item := trim (replace_first re_bullet_prefix trimmed (fun _ => [])) in
          if nonempty item
          then {| elements := elements s; currentList := currentList s ++ [item] |}
          else s
        else if test (instructionRegex C) trimmed then
          push (flushList s) (InstructionLine (formatInlineMarkdown trimmed))
        else
          push (flushList s) (Paragraph (formatInlineMarkdown trimmed))
      end
    end.

Definition scan_lines (C : Canonicalizer) (lines : list jsstring) (s : Scan) : Scan :=
  fold_left (scan_line C) lines s.

(** [formatProtocolContent]: [None] is the [null] returned for the empty
    content, otherwise the children of the enclosing element. *)
Definition formatProtocolContent (C : Canonicalizer) (content : jsstring)
  : option (list block) :=
  match content with
  | [] => None
  | _ =>
      Some (elements
              (flushList
                 (scan_lines C (split_lines content)
                             {| elements := []; currentList := [] |})))
  end.

Example blocks_ex :
  formatProtocolContent canon_basic
    (js "# Title

---
1.2. item
- a
• b
Срок: now
[00:01 - 00:05] спикер A: hi
text")
  = Some [ Heading 1 (Some (NFragment [NSpan (js "Title")]));
           Spacer;
           NumberedItem (js "1.2.") 2 (Some (NFragment [NSpan (js "item")]));
           BulletList [Some (NFragment [NSpan (js "a")]);
                       Some (NFragment [NSpan (js "b")])];
           InstructionLine (Some (NFragment [NSpan (js "Срок: now")]));
           TranscriptUtterance (js "00:01") (js "00:05") (js "A") (js "hi");
           Paragraph (Some (NFragment [NSpan (js "text")])) ].
Proof. vm_compute. reflexivity. Qed.

(** *** [formatTranscript] *)

(** What [formatTranscript] renders for a line: a spacer, an utterance
    with its times, the label shown for the speaker and the text, or a
    paragraph. *)
Inductive tline :=
| TSpacer
| TUtterance (startTime endTime speaker text : jsstring)
| TParagraph (text : jsstring).

(** [\d{2}:\d{2}] and [[^:]] under the [i] flag. *)
Definition re_mmss_i (C : Canonicalizer) : regex :=
  rseq [cls_d; cls_d; chri C 58; cls_d; cls_d].

Definition cls_not_colon_i (C : Canonicalizer) : regex :=
  RChar (fun x => negb (N.eqb (C x) (C 58%N))).

(** The line pattern of [formatTranscript], with the [i] flag: [^], an
    opening bracket, [(\d{2}:\d{2})], spaces, a dash, spaces,
    [(\d{2}:\d{2})], a closing bracket, spaces, then either
    [Спикер\s+([A-Z0-9]+)] or [([^:]+)], a colon, spaces, [(.+)$]. *)
Definition transcriptLineRegex (C : Canonicalizer) : regex :=
  rseq [RBol; chri C 91; RGroup 1 (re_mmss_i C);
        RStar true cls_s; chri C 45; RStar true cls_s;
        RGroup 2 (re_mmss_i C); chri C 93; RStar true cls_s;
        RAlt (rseq [liti C Spiker; rplus true cls_s; RGroup 3 (rplus true cls_AZ09_i)])
             (RGroup 4 (rplus true (cls_not_colon_i C)));
        chri C 58; RStar true cls_s; RGroup 5 (rplus true cls_dot); REol].

(** The body of [lines.forEach] in [formatTranscript]. *)
Definition transcript_line (C : Canonicalizer) (line : jsstring) : tline :=
  let trimmed := trim line in
  match trimmed with
  | [] => TSpacer
  | _ =>
      match exec (transcriptLineRegex C) trimmed 0 with
      | Some m =>
          match group 3 m with
          | Some (c :: speakerLabel) =>
              TUtterance (cap 1 m) (cap 2 m)
                         (Spiker_sp ++ (c :: speakerLabel) ++ [58%N]) (cap 5 m)
          | _ =>
              TUtterance (cap 1 m) (cap 2 m) (cap 4 m ++ [58%N]) (cap 5 m)
          end
      | None => TParagraph trimmed
      end
  end.

(** [formatTranscript]: [None] is the [null] returned for the empty
    transcript, otherwise the children of the enclosing element. *)
Definition formatTranscript (C : Canonicalizer) (transcript : jsstring)
  : option (list tline) :=
  match transcript with
  | [] => None
  | _ => Some (map (transcript_line C) (split_lines transcript))
  end.

Example transcript_ex :
  formatTranscript canon_basic (js "[00:01 - 00:05] спикер a: hi

[00:06 - 00:09] Анна П.:  да: нет
  note ")
  = Some [ TUtterance (js "00:01") (js "00:05") (js "Спикер a:") (js "hi");
           TSpacer;
           TUtterance (js "00:06") (js "00:09") (js "Анна П.:") (js "да: нет");
           TParagraph (js "note") ].
Proof. vm_compute. reflexivity. Qed.

(* ================================================================= *)
(** ** ProtocolViewer.tsx *)

(** The placeholder [Н/Д]. *)
Definition ND : jsstring := js "Н/Д".

Record ParticipantData := {
  pd_name : jsstring;
  pd_organization : option jsstring;
  pd_role : option jsstring;
  pd_position : option jsstring
}.

(** The [protocol] prop. *)
Record Protocol := {
  pr_type : jsstring;
  pr_fileName : jsstring;
  pr_duration : jsstring;
  pr_participants : list jsstring;
  pr_date : jsstring;
  pr_content : jsstring;
  pr_summary : jsstring;
  pr_decisions : list jsstring;
  pr_transcript : option jsstring;
  pr_protocolType : option jsstring;
  pr_contentJson : option jsstring;
  pr_participantsData : option (list ParticipantData)
}.

(** The structure [buildProtocolJson] returns. *)
Record Metadata := {
  protocol_number : value;
  meeting_title : value;
  date : value;
  city : value
}.

Record ProtocolJson := {
  metadata : Metadata;
  summary : value;
  decisions : list value;
  attendees_table : value;
  assignments_table : list value
}.

Definition set_protocol_number (p : ProtocolJson) (n : value) : ProtocolJson :=
  {| metadata := {| protocol_number := n;
                    meeting_title := meeting_title (metadata p);
                    date := date (metadata p);
                    city := city (metadata p) |};
     summary := summary p; decisions := decisions p;
     attendees_table := attendees_table p;
     assignments_table := assignments_table p |}.

Definition opt_field (k : string) (o : option jsstring) : list (jsstring * value) :=
  match o with Some s => [(js k, VString s)] | None => [] end.

(** A participant record as a value. *)
Definition pdata_value (p : ParticipantData) : value :=
  VObject ((js "name", VString (pd_name p))
             :: opt_field "organization" (pd_organization p)
             ++ opt_field "role" (pd_role p)
             ++ opt_field "position" (pd_position p)).

Definition str_or (s dflt : jsstring) : jsstring :=
  match s with [] => dflt | _ => s end.

Definition opt_or (o : option jsstring) (dflt : jsstring) : jsstring :=
  match o with Some (c :: s) => c :: s | _ => dflt end.

(** [Array.isArray(x) ? x : [x || "Н/Д"]] *)
Definition wrap_decisions (x : value) : list value :=
  match x with
  | VArray items => items
  | _ => [or_else x (VString ND)]
  end.

(** [Array.isArray(x) ? x : (x ? [x] : [])] *)
Definition wrap_assignments (x : value) : list value :=
  match x with
  | VArray items => items
  | _ => if truthy x then [x] else []
  end.

(** The children of the generated document: paragraphs and tables of
    paragraphs. *)
Inductive child :=
| Para (text : value)
| TableOf (rows : list (list value)).

Definition text (s : string) : value := VString (js s).

(** The local calendar fields [(getFullYear(), getMonth(), getDate())] of
    [new Date(v)]; [None] when the date is invalid or its construction
    throws.  Parsing and the time zone belong to the runtime. *)
Definition DateFields := value -> option (Z * nat * nat).

(** [v === "Н/Д"] *)
Definition is_ND (v : value) : bool :=
  match v with VString s => str_eqb s ND | _ => false end.

(** [formatDateForProtocol] (the same in both versions of the viewer). *)
Definition formatDateForProtocol (fields : DateFields) (dateStr : value) : value :=
  if negb (truthy dateStr) || is_ND dateStr then VString ND
  else match fields dateStr with
       | None => dateStr
       | Some (year, month, day) =>
           let day := padStart2 (String_of_N (N.of_nat day)) in
           let month := padStart2 (String_of_N (N.of_nat (month + 1))) in
           VString (day ++ [46%N] ++ month ++ [46%N] ++ String_of_Z year)
       end.

(** An instance for closed examples: the date-only form [YYYY-MM-DD] of
    the date time string format, read in the UTC time zone; every other
    input is taken as an invalid date. *)
Definition digit_val (c : N) : nat := N.to_nat (c - 48).

Definition iso_date_fields : DateFields := fun v =>
  match v with
  | VString [y1; y2; y3; y4; h1; m1; m2; h2; d1; d2] =>
      if forallb is_digit [y1; y2; y3; y4; m1; m2; d1; d2]
         && N.eqb h1 45 && N.eqb h2 45
      then
        let year := 1000 * digit_val y1 + 100 * digit_val y2
                    + 10 * digit_val y3 + digit_val y4 in
        let month := 10 * digit_val m1 + digit_val m2 in
        let day := 10 * digit_val d1 + digit_val d2 in
        if Nat.leb 1 month && Nat.leb month 12 && Nat.leb 1 day && Nat.leb day 28
        then Some (Z.of_nat year, month - 1, day)
        else None
      else None
  | _ => None
  end.

Example format_date_ex :
  formatDateForProtocol iso_date_fields (text "2025-11-23") = text "23.11.2025"
  /\ formatDateForProtocol iso_date_fields (text "2025-01-05") = text "05.01.2025".
Proof. split; vm_compute; reflexivity. Qed.

(** *** The first version of the viewer: [handleDownload] *)

Module ViewerDownload.
Section WithRuntime.
Variable JSON_parse : jsstring -> option value.
Variable fields : DateFields.

Definition fallback (protocol : Protocol) : ProtocolJson :=
  {| metadata :=
       {| protocol_number := VString ND;
          meeting_title := VString (opt_or (pr_protocolType protocol) (js "Совещание"));
          date := VString (str_or (pr_date protocol) ND);
          city := VString ND |};
     summary := VString (str_or (pr_summary protocol) ND);
     decisions := map VString (pr_decisions protocol);
     attendees_table :=
       match pr_participantsData protocol with
       | Some ps => VArray (map pdata_value ps)
       | None =>
           VArray (map (fun p => VObject [(js "name", VString p);
                                          (js "position", VString ND)])
                       (pr_participants protocol))
       end;
     assignments_table := [] |}.

(** The [try] block: [None] is an exception, caught by the fallback. *)
Definition from_contentJson (protocol : Protocol) (contentJson : jsstring)
  : option ProtocolJson :=
  let* fullProtocol := JSON_parse contentJson in
  let* assignments := get fullProtocol "assignments_table" in
  let md := get_opt fullProtocol "metadata" in
  Some
    {| metadata :=
         {| protocol_number :=
              coalesce (get_opt fullProtocol "protocol_number")
                (coalesce (get_opt md "protocol_number") (VString ND));
            meeting_title :=
              coalesce (get_opt fullProtocol "meeting_title")
                (coalesce (get_opt md "meeting_title") (VString ND));
            date :=
              coalesce (get_opt fullProtocol "date")
                (coalesce (get_opt md "date") (VString (pr_date protocol)));
            city :=
              coalesce (get_opt fullProtocol "city")
                (coalesce (get_opt md "city") (VString ND)) |};
       summary := coalesce (get_opt fullProtocol "summary") (VString ND);
       decisions := wrap_decisions (get_opt fullProtocol "decisions");
       attendees_table :=
         coalesce (get_opt fullProtocol "attendees_table")
           (match pr_participantsData protocol with
            | Some ps => VArray (map pdata_value ps)
            | None => VArray []
            end);
       assignments_table := wrap_assignments assignments |}.

Definition buildProtocolJson (protocol : Protocol) : ProtocolJson :=
  match pr_contentJson protocol with
  | Some (c :: s) =>
      match from_contentJson protocol (c :: s) with
      | Some result => result
      | None => fallback protocol
      end
  | _ => fallback protocol
  end.

(** The protocol number: the count of the stored protocols plus one, or
    the placeholder when [getProtocols] fails.  [lookup] is the outcome
    of the call made by this download. *)
Definition number_from (lookup : option nat) : jsstring :=
  match lookup with
  | Some n => String_of_N (N.of_nat (n + 1))
  | None => ND
  end.

(** A template literal with one interpolated value. *)
Definition template (before : jsstring) (v : value) (after : jsstring)
  : option jsstring :=
  let* s := String_of v in Some (before ++ s ++ after).

Definition attendee_row (a : value) : option (list value) :=
  let* organization := get a "organization" in
  let* org :=
    if truthy organization && negb (is_ND organization)
    then template [] organization [10%N] else Some [] in
  let position := get_opt a "position" in
  let* pos :=
    if truthy position && negb (is_ND position)
    then String_of position else Some [] in
  Some [VString (str_or (org ++ pos) ND);
        or_else (get_opt a "name") (VString ND)].

Fixpoint map_opt {A B : Type} (f : A -> option B) (l : list A) : option (list B) :=
  match l with
  | [] => Some []
  | x :: tl =>
      let* y := f x in
      let* ys := map_opt f tl in
      Some (y :: ys)
  end.

Definition attendees_rows (table : value) : option (list (list value)) :=
  match or_else table (VArray []) with
  | VArray items => map_opt attendee_row items
  | _ => None
  end.

Definition assignment_row (idx : nat) (a : value) : option (list value) :=
  let* no := get a "no" in
  let* number := String_of (coalesce no (VNumber (Z.of_nat (idx + 1)))) in
  let due := get_opt a "due_date" in
  Some [VString number;
        coalesce (get_opt a "task") (VString ND);
        coalesce (get_opt a "responsible") (VString ND);
        if truthy due then formatDateForProtocol fields due else VString ND].

Fixpoint assignment_rows (idx : nat) (l : list value) : option (list (list value)) :=
  match l with
  | [] => Some []
  | a :: tl =>
      let* row := assignment_row idx a in
      let* rows := assignment_rows (S idx) tl in
      Some (row :: rows)
  end.

(** [handleDownload]: the children of the document it packs; [None]
    when an exception ends the download. *)
Definition handleDownload (protocol : Protocol) (lookup : option nat)
  : option (list child) :=
  let protocolNumber := number_from lookup in
  let parsed :=
    set_protocol_number (buildProtocolJson protocol) (VString protocolNumber) in
  let* attendees := attendees_rows (attendees_table parsed) in
  let* assignments := assignment_rows 0 (assignments_table parsed) in
  let* dateText := String_of (formatDateForProtocol fields (date (metadata parsed))) in
  let* cityText := String_of (city (metadata parsed)) in
  let* title := template (js "ПРОТОКОЛ № ") (protocol_number (metadata parsed)) [] in
  let* meeting :=
    template (js "Рабочая встреча «") (meeting_title (metadata parsed)) (js "»") in
  Some
    ([ Para (VString title);
       Para (VString meeting);
       Para (VString (dateText ++ js "   " ++ cityText));
       Para (text "ПРИСУТСТВОВАЛИ");
       TableOf ([text "Должность"; text "Бизнес-эксперт (по Skype):"] :: attendees);
       Para (text "ПОВЕСТКА:");
       Para (summary parsed);
       Para (text "РАССМОТРЕЛИ:") ]
     ++ map Para (decisions parsed)
     ++ [ Para (text "РЕШИЛИ:");
          Para (text "Зафиксировать поручения по итогам встречи:");
          TableOf ([text "№"; text "Поручение"; text "Ответственный"; text "Срок"]
                     :: assignments);
          Para (VString []);
          Para (text "Протокол подготовлен: Суяргулов И.Н.");
          Para (text "Контактный e-mail: suyargulov@teamidea.ru");
          Para (VString (js "Дата: " ++ dateText)) ]).

(** The title paragraph of a generated document. *)
Definition title_of (doc : list child) : option value :=
  match doc with
  | Para t :: _ => Some t
  | _ => None
  end.
End WithRuntime.
End ViewerDownload.

(** *** The second version of the viewer: [generateDocument] *)

Module ViewerDocument.
Section WithRuntime.
Variable JSON_parse : jsstring -> option value.
Variable fields : DateFields.

Definition Moscow : jsstring := js "г. Москва".

(** [v.trim()]: a [TypeError] on anything but a string. *)
Definition trim_of (v : value) : option jsstring :=
  match v with VString s => Some (trim s) | _ => None end.

(** [v && v !== "Н/Д" && v.trim()] as a condition. *)
Definition valid_text (v : value) : option bool :=
  if truthy v && negb (is_ND v)
  then let* t := trim_of v in Some (nonempty t)
  else Some false.

Definition valid_opt (o : option jsstring) : jsstring :=
  match o with
  | Some s => if nonempty s && negb (str_eqb s ND) && nonempty (trim s)
              then s else []
  | None => []
  end.

(** [participantsDataMap]: name to organization and role. *)
Definition InfoMap := list (jsstring * (jsstring * jsstring)).

Fixpoint info_set (m : InfoMap) (k : jsstring) (v : jsstring * jsstring) : InfoMap :=
  match m with
  | [] => [(k, v)]
  | (k', v') :: tl =>
      if str_eqb k k' then (k', v) :: tl else (k', v') :: info_set tl k v
  end.

Fixpoint info_get (m : InfoMap) (k : value) : option (jsstring * jsstring) :=
  match m, k with
  | (k', v) :: tl, VString s => if str_eqb s k' then Some v else info_get tl k
  | _, _ => None
  end.

Definition first_opt (a b : option jsstring) : option jsstring :=
  match a with Some (c :: s) => Some (c :: s) | _ => b end.

Definition build_info (ps : list ParticipantData) : InfoMap :=
  fold_left
    (fun m p =>
       info_set m (str_or (pd_name p) ND)
                (valid_opt (pd_organization p),
                 valid_opt (first_opt (pd_role p) (pd_position p))))
    ps [].

Definition attendee (name organization role : value) : value :=
  VObject [(js "name", name); (js "organization", organization); (js "role", role)].

(** One [attendees_table] row of the payload, completed from the map. *)
Definition merge_attendee (info : InfoMap) (a : value) : option value :=
  let* a_name := get a "name" in
  let name := or_else a_name (VString ND) in
  let participantInfo := info_get info name in
  let* logged := String_of name in
  let a_org := get_opt a "organization" in
  let* org_ok := valid_text a_org in
  let organization :=
    if org_ok then a_org
    else VString (match participantInfo with Some (o, _) => o | None => [] end) in
  let attendeeRole := or_else (get_opt a "role") (get_opt a "position") in
  let* role_ok := valid_text attendeeRole in
  let role :=
    if role_ok then attendeeRole
    else VString (match participantInfo with Some (_, r) => r | None => [] end) in
  Some (attendee name organization role).

(** One [participants] row of the payload. *)
Definition merge_participant (info : InfoMap) (p : value) : option value :=
  let* p_name := get p "name" in
  let name := or_else p_name (or_else (get_opt p "id") (VString ND)) in
  let participantInfo := info_get info name in
  let p_org := get_opt p "organization" in
  let* org_ok := valid_text p_org in
  let organization :=
    if org_ok then p_org
    else VString (match participantInfo with Some (o, _) => o | None => [] end) in
  let p_role := get_opt p "role" in
  let* role_ok := valid_text p_role in
  let role :=
    if role_ok then p_role
    else VString (match participantInfo with Some (_, r) => r | None => [] end) in
  Some (attendee name organization role).

Definition own_attendee (p : ParticipantData) : value :=
  let org :=
    match pd_organization p with
    | Some s => if nonempty s && negb (str_eqb s ND) && negb (str_eqb s (js "000"))
                then s else []
    | None => []
    end in
  attendee (VString (str_or (pd_name p) ND)) (VString org)
           (VString (opt_or (pd_role p) [])).

Definition map_opt := @ViewerDownload.map_opt.

Definition attendees_data (protocol : Protocol) (fullProtocol : value)
  : option (list value) :=
  let info :=
    match pr_participantsData protocol with
    | Some ps => build_info ps
    | None => []
    end in
  match get_opt fullProtocol "attendees_table" with
  | VArray items => map_opt (merge_attendee info) items
  | _ =>
      match get_opt fullProtocol "participants" with
      | VArray items => map_opt (merge_participant info) items
      | _ =>
          match pr_participantsData protocol with
          | Some ps => Some (map own_attendee ps)
          | None => Some []
          end
      end
  end.

Definition from_json (protocol : Protocol) (jsonString : jsstring)
  : option ProtocolJson :=
  let* fullProtocol := JSON_parse jsonString in
  let* assignments := get fullProtocol "assignments_table" in
  let* attendees := attendees_data protocol fullProtocol in
  let md := get_opt fullProtocol "metadata" in
  Some
    {| metadata :=
         {| protocol_number :=
              coalesce (get_opt fullProtocol "protocol_number")
                (coalesce (get_opt md "protocol_number") (VString ND));
            meeting_title :=
              coalesce (get_opt fullProtocol "meeting_title")
                (coalesce (get_opt md "meeting_title") (VString ND));
            date :=
              coalesce (get_opt fullProtocol "date")
                (coalesce (get_opt md "date") (VString (pr_date protocol)));
            city :=
              coalesce (get_opt fullProtocol "city")
                (coalesce (get_opt md "city") (VString Moscow)) |};
       summary := coalesce (get_opt fullProtocol "summary") (VString ND);
       decisions := wrap_decisions (get_opt fullProtocol "decisions");
       attendees_table :=
         match attendees with
         | [] => match pr_participantsData protocol with
                 | Some ps => VArray (map pdata_value ps)
                 | None => VArray []
                 end
         | _ => VArray attendees
         end;
       assignments_table := wrap_assignments assignments |}.

Definition fallback (protocol : Protocol) : ProtocolJson :=
  {| metadata :=
       {| protocol_number := VString ND;
          meeting_title := VString (opt_or (pr_protocolType protocol) (js "Совещание"));
          date := VString (str_or (pr_date protocol) ND);
          city := VString Moscow |};
     summary := VString (str_or (pr_summary protocol) ND);
     decisions := map VString (pr_decisions protocol);
     attendees_table :=
       match pr_participantsData protocol with
       | Some ps =>
           VArray (map (fun p => attendee (VString (str_or (pd_name p) ND))
                                          (VString (opt_or (pd_organization p) []))
                                          (VString (opt_or (pd_role p) [])))
                       ps)
       | None =>
           VArray (map (fun p => VObject [(js "name", VString p);
                                          (js "role", VString []);
                                          (js "organization", VString [])])
                       (pr_participants protocol))
       end;
     assignments_table := [] |}.

(** The text that is parsed: [contentJson], or the content when it
    starts like JSON. *)
Definition json_source (protocol : Protocol) : option jsstring :=
  match pr_contentJson protocol with
  | Some (c :: s) => Some (c :: s)
  | _ =>
      match pr_content protocol with
      | [] => None
      | content =>
          let trimmedContent := trim content in
          if startsWith trimmedContent [123%N] || startsWith trimmedContent [91%N]
          then Some trimmedContent else None
      end
  end.

Definition buildProtocolJson (protocol : Protocol) : ProtocolJson :=
  match json_source protocol with
  | Some (c :: s) =>
      match from_json protocol (c :: s) with
      | Some result => result
      | None => fallback protocol
      end
  | _ => fallback protocol
  end.

(** The state of the component. *)
Record ViewerState := {
  editedSummary : value;
  editedDecisions : jsstring;
  editedMeetingTitle : value;
  editedAttendees : list value;
  editedAssignments : list value;
  editedDate : value;
  editedCity : value;
  protocolNumber : jsstring
}.

Definition with_number (st : ViewerState) (n : jsstring) : ViewerState :=
  {| editedSummary := editedSummary st; editedDecisions := editedDecisions st;
     editedMeetingTitle := editedMeetingTitle st;
     editedAttendees := editedAttendees st;
     editedAssignments := editedAssignments st;
     editedDate := editedDate st; editedCity := editedCity st;
     protocolNumber := n |}.

Definition next_number (n : nat) : jsstring := String_of_N (N.of_nat (n + 1)).

(** [decisions.join("\n")] *)
Fixpoint join_values (l : list value) : option jsstring :=
  match l with
  | [] => Some []
  | x :: tl =>
      let* sx := if nullish x then Some [] else String_of x in
      match tl with
      | [] => Some sx
      | _ => let* stl := join_values tl in Some (sx ++ 10%N :: stl)
      end
  end.

(** The effect on [protocol]: the edited fields are filled from the
    parsed protocol, and the number is set once the lookup it starts
    has answered ([lookup] is its outcome). *)
Definition initialise (protocol : Protocol) (lookup : option nat)
  : option ViewerState :=
  let parsed := buildProtocolJson protocol in
  let* joined :=
    match decisions parsed with
    | [] => Some (join [10%N] (pr_decisions protocol))
    | ds => join_values ds
    end in
  Some
    {| editedSummary := or_else (summary parsed) (VString (pr_summary protocol));
       editedDecisions := joined;
       editedMeetingTitle := or_else (meeting_title (metadata parsed)) (VString ND);
       editedAttendees :=
         match attendees_table parsed with VArray items => items | _ => [] end;
       editedAssignments := assignments_table parsed;
       editedDate :=
         formatDateForProtocol fields
           (or_else (date (metadata parsed)) (VString (pr_date protocol)));
       editedCity := or_else (city (metadata parsed)) (VString Moscow);
       protocolNumber :=
         match lookup with Some n => next_number n | None => ND end |}.

(** [v && v.trim()] as a condition. *)
Definition nonblank (v : value) : option bool :=
  if truthy v then let* t := trim_of v in Some (nonempty t) else Some false.

(** [/^\d{2}\.\d{2}\.\d{4}$/] *)
Definition re_ddmmyyyy : regex :=
  rseq [RBol; cls_d; cls_d; chr 46; cls_d; cls_d; chr 46;
        cls_d; cls_d; cls_d; cls_d; REol].

(** The date put back into the parsed protocol. *)
Definition edited_date (d : jsstring) : jsstring :=
  if test re_ddmmyyyy d then
    match split_on 46%N d [] with
    | [day; month; year] => year ++ [45%N] ++ month ++ [45%N] ++ day
    | _ => d
    end
  else d.

(** The edits applied to the parsed protocol. *)
Definition apply_edits (st : ViewerState) (parsed : ProtocolJson)
  : option ProtocolJson :=
  let* summary_ok := nonblank (editedSummary st) in
  let summary' := if summary_ok then editedSummary st else summary parsed in
  let decisionsArray :=
    filter (fun d => nonempty (trim d)) (split_lines (editedDecisions st)) in
  let decisions' :=
    if nonempty (editedDecisions st) && nonempty (trim (editedDecisions st))
    then match decisionsArray with
         | [] => decisions parsed
         | _ => map VString decisionsArray
         end
    else decisions parsed in
  let* title_ok := nonblank (editedMeetingTitle st) in
  let title' := if title_ok then editedMeetingTitle st
                else meeting_title (metadata parsed) in
  let attendees' :=
    match editedAttendees st with
    | [] => attendees_table parsed
    | l => VArray l
    end in
  let assignments' :=
    match editedAssignments st with
    | [] => assignments_table parsed
    | l => l
    end in
  let* date_ok := nonblank (editedDate st) in
  let date' :=
    if date_ok
    then match editedDate st with
         | VString d => VString (edited_date d)
         | other => other
         end
    else date (metadata parsed) in
  let* city_ok := nonblank (editedCity st) in
  let city' := if city_ok then editedCity st else city (metadata parsed) in
  Some
    {| metadata := {| protocol_number := protocol_number (metadata parsed);
                      meeting_title := title'; date := date'; city := city' |};
       summary := summary'; decisions := decisions';
       attendees_table := attendees'; assignments_table := assignments' |}.

(** The string a value is, once [trim] was called on it. *)
Definition string_of (v : value) : jsstring :=
  match v with VString s => s | _ => [] end.

Definition attendee_row (a : value) : option (list value) :=
  let* a_org := get a "organization" in
  let organization := or_else a_org (VString []) in
  let role :=
    or_else (get_opt a "role") (or_else (get_opt a "position") (VString [])) in
  let* org_ok := valid_text organization in
  let* role_ok := valid_text role in
  let parts := (if org_ok then [string_of organization] else [])
                 ++ (if role_ok then [string_of role] else []) in
  let fullPosition :=
    match parts with [] => ND | _ => join [10%N] parts end in
  Some [VString fullPosition; or_else (get_opt a "name") (VString ND)].

Definition attendees_rows (table : value) : option (list (list value)) :=
  match or_else table (VArray []) with
  | VArray items => map_opt attendee_row items
  | _ => None
  end.

Definition template := ViewerDownload.template.

Fixpoint decision_paragraphs (idx : nat) (ds : list value) : option (list child) :=
  match ds with
  | [] => Some []
  | d :: tl =>
      let* s := String_of (or_else d (VString ND)) in
      let* others := decision_paragraphs (S idx) tl in
      Some (Para (VString (String_of_N (N.of_nat (idx + 1)) ++ js ". " ++ s))
              :: others)
  end.

(** [generateDocument]: the new state, and the children of the document
    with the number it returns; [None] for the document when an
    exception ends the generation.  [lookup] is the outcome of the call
    of [getProtocols] this generation makes when it has no number. *)
Definition generateDocument (protocol : Protocol) (st : ViewerState)
           (lookup : option nat)
  : ViewerState * option (list child * value) :=
  let currentProtocolNumber :=
    if str_eqb (protocolNumber st) ND
    then match lookup with Some n => next_number n | None => protocolNumber st end
    else protocolNumber st in
  let st' := with_number st currentProtocolNumber in
  let document :=
    let parsed0 :=
      set_protocol_number (buildProtocolJson protocol)
                          (VString currentProtocolNumber) in
    let* parsed := apply_edits st parsed0 in
    let* attendees := attendees_rows (attendees_table parsed) in
    let* assignments :=
      ViewerDownload.assignment_rows fields 0 (assignments_table parsed) in
    let dateText :=
      or_else (editedDate st) (formatDateForProtocol fields (date (metadata parsed))) in
    let cityText := or_else (editedCity st) (city (metadata parsed)) in
    let* title := template (js "ПРОТОКОЛ № ") (protocol_number (metadata parsed)) [] in
    let* meeting :=
      template (js "Рабочая встреча «")
               (or_else (meeting_title (metadata parsed)) (VString ND)) (js "»") in
    let* reviewed :=
      match decisions parsed with
      | [] => Some [Para (VString ND)]
      | ds => decision_paragraphs 0 ds
      end in
    let* signed :=
      template (js "Дата: ") (formatDateForProtocol fields (date (metadata parsed))) [] in
    Some
      ([ Para (VString title);
         Para (VString meeting);
         TableOf [[dateText; cityText]];
         Para (VString []);
         Para (text "ПРИСУТСТВОВАЛИ");
         TableOf ([text "Должность"; text "Бизнес-эксперт (по Skype):"] :: attendees);
         Para (text "ПОВЕСТКА:");
         Para (or_else (summary parsed) (VString ND));
         Para (text "РАССМОТРЕЛИ:") ]
       ++ reviewed
       ++ [ Para (text "РЕШИЛИ:");
            Para (text "Зафиксировать поручения по итогам встречи:");
            TableOf ([text "№"; text "Поручение"; text "Ответственный"; text "Срок"]
                       :: assignments);
            Para (VString []);
            Para (text "Протокол подготовлен: Корнаев А.А.");
            Para (text "Контактный e-mail: Arsen.Kornaev@contractor.lukoil.com");
            Para (VString signed) ],
       protocol_number (metadata parsed)) in
  (st', document).

Definition title_of := ViewerDownload.title_of.
End WithRuntime.
End ViewerDocument.

(** *** The second version of the viewer: the preview *)

Module ViewerPreview.
Section WithRuntime.
Variable JSON_parse : jsstring -> option value.
Variable fields : DateFields.

(** What [getProtocolData] hands to the preview. *)
Record ProtocolData := {
  d_protocolNumber : jsstring;
  d_meetingTitle : value;
  d_date : value;
  d_city : value;
  d_summary : value;
  d_decisions : list value;
  d_attendees : value;
  d_assignments : list value
}.

Definition getProtocolData (protocol : Protocol) (st : ViewerDocument.ViewerState)
  : ProtocolData :=
  let parsed := ViewerDocument.buildProtocolJson JSON_parse protocol in
  {| d_protocolNumber := ViewerDocument.protocolNumber st;
     d_meetingTitle :=
       or_else (ViewerDocument.editedMeetingTitle st)
         (or_else (meeting_title (metadata parsed)) (VString ND));
     d_date :=
       or_else (ViewerDocument.editedDate st)
         (formatDateForProtocol fields
            (or_else (date (metadata parsed)) (VString (pr_date protocol))));
     d_city :=
       or_else (ViewerDocument.editedCity st)
         (or_else (city (metadata parsed)) (VString ViewerDocument.Moscow));
     d_summary :=
       or_else (ViewerDocument.editedSummary st)
         (or_else (summary parsed) (VString ND));
     d_decisions :=
       match filter (fun d => nonempty (trim d))
                    (split_lines (ViewerDocument.editedDecisions st)) with
       | [] => decisions parsed
       | ds => map VString ds
       end;
     d_attendees :=
       match ViewerDocument.editedAttendees st with
       | [] =>
           or_else (attendees_table parsed)
             (match pr_participantsData protocol with
              | Some ps => VArray (map pdata_value ps)
              | None =>
                  VArray (map (fun p => VObject [(js "name", VString p);
                                                 (js "role", VString ND);
                                                 (js "organization", VString ND)])
                              (pr_participants protocol))
              end)
       | l => VArray l
       end;
     d_assignments :=
       match ViewerDocument.editedAssignments st with
       | [] => assignments_table parsed
       | l => l
       end |}.
End WithRuntime.
End ViewerPreview.

(* ================================================================= *)
(** * Properties *)

(** ** Strings *)

Lemma str_eqb_eq : forall a b, str_eqb a b = true <-> a = b.
Proof.
  induction a as [|x a IH]; destruct b as [|y b]; simpl; split; intro H;
    try reflexivity; try discriminate.
  - apply andb_true_iff in H. destruct H as [H1 H2].
    apply N.eqb_eq in H1. apply IH in H2. subst. reflexivity.
  - injection H as -> ->. rewrite N.eqb_refl. simpl. apply IH. reflexivity.
Qed.

Lemma str_eqb_refl : forall a, str_eqb a a = true.
Proof. intro a. apply str_eqb_eq. reflexivity. Qed.

Lemma str_eqb_neq : forall a b, str_eqb a b = false <-> a <> b.
Proof.
  intros a b. split.
  - intros H E. apply str_eqb_eq in E. congruence.
  - intro H. destruct (str_eqb a b) eqn:E; [|reflexivity].
    apply str_eqb_eq in E. contradiction.
Qed.

Lemma nonempty_true : forall s, nonempty s = true <-> s <> [].
Proof. destruct s; simpl; split; congruence. Qed.

(* ================================================================= *)
(** ** The speaker mapping never dangles *)

(** Every non-empty entry of the mapping names a participant of the
    roster. *)
Definition mapping_ok (st : State) : Prop :=
  forall k v, In (k, v) (mapping st) -> v <> [] ->
              has_name (participants st) v = true.

Lemma prune_mapping_ok : forall ps m k v,
  In (k, v) (prune_mapping ps m) -> v <> [] -> has_name ps v = true.
Proof.
  intros ps m k v Hin Hne. unfold prune_mapping in Hin.
  apply filter_In in Hin. destruct Hin as [_ Hf]. simpl in Hf.
  apply nonempty_true in Hne. rewrite Hne in Hf. simpl in Hf.
  destruct (has_name ps v); [reflexivity | discriminate].
Qed.

Lemma rerender_ok : forall st, mapping_ok (rerender st).
Proof.
  intros st k v Hin Hne. unfold rerender in *. simpl in *.
  eapply prune_mapping_ok; eauto.
Qed.

Lemma mapping_set_in : forall m k0 v0 k v,
  In (k, v) (mapping_set m k0 v0) -> In (k, v) m \/ v = v0.
Proof.
  induction m as [|[k' v'] m IH]; simpl; intros k0 v0 k v H.
  - destruct H as [H|[]]. injection H as _ <-. right. reflexivity.
  - destruct (str_eqb k0 k').
    + destruct H as [H|H].
      * injection H as _ <-. right. reflexivity.
      * left. right. exact H.
    + destruct H as [H|H].
      * left. left. exact H.
      * apply IH in H. destruct H as [H|H]; [left; right; exact H | right; exact H].
Qed.

Lemma step_ok : forall st ev, mapping_ok st -> event_ok st ev -> mapping_ok (step st ev).
Proof.
  intros st ev Hok Hev. destruct ev as [id confirmed|now|editing f|speaker name|ps]; simpl.
  - unfold handleDelete. destruct confirmed; [apply rerender_ok | exact Hok].
  - unfold handleSave.
    destruct (negb (nonempty (trim (f_name (formData st))))); [exact Hok|].
    apply rerender_ok.
  - exact Hok.
  - intros k v Hin Hne. simpl in *. apply mapping_set_in in Hin.
    destruct Hin as [Hin | ->]; [apply (Hok k v Hin Hne) | exact Hev].
  - unfold syncParticipants. destruct ps; [exact Hok | apply rerender_ok].
Qed.

(** What [handleDelete] itself removes. *)
Lemma handleDelete_removes : forall st id d k v,
  find_by_id (participants st) id = Some d ->
  In (k, v) (mapping (handleDelete_updates st id true)) ->
  v <> p_name d /\ In (k, v) (mapping st).
Proof.
  intros st id d k v Hfind Hin. unfold handleDelete_updates in Hin.
  rewrite Hfind in Hin. simpl in Hin. apply filter_In in Hin.
  destruct Hin as [Hin Hf]. simpl in Hf. split; [|exact Hin].
  intro E. subst v. rewrite str_eqb_refl in Hf. discriminate.
Qed.

(** C10. After mounting and after every event that the interface can
    produce, every non-empty entry of the speaker mapping names a
    participant of the current roster; and the update [handleDelete]
    makes by itself leaves no entry whose target is the name of the
    deleted participant. *)
Theorem C10_mapping_never_dangles :
  forall labels ps0 st,
    reachable labels ps0 st ->
    mapping_ok st
    /\ (forall id d k v,
           find_by_id (participants st) id = Some d ->
           In (k, v) (mapping (handleDelete st id true)) ->
           v <> p_name d).
Proof.
  intros labels ps0 st Hreach. split.
  - induction Hreach as [|st ev Hreach IH Hev].
    + apply rerender_ok.
    + apply step_ok; assumption.
  - intros id d k v Hfind Hin. unfold handleDelete, rerender in Hin. simpl in Hin.
    unfold prune_mapping in Hin. apply filter_In in Hin. destruct Hin as [Hin _].
    eapply handleDelete_removes in Hfind; [|exact Hin]. apply Hfind.
Qed.

Definition ivan : Participant :=
  {| p_id := js "1"; p_name := js "Иван"; p_role := js "PM";
     p_organization := None; p_type := permanent |}.
Definition anna : Participant :=
  {| p_id := js "2"; p_name := js "Анна"; p_role := js "QA";
     p_organization := None; p_type := temporary |}.

Lemma C10_witness :
  mapping_ok (step (mount fallback_labels [ivan; anna]) (EvDelete (js "1") true))
  /\ mapping (step (mount fallback_labels [ivan; anna]) (EvDelete (js "1") true))
     = [(js "Спикер B", js "Анна")].
Proof.
  split.
  - apply (C10_mapping_never_dangles (labels := fallback_labels) (ps0 := [ivan; anna])).
    apply reach_step; [apply reach_mount | exact I].
  - vm_compute. reflexivity.
Defined.

(* ================================================================= *)
(** ** Generation is blocked while a label is unmapped *)












(* ================================================================= *)
(** ** The decisions of the canonical model *)

Definition protocol_ex (contentJson : option jsstring) (ds : list jsstring) : Protocol :=
  {| pr_type := js "standard-meeting"; pr_fileName := js "a.mp3";
     pr_duration := js "10:00"; pr_participants := [js "Иван"];
     pr_date := js "2025-11-23"; pr_content := js "text";
     pr_summary := js "s"; pr_decisions := ds; pr_transcript := None;
     pr_protocolType := None; pr_contentJson := contentJson;
     pr_participantsData := None |}.

(** A parser for closed examples: it answers with one fixed payload. *)
Definition parse_as (payload : value) : jsstring -> option value :=
  fun _ => Some payload.

(** An upstream payload whose decisions are the empty array gives an empty
    decisions list, in both versions of the viewer. *)
Lemma C5_empty_decisions :
  let payload := VObject [(js "decisions", VArray [])] in
  let protocol := protocol_ex (Some (js "{}")) [js "d"] in
  decisions (ViewerDownload.buildProtocolJson (parse_as payload) protocol) = []
  /\ decisions (ViewerDocument.buildProtocolJson (parse_as payload) protocol) = [].
Proof. vm_compute. split; reflexivity. Qed.

(** A parser for closed examples that knows one text. *)
Definition parse_text (known : jsstring) (payload : value) : jsstring -> option value :=
  fun s => if str_eqb s known then Some payload else None.

(** The payload a version of the viewer uses: the text it takes from the
    protocol is parsed to [fp], and its [try] block ends without an
    exception. *)
Definition download_uses (JSON_parse : jsstring -> option value) (protocol : Protocol)
           (src : jsstring) (fp : value) : Prop :=
  pr_contentJson protocol = Some src /\ src <> [] /\ JSON_parse src = Some fp
  /\ ViewerDownload.from_contentJson JSON_parse protocol src <> None.

Definition document_uses (JSON_parse : jsstring -> option value) (protocol : Protocol)
           (src : jsstring) (fp : value) : Prop :=
  ViewerDocument.json_source protocol = Some src /\ JSON_parse src = Some fp
  /\ ViewerDocument.from_json JSON_parse protocol src <> None.

Lemma json_source_nonempty : forall protocol src,
  ViewerDocument.json_source protocol = Some src -> src <> [].
Proof.
  intros protocol src H. unfold ViewerDocument.json_source in H.
  destruct (pr_contentJson protocol) as [[|c s]|].
  - destruct (pr_content protocol) as [|c0 s0]; [discriminate|].
    destruct (startsWith (trim (c0 :: s0)) [123%N] || startsWith (trim (c0 :: s0)) [91%N])
      eqn:E; [|discriminate].
    injection H as <-. intro E0. rewrite E0 in E. discriminate.
  - injection H as <-. discriminate.
  - destruct (pr_content protocol) as [|c0 s0]; [discriminate|].
    destruct (startsWith (trim (c0 :: s0)) [123%N] || startsWith (trim (c0 :: s0)) [91%N])
      eqn:E; [|discriminate].
    injection H as <-. intro E0. rewrite E0 in E. discriminate.
Qed.

(** The decisions of the second viewer's model when the payload is
    used, and when it is not. *)
Lemma document_decisions_used : forall JSON_parse protocol src fp,
  ViewerDocument.json_source protocol = Some src ->
  JSON_parse src = Some fp ->
  ViewerDocument.from_json JSON_parse protocol src <> None ->
  decisions (ViewerDocument.buildProtocolJson JSON_parse protocol)
  = wrap_decisions (get_opt fp "decisions").
Proof.
  intros JSON_parse protocol src fp Hs Hp Hok.
  unfold ViewerDocument.buildProtocolJson. rewrite Hs.
  destruct src as [|c s]; [exfalso; eapply json_source_nonempty; eauto|].
  destruct (ViewerDocument.from_json JSON_parse protocol (c :: s)) as [r|] eqn:E;
    [|contradiction].
  unfold ViewerDocument.from_json, bind in E. rewrite Hp in E.
  destruct (get fp "assignments_table"); [|discriminate].
  destruct (ViewerDocument.attendees_data protocol fp); [|discriminate].
  injection E as <-. reflexivity.
Qed.

Lemma document_decisions_own : forall JSON_parse protocol,
  (ViewerDocument.json_source protocol = None
   \/ exists src, ViewerDocument.json_source protocol = Some src
                  /\ ViewerDocument.from_json JSON_parse protocol src = None) ->
  decisions (ViewerDocument.buildProtocolJson JSON_parse protocol)
  = map VString (pr_decisions protocol).
Proof.
  intros JSON_parse protocol H. unfold ViewerDocument.buildProtocolJson.
  destruct H as [H|[src [H E]]]; rewrite H; [reflexivity|].
  destruct src as [|c s]; [reflexivity|]. rewrite E. reflexivity.
Qed.

Lemma download_decisions_used : forall JSON_parse protocol src fp,
  pr_contentJson protocol = Some src -> src <> [] ->
  JSON_parse src = Some fp ->
  ViewerDownload.from_contentJson JSON_parse protocol src <> None ->
  decisions (ViewerDownload.buildProtocolJson JSON_parse protocol)
  = wrap_decisions (get_opt fp "decisions").
Proof.
  intros JSON_parse protocol src fp Hs Hne Hp Hok.
  unfold ViewerDownload.buildProtocolJson. rewrite Hs.
  destruct src as [|c s]; [contradiction|].
  destruct (ViewerDownload.from_contentJson JSON_parse protocol (c :: s)) as [r|] eqn:E;
    [|contradiction].
  unfold ViewerDownload.from_contentJson, bind in E. rewrite Hp in E.
  destruct (get fp "assignments_table"); [|discriminate].
  injection E as <-. reflexivity.
Qed.

Lemma download_decisions_own : forall JSON_parse protocol,
  (pr_contentJson protocol = None \/ pr_contentJson protocol = Some []
   \/ exists src, pr_contentJson protocol = Some src
                  /\ ViewerDownload.from_contentJson JSON_parse protocol src = None) ->
  decisions (ViewerDownload.buildProtocolJson JSON_parse protocol)
  = map VString (pr_decisions protocol).
Proof.
  intros JSON_parse protocol H. unfold ViewerDownload.buildProtocolJson.
  destruct H as [H|[H|[src [H E]]]]; rewrite H; try reflexivity.
  destruct src as [|c s]; [reflexivity|]. rewrite E. reflexivity.
Qed.

Lemma wrap_decisions_cases : forall x,
  (forall items, x = VArray items -> wrap_decisions x = items)
  /\ ((forall items, x <> VArray items) -> truthy x = true -> wrap_decisions x = [x])
  /\ ((forall items, x <> VArray items) -> truthy x = false ->
      wrap_decisions x = [VString ND]).
Proof.
  intro x. split; [|split].
  - intros items ->. reflexivity.
  - intros H T. destruct x; try (exfalso; eapply H; reflexivity);
      unfold wrap_decisions, or_else; rewrite T; reflexivity.
  - intros H T. destruct x; try (exfalso; eapply H; reflexivity);
      unfold wrap_decisions, or_else; rewrite T; reflexivity.
Qed.

Lemma wrap_decisions_empty : forall x, wrap_decisions x = [] <-> x = VArray [].
Proof.
  intro x. split.
  - destruct x; simpl; try discriminate. intros ->. reflexivity.
  - intros ->. reflexivity.
Qed.

Lemma map_VString_empty : forall l : list jsstring, map VString l = [] <-> l = [].
Proof. destruct l; simpl; split; congruence. Qed.

(** C5, as the code has it.  In both versions of the viewer, when the
    text of the payload is parsed and the [try] block ends without an
    exception, the decisions of the model are those of the payload: the
    array itself when they are an array (so the empty list for an empty
    array), the one-element list of the value when it is another truthy
    value, and the one-element list of the placeholder when it is
    missing or falsy.  Otherwise they are the decisions of the protocol
    itself.  So the list is empty exactly when the payload that is used
    carries an empty array, or no payload is used and the protocol has
    no decisions.  Scenario C holds. *)
Theorem C5_decisions_wrapped :
  forall (JSON_parse : jsstring -> option value) (protocol : Protocol),
    (forall src fp, download_uses JSON_parse protocol src fp ->
       (forall items, get_opt fp "decisions" = VArray items ->
          decisions (ViewerDownload.buildProtocolJson JSON_parse protocol) = items)
       /\ ((forall items, get_opt fp "decisions" <> VArray items) ->
           truthy (get_opt fp "decisions") = true ->
           decisions (ViewerDownload.buildProtocolJson JSON_parse protocol)
           = [get_opt fp "decisions"])
       /\ ((forall items, get_opt fp "decisions" <> VArray items) ->
           truthy (get_opt fp "decisions") = false ->
           decisions (ViewerDownload.buildProtocolJson JSON_parse protocol)
           = [VString ND]))
    /\ (forall src fp, document_uses JSON_parse protocol src fp ->
          (forall items, get_opt fp "decisions" = VArray items ->
             decisions (ViewerDocument.buildProtocolJson JSON_parse protocol) = items)
          /\ ((forall items, get_opt fp "decisions" <> VArray items) ->
              truthy (get_opt fp "decisions") = true ->
              decisions (ViewerDocument.buildProtocolJson JSON_parse protocol)
              = [get_opt fp "decisions"])
          /\ ((forall items, get_opt fp "decisions" <> VArray items) ->
              truthy (get_opt fp "decisions") = false ->
              decisions (ViewerDocument.buildProtocolJson JSON_parse protocol)
              = [VString ND]))
    /\ ((forall src fp, ~ download_uses JSON_parse protocol src fp) ->
        decisions (ViewerDownload.buildProtocolJson JSON_parse protocol)
        = map VString (pr_decisions protocol))
    /\ ((forall src fp, ~ document_uses JSON_parse protocol src fp) ->
        decisions (ViewerDocument.buildProtocolJson JSON_parse protocol)
        = map VString (pr_decisions protocol))
    /\ (decisions (ViewerDownload.buildProtocolJson JSON_parse protocol) = [] <->
        (exists src fp, download_uses JSON_parse protocol src fp
                        /\ get_opt fp "decisions" = VArray [])
        \/ ((forall src fp, ~ download_uses JSON_parse protocol src fp)
            /\ pr_decisions protocol = []))
    /\ (decisions (ViewerDocument.buildProtocolJson JSON_parse protocol) = [] <->
        (exists src fp, document_uses JSON_parse protocol src fp
                        /\ get_opt fp "decisions" = VArray [])
        \/ ((forall src fp, ~ document_uses JSON_parse protocol src fp)
            /\ pr_decisions protocol = []))
    /\ (let payload := VObject [(js "decisions", text "Approved budget")] in
        let p := protocol_ex (Some (js "{}")) [] in
        decisions (ViewerDownload.buildProtocolJson (parse_as payload) p)
          = [text "Approved budget"]
        /\ decisions (ViewerDocument.buildProtocolJson (parse_as payload) p)
          = [text "Approved budget"]).
Proof.
  intros JSON_parse protocol.
  set (download := decisions (ViewerDownload.buildProtocolJson JSON_parse protocol)).
  set (document := decisions (ViewerDocument.buildProtocolJson JSON_parse protocol)).
  set (used_download := download_uses JSON_parse protocol).
  set (used_document := document_uses JSON_parse protocol).
  assert (Ddl : forall src fp, used_download src fp ->
                download = wrap_decisions (get_opt fp "decisions")).
  { intros src fp (H1 & H2 & H3 & H4). eapply download_decisions_used; eauto. }
  assert (Ddc : forall src fp, used_document src fp ->
                document = wrap_decisions (get_opt fp "decisions")).
  { intros src fp (H1 & H2 & H3). eapply document_decisions_used; eauto. }
  assert (Odl : (forall src fp, ~ used_download src fp) ->
                download = map VString (pr_decisions protocol)).
  { intros H. apply download_decisions_own.
    destruct (pr_contentJson protocol) as [[|c s]|] eqn:E; auto.
    right. right. exists (c :: s). split; [reflexivity|].
    destruct (ViewerDownload.from_contentJson JSON_parse protocol (c :: s)) eqn:F;
      [|reflexivity].
    exfalso. pose proof F as F'.
    unfold ViewerDownload.from_contentJson, bind in F'.
    destruct (JSON_parse (c :: s)) as [fp|] eqn:P; [|discriminate].
    apply (H (c :: s) fp). unfold used_download, download_uses.
    repeat split; first [assumption | discriminate | congruence]. }
  assert (Odc : (forall src fp, ~ used_document src fp) ->
                document = map VString (pr_decisions protocol)).
  { intros H. apply document_decisions_own.
    destruct (ViewerDocument.json_source protocol) as [src|] eqn:E; auto.
    right. exists src. split; [reflexivity|].
    destruct (ViewerDocument.from_json JSON_parse protocol src) eqn:F; [|reflexivity].
    exfalso. pose proof F as F'.
    unfold ViewerDocument.from_json, bind in F'.
    destruct (JSON_parse src) as [fp|] eqn:P; [|discriminate].
    apply (H src fp). unfold used_document, document_uses.
    repeat split; first [assumption | discriminate | congruence]. }
  assert (Xdl : (exists src fp, used_download src fp)
                \/ (forall src fp, ~ used_download src fp)).
  { destruct (pr_contentJson protocol) as [[|c s]|] eqn:E.
    - right. intros src fp (H1 & H2 & _). congruence.
    - destruct (JSON_parse (c :: s)) as [fp|] eqn:P.
      + destruct (ViewerDownload.from_contentJson JSON_parse protocol (c :: s)) eqn:F.
        * left. exists (c :: s), fp. unfold used_download, download_uses.
          repeat split; first [assumption | discriminate | congruence].
        * right. intros src fp' (H1 & _ & _ & H4). congruence.
      + right. intros src fp' (H1 & _ & H3 & _). congruence.
    - right. intros src fp (H1 & _). congruence. }
  assert (Xdc : (exists src fp, used_document src fp)
                \/ (forall src fp, ~ used_document src fp)).
  { destruct (ViewerDocument.json_source protocol) as [src|] eqn:E.
    - destruct (JSON_parse src) as [fp|] eqn:P.
      + destruct (ViewerDocument.from_json JSON_parse protocol src) eqn:F.
        * left. exists src, fp. unfold used_document, document_uses.
          repeat split; first [assumption | discriminate | congruence].
        * right. intros src' fp' (H1 & _ & H4). congruence.
      + right. intros src' fp' (H1 & H3 & _). congruence.
    - right. intros src fp (H1 & _). congruence. }
  split; [|split; [|split; [|split; [|split; [|split]]]]].
  - intros src fp U. rewrite (Ddl src fp U). apply wrap_decisions_cases.
  - intros src fp U. rewrite (Ddc src fp U). apply wrap_decisions_cases.
  - exact Odl.
  - exact Odc.
  - split.
    + intros E. destruct Xdl as [[src [fp U]]|N].
      * left. exists src, fp. split; [exact U|].
        apply wrap_decisions_empty. rewrite <- (Ddl src fp U). exact E.
      * right. split; [exact N|]. apply map_VString_empty.
        rewrite <- (Odl N). exact E.
    + intros [[src [fp [U E]]]|[N E]].
      * rewrite (Ddl src fp U), E. reflexivity.
      * rewrite (Odl N), E. reflexivity.
  - split.
    + intros E. destruct Xdc as [[src [fp U]]|N].
      * left. exists src, fp. split; [exact U|].
        apply wrap_decisions_empty. rewrite <- (Ddc src fp U). exact E.
      * right. split; [exact N|]. apply map_VString_empty.
        rewrite <- (Odc N). exact E.
    + intros [[src [fp [U E]]]|[N E]].
      * rewrite (Ddc src fp U), E. reflexivity.
      * rewrite (Odc N), E. reflexivity.
  - vm_compute. split; reflexivity.
Qed.

(** The text [{"decisions":null}] and what it is parsed to. *)
Definition null_decisions_text : jsstring :=
  [123; 34]%N ++ js "decisions" ++ [34; 58]%N ++ js "null" ++ [125%N].
Definition null_decisions : value := VObject [(js "decisions", VNull)].

Lemma C5_witness :
  let parse := parse_text null_decisions_text null_decisions in
  let p := protocol_ex (Some null_decisions_text) [js "d"] in
  decisions (ViewerDownload.buildProtocolJson parse p) = [VString ND]
  /\ decisions (ViewerDocument.buildProtocolJson parse p) = [VString ND].
Proof.
  intros parse p.
  destruct (C5_decisions_wrapped parse p) as [H1 [H2 _]].
  split.
  - apply (H1 null_decisions_text null_decisions).
    + unfold download_uses. vm_compute. repeat split; discriminate.
    + intros items. vm_compute. discriminate.
    + reflexivity.
  - apply (H2 null_decisions_text null_decisions).
    + unfold document_uses. vm_compute. repeat split; discriminate.
    + intros items. vm_compute. discriminate.
    + reflexivity.
Defined.

(* ================================================================= *)
(** ** The date renderer *)

Definition two_digits (s : jsstring) : bool :=
  match s with
  | [a; b] => is_digit a && is_digit b
  | _ => false
  end.

Definition four_digits (s : jsstring) : bool :=
  match s with
  | [a; b; c; d] => is_digit a && is_digit b && is_digit c && is_digit d
  | _ => false
  end.

Lemma padStart2_two_digits : forall n,
  n < 100 -> two_digits (padStart2 (String_of_N (N.of_nat n))) = true.
Proof.
  intros n H.
  assert (A : forallb (fun k => two_digits (padStart2 (String_of_N (N.of_nat k))))
                      (seq 0 100) = true) by (vm_compute; reflexivity).
  rewrite forallb_forall in A. apply A. apply in_seq. lia.
Qed.

Lemma year_four_digits : forall y,
  (1000 <= y <= 9999)%Z -> four_digits (String_of_Z y) = true.
Proof.
  intros y H.
  assert (A : forallb (fun k => four_digits (String_of_Z (Z.of_nat k)))
                      (seq (Z.to_nat 1000) (Z.to_nat 9000)) = true)
    by (vm_compute; reflexivity).
  rewrite forallb_forall in A.
  replace y with (Z.of_nat (Z.to_nat y)) by lia.
  apply A. apply in_seq. lia.
Qed.

(** A text that is no date is rendered as it is, not as the
    placeholder. *)
Lemma C7_unparsable_is_returned :
  formatDateForProtocol iso_date_fields (text "abc") = text "abc"
  /\ text "abc" <> VString ND
  /\ formatDateForProtocol iso_date_fields (text "23 ноября") = text "23 ноября".
Proof.
  split; [vm_compute; reflexivity|]. split; [|vm_compute; reflexivity].
  intro E. vm_compute in E. discriminate.
Qed.

(** C7, as the code has it.  An absent or empty value and the placeholder
    itself render as the placeholder; a value that is a valid date renders
    as two digits of the day, a dot, two digits of the month, a dot and
    the year in decimal (four digits for the years 1000 to 9999); a value
    that is no valid date is returned unchanged. *)
Theorem C7_date_rendering :
  forall (fields : DateFields) (dateStr : value),
    (truthy dateStr = false \/ is_ND dateStr = true ->
       formatDateForProtocol fields dateStr = VString ND)
    /\ (forall y m d,
          truthy dateStr = true -> is_ND dateStr = false ->
          fields dateStr = Some (y, m, d) -> m <= 11 -> 1 <= d <= 31 ->
          exists dd mm,
            formatDateForProtocol fields dateStr
              = VString (dd ++ [46%N] ++ mm ++ [46%N] ++ String_of_Z y)
            /\ dd = padStart2 (String_of_N (N.of_nat d))
            /\ mm = padStart2 (String_of_N (N.of_nat (m + 1)))
            /\ two_digits dd = true /\ two_digits mm = true
            /\ ((1000 <= y <= 9999)%Z -> four_digits (String_of_Z y) = true))
    /\ (truthy dateStr = true -> is_ND dateStr = false ->
        fields dateStr = None ->
        formatDateForProtocol fields dateStr = dateStr).
Proof.
  intros fields dateStr. unfold formatDateForProtocol. split; [|split].
  - intros [H|H]; rewrite H; simpl; [reflexivity|].
    rewrite orb_true_r. reflexivity.
  - intros y m d Ht Hn Hf Hm Hd. rewrite Ht, Hn, Hf. simpl.
    eexists. eexists. split; [reflexivity|].
    split; [reflexivity|]. split; [reflexivity|].
    split; [apply padStart2_two_digits; lia|].
    split; [apply padStart2_two_digits; lia|].
    apply year_four_digits.
  - intros Ht Hn Hf. rewrite Ht, Hn, Hf. reflexivity.
Qed.

Lemma C7_witness :
  exists dd mm,
    formatDateForProtocol iso_date_fields (text "2025-11-23")
      = VString (dd ++ [46%N] ++ mm ++ [46%N] ++ String_of_Z 2025)
    /\ dd = padStart2 (String_of_N (N.of_nat 23))
    /\ mm = padStart2 (String_of_N (N.of_nat (10 + 1)))
    /\ two_digits dd = true /\ two_digits mm = true
    /\ ((1000 <= 2025 <= 9999)%Z -> four_digits (String_of_Z 2025) = true).
Proof.
  destruct (C7_date_rendering iso_date_fields (text "2025-11-23")) as [_ [H _]].
  apply H; try (vm_compute; reflexivity); lia.
Defined.

(* ================================================================= *)
(** ** The protocol number *)

Definition title_prefix : jsstring := js "ПРОТОКОЛ № ".

Definition state_ex (number : jsstring) : ViewerDocument.ViewerState :=
  {| ViewerDocument.editedSummary := text "s";
     ViewerDocument.editedDecisions := js "d";
     ViewerDocument.editedMeetingTitle := text "t";
     ViewerDocument.editedAttendees := [];
     ViewerDocument.editedAssignments := [];
     ViewerDocument.editedDate := text "23.11.2025";
     ViewerDocument.editedCity := text "г. Москва";
     ViewerDocument.protocolNumber := number |}.

Definition payload_77 : value :=
  VObject [(js "protocol_number", VNumber 77); (js "decisions", text "d")].

(** The second version of the viewer keeps the number of an earlier
    lookup: with the number 4 in its state and nine protocols in the store
    at the time of the generation, the title carries 4. *)
Lemma C4_number_is_kept :
  let r := ViewerDocument.generateDocument (parse_as payload_77) iso_date_fields
             (protocol_ex (Some (js "{}")) []) (state_ex (js "4")) (Some 9) in
  option_map (fun dn => ViewerDocument.title_of (fst dn)) (snd r)
    = Some (Some (text "ПРОТОКОЛ № 4"))
  /\ text "ПРОТОКОЛ № 4" <> VString (title_prefix ++ ViewerDownload.number_from (Some 9)).
Proof.
  split; [vm_compute; reflexivity|]. intro E. vm_compute in E. discriminate.
Qed.

Lemma download_title : forall JSON_parse fields protocol lookup doc,
  ViewerDownload.handleDownload JSON_parse fields protocol lookup = Some doc ->
  ViewerDownload.title_of doc
    = Some (VString (title_prefix ++ ViewerDownload.number_from lookup)).
Proof.
  intros JSON_parse fields protocol lookup doc H.
  unfold ViewerDownload.handleDownload, bind in H.
  repeat match type of H with
         | match ?x with Some _ => _ | None => None end = Some _ =>
             let E := fresh "E" in destruct x eqn:E; [|discriminate]
         end.
  injection H as <-. simpl.
  unfold ViewerDownload.template, bind in *. simpl in *.
  match goal with
  | E : Some _ = Some ?t |- Some (VString ?t) = _ => injection E as <-
  end.
  rewrite app_nil_r. reflexivity.
Qed.

Lemma document_title : forall JSON_parse fields protocol st lookup doc n,
  snd (ViewerDocument.generateDocument JSON_parse fields protocol st lookup)
    = Some (doc, n) ->
  ViewerDocument.title_of doc
    = Some (VString (title_prefix
                       ++ ViewerDocument.protocolNumber
                            (fst (ViewerDocument.generateDocument
                                    JSON_parse fields protocol st lookup))))
  /\ n = VString (ViewerDocument.protocolNumber
                    (fst (ViewerDocument.generateDocument
                            JSON_parse fields protocol st lookup))).
Proof.
  intros JSON_parse fields protocol st lookup doc n H.
  unfold ViewerDocument.generateDocument in *. simpl in *.
  unfold bind in H.
  destruct (ViewerDocument.apply_edits st _) as [parsed|] eqn:Ea; [|discriminate].
  assert (Hn : protocol_number (metadata parsed)
               = VString (if str_eqb (ViewerDocument.protocolNumber st) ND
                          then match lookup with
                               | Some k => ViewerDocument.next_number k
                               | None => ViewerDocument.protocolNumber st
                               end
                          else ViewerDocument.protocolNumber st)).
  { unfold ViewerDocument.apply_edits, bind in Ea.
    repeat match type of Ea with
           | match ?x with Some _ => _ | None => None end = Some _ =>
               destruct x; [|discriminate]
           end.
    injection Ea as <-. reflexivity. }
  repeat match type of H with
         | match ?x with Some _ => _ | None => None end = Some _ =>
             let E := fresh "E" in destruct x eqn:E; [|discriminate]
         end.
  injection H as <- <-. simpl. split; [|exact Hn].
  unfold ViewerDocument.template, ViewerDownload.template, bind in *.
  rewrite Hn in *. simpl in *.
  match goal with
  | E : Some _ = Some ?t |- Some (VString ?t) = _ => injection E as <-
  end.
  rewrite app_nil_r. reflexivity.
Qed.

(** *** A document is produced *)

Lemma map_opt_total : forall (A B : Type) (f : A -> option B) l,
  (forall x, In x l -> f x <> None) -> ViewerDownload.map_opt f l <> None.
Proof.
  intros A B f l. induction l as [|x l IH]; intros H; simpl; [discriminate|].
  unfold bind. assert (f x <> None) by (apply H; left; reflexivity).
  destruct (f x); [|contradiction].
  assert (ViewerDownload.map_opt f l <> None)
    by (apply IH; intros y Hy; apply H; right; exact Hy).
  destruct (ViewerDownload.map_opt f l); [discriminate | contradiction].
Qed.

Lemma formatDate_of_string : forall fields s,
  exists s', formatDateForProtocol fields (VString s) = VString s'.
Proof.
  intros fields s. unfold formatDateForProtocol.
  destruct (negb (truthy (VString s)) || is_ND (VString s)); [eexists; reflexivity|].
  destruct (fields (VString s)) as [[[y m] d]|]; eexists; reflexivity.
Qed.

Definition is_string (v : value) : bool :=
  match v with VString _ => true | _ => false end.

Lemma assoc_in : forall k fields v,
  assoc k fields = Some v -> In v (map snd fields).
Proof.
  intros k fields v. induction fields as [|[k' v'] fields IH]; simpl; [discriminate|].
  destruct (str_eqb k k'); [intros H; injection H as <-; left; reflexivity|].
  intros H. right. apply IH. exact H.
Qed.

Lemma get_opt_plain : forall fields k,
  forallb is_string (map snd fields) = true ->
  get_opt (VObject fields) k = VUndefined
  \/ exists s, get_opt (VObject fields) k = VString s.
Proof.
  intros fields k H. unfold get_opt, get.
  destruct (assoc (js k) fields) as [v|] eqn:E; [|left; reflexivity].
  apply assoc_in in E. rewrite forallb_forall in H. specialize (H v E).
  destruct v; try discriminate. right. eexists. reflexivity.
Qed.

Lemma plain_row_total : forall fields,
  forallb is_string (map snd fields) = true ->
  ViewerDownload.attendee_row (VObject fields) <> None.
Proof.
  intros fields H. unfold ViewerDownload.attendee_row, bind.
  change (get (VObject fields) "organization")
    with (Some (get_opt (VObject fields) "organization")).
  destruct (@get_opt_plain fields "organization"%string H) as [->|[s ->]];
    destruct (@get_opt_plain fields "position"%string H) as [->|[s' ->]]; simpl;
    repeat match goal with
           | |- context [if ?c then _ else _] => destruct c; simpl
           end; discriminate.
Qed.

Lemma pdata_plain : forall p,
  exists fields, pdata_value p = VObject fields
                 /\ forallb is_string (map snd fields) = true.
Proof.
  intros p. unfold pdata_value. eexists. split; [reflexivity|].
  destruct (pd_organization p), (pd_role p), (pd_position p); reflexivity.
Qed.

(** Without a payload the first viewer always produces its document. *)
Lemma download_without_payload : forall JSON_parse fields protocol lookup,
  pr_contentJson protocol = None ->
  exists doc,
    ViewerDownload.handleDownload JSON_parse fields protocol lookup = Some doc.
Proof.
  intros JSON_parse fields protocol lookup H.
  unfold ViewerDownload.handleDownload, ViewerDownload.buildProtocolJson.
  rewrite H. unfold bind.
  assert (Ha : ViewerDownload.attendees_rows
                 (attendees_table
                    (set_protocol_number (ViewerDownload.fallback protocol)
                       (VString (ViewerDownload.number_from lookup)))) <> None).
  { simpl. unfold ViewerDownload.attendees_rows.
    destruct (pr_participantsData protocol) as [ps|]; simpl.
    - apply map_opt_total. intros x Hx. apply in_map_iff in Hx.
      destruct Hx as [p [<- _]]. destruct (pdata_plain p) as [f [-> Hf]].
      apply plain_row_total. exact Hf.
    - apply map_opt_total. intros x Hx. apply in_map_iff in Hx.
      destruct Hx as [p [<- _]]. apply plain_row_total. reflexivity. }
  destruct (ViewerDownload.attendees_rows _) as [rows|]; [|contradiction].
  simpl.
  destruct (formatDate_of_string fields (str_or (pr_date protocol) ND)) as [s' ->].
  simpl. eexists. reflexivity.
Qed.

(** C4, as the code has it.  The number in the title never comes from the
    payload.  [handleDownload] looks the count of the stored protocols up
    immediately before it assembles the document and uses the count plus
    one, or the placeholder when the lookup fails; without a payload it
    always produces the document.  [generateDocument] uses
    the number the component holds, which the lookup made on
    initialisation gave, and makes a lookup of its own only while that
    number is still the placeholder. *)
Theorem C4_protocol_number_from_store :
  forall (JSON_parse : jsstring -> option value) (fields : DateFields)
         (protocol : Protocol) (lookup : option nat),
    (forall doc,
        ViewerDownload.handleDownload JSON_parse fields protocol lookup = Some doc ->
        ViewerDownload.title_of doc
          = Some (VString (title_prefix ++ ViewerDownload.number_from lookup)))
    /\ (pr_contentJson protocol = None ->
        exists doc,
          ViewerDownload.handleDownload JSON_parse fields protocol lookup = Some doc)
    /\ (forall n, ViewerDownload.number_from (Some n) = String_of_N (N.of_nat (n + 1)))
    /\ ViewerDownload.number_from None = ND
    /\ (forall st0,
          ViewerDocument.initialise JSON_parse fields protocol lookup = Some st0 ->
          ViewerDocument.protocolNumber st0 = ViewerDownload.number_from lookup)
    /\ (forall st,
          let r := ViewerDocument.generateDocument JSON_parse fields protocol st lookup in
          let number :=
            if str_eqb (ViewerDocument.protocolNumber st) ND
            then ViewerDownload.number_from lookup
            else ViewerDocument.protocolNumber st in
          ViewerDocument.protocolNumber (fst r) = number
          /\ forall doc n,
               snd r = Some (doc, n) ->
               ViewerDocument.title_of doc = Some (VString (title_prefix ++ number))
               /\ n = VString number).
Proof.
  intros JSON_parse fields protocol lookup.
  split; [|split; [|split; [|split; [|split]]]].
  - intros doc H. eapply download_title. exact H.
  - apply download_without_payload.
  - reflexivity.
  - reflexivity.
  - intros st0 H. unfold ViewerDocument.initialise, bind in H.
    match type of H with
    | match ?x with Some _ => _ | None => None end = Some _ =>
        destruct x; [|discriminate]
    end.
    injection H as <-. simpl. destruct lookup; reflexivity.
  - intros st r number.
    assert (Hn : ViewerDocument.protocolNumber (fst r) = number).
    { subst r number. unfold ViewerDocument.generateDocument. simpl.
      destruct (str_eqb (ViewerDocument.protocolNumber st) ND) eqn:E; [|reflexivity].
      destruct lookup; [reflexivity|]. simpl. apply str_eqb_eq in E. exact E. }
    split; [exact Hn|].
    intros doc n H. rewrite <- Hn. subst r.
    eapply document_title. exact H.
Qed.

(** A payload that carries a protocol number of its own: the title has
    the count of the store plus one. *)
Lemma C4_witness :
  (exists doc,
      ViewerDownload.handleDownload (parse_as payload_77) iso_date_fields
        (protocol_ex (Some (js "{}")) []) (Some 3) = Some doc
      /\ ViewerDownload.title_of doc = Some (text "ПРОТОКОЛ № 4"))
  /\ (exists doc n,
         snd (ViewerDocument.generateDocument (parse_as payload_77) iso_date_fields
                (protocol_ex (Some (js "{}")) []) (state_ex ND) (Some 3))
           = Some (doc, n)
         /\ ViewerDocument.title_of doc = Some (text "ПРОТОКОЛ № 4")).
Proof.
  destruct (C4_protocol_number_from_store (parse_as payload_77) iso_date_fields
              (protocol_ex (Some (js "{}")) []) (Some 3)) as [H1 [_ [_ [_ [_ H2]]]]].
  split.
  - destruct (ViewerDownload.handleDownload (parse_as payload_77) iso_date_fields
                (protocol_ex (Some (js "{}")) []) (Some 3)) as [doc|] eqn:E.
    + exists doc. split; [reflexivity|]. rewrite (H1 doc eq_refl).
      vm_compute. reflexivity.
    + vm_compute in E. discriminate.
  - specialize (H2 (state_ex ND)). cbv zeta in H2. destruct H2 as [_ H2].
    destruct (snd (ViewerDocument.generateDocument (parse_as payload_77) iso_date_fields
                (protocol_ex (Some (js "{}")) []) (state_ex ND) (Some 3)))
      as [[doc n]|] eqn:E.
    + exists doc, n. split; [reflexivity|].
      destruct (H2 doc n eq_refl) as [Ht _]. rewrite Ht. vm_compute. reflexivity.
    + vm_compute in E. discriminate.
Defined.

(* ================================================================= *)
(** ** The matcher *)

(** [st'] is one of the ways [r] matches at [st]. *)
Definition matches (r : regex) (st st' : mstate) : Prop := In st' (rmatch r st).

(** What a match consumes: [st'] is [st] advanced over a piece [w] of the
    input. *)
Definition advanced (st st' : mstate) (w : jsstring) : Prop :=
  rest st = w ++ rest st' /\ pos st' = pos st + List.length w.

Lemma matches_seq : forall a b st st',
  matches (RSeq a b) st st' <-> exists mid, matches a st mid /\ matches b mid st'.
Proof.
  intros. unfold matches. simpl. rewrite in_flat_map. reflexivity.
Qed.

Lemma matches_alt : forall a b st st',
  matches (RAlt a b) st st' <-> matches a st st' \/ matches b st st'.
Proof. intros. unfold matches. simpl. apply in_app_iff. Qed.

Lemma matches_empty : forall st st', matches REmpty st st' <-> st' = st.
Proof.
  intros. unfold matches. simpl. split.
  - intros [H|[]]. symmetry. exact H.
  - intros ->. left. reflexivity.
Qed.

Lemma matches_char : forall p st st',
  matches (RChar p) st st' <->
  exists c tl, rest st = c :: tl /\ p c = true
               /\ st' = MState (S (pos st)) tl (caps st).
Proof.
  intros p st st'. unfold matches. simpl. split.
  - destruct (rest st) as [|c tl]; [intros []|].
    destruct (p c) eqn:E; [|intros []].
    intros [H|[]]. exists c, tl. repeat split; auto.
  - intros [c [tl [Hr [Hp ->]]]]. rewrite Hr, Hp. left. reflexivity.
Qed.

Lemma matches_group : forall n r st st',
  matches (RGroup n r) st st' <->
  exists st1, matches r st st1
              /\ st' = MState (pos st1) (rest st1)
                              ((n, firstn (pos st1 - pos st) (rest st)) :: caps st1).
Proof.
  intros. unfold matches. simpl. rewrite in_map_iff. split.
  - intros [st1 [E H]]. exists st1. split; [exact H | symmetry; exact E].
  - intros [st1 [H E]]. exists st1. split; [symmetry; exact E | exact H].
Qed.

Lemma matches_bol : forall st st', matches RBol st st' <-> pos st = 0 /\ st' = st.
Proof.
  intros. unfold matches. simpl. destruct (Nat.eqb_spec (pos st) 0); split.
  - intros [H|[]]. split; [assumption | symmetry; exact H].
  - intros [_ ->]. left. reflexivity.
  - intros [].
  - intros [H _]. contradiction.
Qed.

Lemma matches_eol : forall st st', matches REol st st' <-> rest st = [] /\ st' = st.
Proof.
  intros. unfold matches. simpl. destruct (rest st); split.
  - intros [H|[]]. split; [reflexivity | symmetry; exact H].
  - intros [_ ->]. left. reflexivity.
  - intros [].
  - intros [H _]. discriminate.
Qed.

(** The star of a character class: any number of characters of the class,
    the input allowing. *)
Lemma star_char_sound : forall p g fuel st st',
  In st' (star_loop (rmatch (RChar p)) g fuel st) ->
  exists w, advanced st st' w /\ forallb p w = true /\ caps st' = caps st.
Proof.
  intros p g fuel. induction fuel as [|fuel IH]; intros st st' H.
  - simpl in H. destruct H as [<-|[]]. exists []. unfold advanced.
    repeat split; auto.
  - simpl in H.
    assert (Hmore : In st' (flat_map
               (fun st1 => if Nat.ltb (pos st) (pos st1)
                           then star_loop (rmatch (RChar p)) g fuel st1 else [])
               (rmatch (RChar p) st)) \/ st' = st).
    { destruct g.
      - apply in_app_iff in H. destruct H as [H|[H|[]]]; auto.
      - destruct H as [H|H]; auto. }
    destruct Hmore as [Hmore | ->].
    + apply in_flat_map in Hmore. destruct Hmore as [st1 [H1 H2]].
      apply matches_char in H1. destruct H1 as [c [tl [Hr [Hp ->]]]].
      simpl in H2. destruct (Nat.ltb_spec (pos st) (S (pos st))); [|lia].
      apply IH in H2. destruct H2 as [w [[Hw1 Hw2] [Hw3 Hw4]]]. simpl in *.
      exists (c :: w). unfold advanced. simpl. rewrite Hr, Hw1, Hp, Hw3, Hw2, Hw4.
      repeat split; auto; try lia.
    + exists []. unfold advanced. repeat split; auto.
Qed.

Lemma star_char_complete : forall p g w fuel st r,
  rest st = w ++ r -> forallb p w = true -> List.length w <= fuel ->
  In (MState (pos st + List.length w) r (caps st))
     (star_loop (rmatch (RChar p)) g fuel st).
Proof.
  intros p g w. induction w as [|c w IH]; intros fuel st r Hr Hp Hf.
  - simpl in *. replace (MState (pos st + 0) r (caps st)) with st
      by (destruct st; simpl in *; subst; f_equal; lia).
    destruct fuel; simpl; [left; reflexivity|].
    destruct g; [apply in_app_iff; right|]; left; reflexivity.
  - simpl in Hp. apply andb_true_iff in Hp. destruct Hp as [Hc Hp].
    destruct fuel as [|fuel]; [simpl in Hf; lia|]. simpl in Hf.
    assert (Hmore : In (MState (pos st + List.length (c :: w)) r (caps st))
              (flat_map
                 (fun st1 => if Nat.ltb (pos st) (pos st1)
                             then star_loop (rmatch (RChar p)) g fuel st1 else [])
                 (rmatch (RChar p) st))).
    { apply in_flat_map. exists (MState (S (pos st)) (w ++ r) (caps st)). split.
      - apply matches_char. exists c, (w ++ r). repeat split; auto.
      - simpl. destruct (Nat.ltb_spec (pos st) (S (pos st))); [|lia].
        replace (pos st + S (List.length w)) with (S (pos st) + List.length w) by lia.
        apply (IH fuel (MState (S (pos st)) (w ++ r) (caps st)) r); auto. lia. }
    simpl. destruct g; [apply in_app_iff; left | right]; exact Hmore.
Qed.

Lemma matches_star_char : forall p g st st',
  matches (RStar g (RChar p)) st st' <->
  exists w, advanced st st' w /\ forallb p w = true /\ caps st' = caps st.
Proof.
  intros p g st st'. unfold matches. simpl. split.
  - apply star_char_sound.
  - intros [w [[H1 H2] [H3 H4]]].
    replace st' with (MState (pos st + List.length w) (rest st') (caps st))
      by (destruct st'; simpl in *; subst; reflexivity).
    apply star_char_complete; auto. rewrite H1, length_app. lia.
Qed.

Lemma matches_plus_char : forall p g st st',
  matches (rplus g (RChar p)) st st' <->
  exists w, advanced st st' w /\ forallb p w = true /\ w <> []
            /\ caps st' = caps st.
Proof.
  intros p g st st'. unfold rplus. rewrite matches_seq. split.
  - intros [mid [H1 H2]]. apply matches_char in H1.
    destruct H1 as [c [tl [Hr [Hp ->]]]].
    apply matches_star_char in H2. destruct H2 as [w [[Hw1 Hw2] [Hw3 Hw4]]].
    simpl in *. exists (c :: w). unfold advanced. simpl.
    rewrite Hr, Hw1, Hp, Hw3, Hw2, Hw4. repeat split; auto; try lia; discriminate.
  - intros [w [[H1 H2] [H3 [H4 H5]]]]. destruct w as [|c w]; [contradiction|].
    simpl in H3. apply andb_true_iff in H3. destruct H3 as [Hc Hw].
    exists (MState (S (pos st)) (w ++ rest st') (caps st)). split.
    + apply matches_char. exists c, (w ++ rest st'). repeat split; auto.
    + apply matches_star_char. exists w. unfold advanced. simpl.
      simpl in H2. repeat split; auto; try lia.
Qed.

Lemma advanced_refl : forall st, advanced st st [].
Proof. intro st. unfold advanced. simpl. split; [reflexivity | lia]. Qed.

Lemma advanced_trans : forall st1 st2 st3 w1 w2,
  advanced st1 st2 w1 -> advanced st2 st3 w2 -> advanced st1 st3 (w1 ++ w2).
Proof.
  unfold advanced. intros st1 st2 st3 w1 w2 [H1 H2] [H3 H4].
  rewrite H1, H3, H4, H2, length_app, app_assoc. split; [reflexivity | lia].
Qed.

Lemma star_loop_advanced : forall step g,
  (forall st st', In st' (step st) -> exists w, advanced st st' w) ->
  forall fuel st st', In st' (star_loop step g fuel st) -> exists w, advanced st st' w.
Proof.
  intros step g Hstep fuel. induction fuel as [|fuel IH]; intros st st' H.
  - simpl in H. destruct H as [<-|[]]. exists []. apply advanced_refl.
  - simpl in H.
    assert (Hmore : In st' (flat_map
               (fun st1 => if Nat.ltb (pos st) (pos st1)
                           then star_loop step g fuel st1 else [])
               (step st)) \/ st' = st).
    { destruct g.
      - apply in_app_iff in H. destruct H as [H|[H|[]]]; auto.
      - destruct H as [H|H]; auto. }
    destruct Hmore as [Hmore | ->]; [|exists []; apply advanced_refl].
    apply in_flat_map in Hmore. destruct Hmore as [st1 [H1 H2]].
    destruct (Nat.ltb (pos st) (pos st1)); [|destruct H2].
    apply Hstep in H1. apply IH in H2.
    destruct H1 as [w1 H1]. destruct H2 as [w2 H2].
    exists (w1 ++ w2). eapply advanced_trans; eauto.
Qed.

(** Every match consumes a piece of the input. *)
Lemma matches_advanced : forall r st st',
  matches r st st' -> exists w, advanced st st' w.
Proof.
  induction r as [|p|a IHa b IHb|a IHa b IHb|g r IH|n r IH| |]; intros st st' H.
  - apply matches_empty in H. subst. exists []. apply advanced_refl.
  - apply matches_char in H. destruct H as [c [tl [Hr [_ ->]]]].
    exists [c]. unfold advanced. simpl. split; [exact Hr | lia].
  - apply matches_seq in H. destruct H as [mid [H1 H2]].
    apply IHa in H1. apply IHb in H2. destruct H1 as [w1 H1]. destruct H2 as [w2 H2].
    exists (w1 ++ w2). eapply advanced_trans; eauto.
  - apply matches_alt in H. destruct H as [H|H]; [apply IHa | apply IHb]; exact H.
  - unfold matches in H. simpl in H. eapply star_loop_advanced; [|exact H].
    intros s s' Hs. apply IH. exact Hs.
  - apply matches_group in H. destruct H as [st1 [H ->]].
    apply IH in H. destruct H as [w H]. exists w. exact H.
  - apply matches_bol in H. destruct H as [_ ->]. exists []. apply advanced_refl.
  - apply matches_eol in H. destruct H as [_ ->]. exists []. apply advanced_refl.
Qed.

(** *** [exec] *)

Lemma match_at_spec : forall r input i m,
  match_at r input i = Some m ->
  m_index m = i
  /\ exists st', matches r (MState i (skipn i input) []) st'
                 /\ m_stop m = pos st' /\ m_caps m = caps st'.
Proof.
  intros r input i m H. unfold match_at in H.
  destruct (rmatch r (MState i (skipn i input) [])) as [|st' l] eqn:E; [discriminate|].
  injection H as <-. simpl. split; [reflexivity|].
  exists st'. unfold matches. rewrite E. repeat split. left. reflexivity.
Qed.

Lemma match_at_none : forall r input i,
  match_at r input i = None <->
  forall st', ~ matches r (MState i (skipn i input) []) st'.
Proof.
  intros r input i. unfold match_at, matches.
  destruct (rmatch r (MState i (skipn i input) [])) as [|st' l]; split.
  - intros _ st' [].
  - reflexivity.
  - discriminate.
  - intro H. exfalso. apply (H st'). left. reflexivity.
Qed.

Lemma match_at_bounds : forall r input i m,
  match_at r input i = Some m -> i <= List.length input ->
  m_index m = i /\ i <= m_stop m <= List.length input.
Proof.
  intros r input i m H Hi. apply match_at_spec in H.
  destruct H as [Hidx [st' [Hm [Hs _]]]]. split; [exact Hidx|].
  apply matches_advanced in Hm. destruct Hm as [w [H1 H2]]. simpl in *.
  rewrite Hs, H2. split; [lia|].
  assert (List.length (skipn i input) = List.length w + List.length (rest st'))
    by (rewrite H1, length_app; reflexivity).
  rewrite length_skipn in H. lia.
Qed.

Lemma search_from_spec : forall r input tries i m,
  search_from r input i tries = Some m ->
  i <= m_index m <= i + tries
  /\ match_at r input (m_index m) = Some m
  /\ forall j, i <= j < m_index m -> match_at r input j = None.
Proof.
  intros r input tries. induction tries as [|t IH]; intros i m H; simpl in H.
  - destruct (match_at r input i) as [m'|] eqn:E; [|discriminate].
    injection H as <-. pose proof (@match_at_spec _ _ _ _ E) as [Hi _].
    rewrite Hi. split; [lia|]. split; [exact E|]. intros j Hj. lia.
  - destruct (match_at r input i) as [m'|] eqn:E.
    + injection H as <-. pose proof (@match_at_spec _ _ _ _ E) as [Hi _].
      rewrite Hi. split; [lia|]. split; [exact E|]. intros j Hj. lia.
    + apply IH in H. destruct H as [H1 [H2 H3]].
      split; [lia|]. split; [exact H2|].
      intros j Hj. destruct (Nat.eq_dec j i) as [->|Hne]; [exact E|].
      apply H3. lia.
Qed.

Lemma search_from_none : forall r input tries i,
  search_from r input i tries = None ->
  forall j, i <= j <= i + tries -> match_at r input j = None.
Proof.
  intros r input tries. induction tries as [|t IH]; intros i H j Hj; simpl in H.
  - destruct (match_at r input i) eqn:E; [discriminate|].
    replace j with i by lia. exact E.
  - destruct (match_at r input i) eqn:E; [discriminate|].
    destruct (Nat.eq_dec j i) as [->|Hne]; [exact E|].
    apply (IH (S i) H). lia.
Qed.

Lemma exec_spec : forall r input lastIndex m,
  exec r input lastIndex = Some m ->
  lastIndex <= m_index m <= m_stop m /\ m_stop m <= List.length input
  /\ match_at r input (m_index m) = Some m
  /\ forall j, lastIndex <= j < m_index m -> match_at r input j = None.
Proof.
  intros r input lastIndex m H. unfold exec in H.
  destruct (Nat.ltb_spec (List.length input) lastIndex); [discriminate|].
  apply search_from_spec in H. destruct H as [H1 [H2 H3]].
  pose proof (@match_at_bounds _ _ _ _ H2) as Hb.
  assert (m_index m <= List.length input) by lia.
  specialize (Hb H). destruct Hb as [_ Hb].
  split; [lia|]. split; [lia|]. split; [exact H2|]. exact H3.
Qed.

Lemma exec_none : forall r input lastIndex,
  exec r input lastIndex = None ->
  forall j, lastIndex <= j <= List.length input -> match_at r input j = None.
Proof.
  intros r input lastIndex H j Hj. unfold exec in H.
  destruct (Nat.ltb_spec (List.length input) lastIndex); [lia|].
  apply (@search_from_none _ _ _ _ H). lia.
Qed.

(* ================================================================= *)
(** ** The inline markdown parser *)

(** A regular expression that starts with a character matches no empty
    text. *)
Lemma leading_char_progress : forall p r st st',
  matches (RSeq (RChar p) r) st st' -> pos st < pos st'.
Proof.
  intros p r st st' H. apply matches_seq in H. destruct H as [mid [H1 H2]].
  apply matches_char in H1. destruct H1 as [c [tl [_ [_ ->]]]].
  apply matches_advanced in H2. destruct H2 as [w [_ H2]]. simpl in H2. lia.
Qed.

Definition never_empty (r : regex) : Prop :=
  forall input i m, match_at r input i = Some m -> m_index m < m_stop m.

Lemma leading_char_never_empty : forall p r, never_empty (RSeq (RChar p) r).
Proof.
  intros p r input i m H. apply match_at_spec in H.
  destruct H as [Hi [st' [Hm [Hs _]]]].
  apply leading_char_progress in Hm. simpl in Hm. lia.
Qed.

Lemma boldRegex_never_empty : never_empty boldRegex.
Proof. apply leading_char_never_empty. Qed.

Lemma italicRegex_never_empty : never_empty italicRegex.
Proof. apply leading_char_never_empty. Qed.

(** The matches of an [exec] loop follow one another: each starts at or
    after the end of the one before and is not empty. *)
Inductive chain (len : nat) : nat -> list rx_match -> Prop :=
| chain_nil : forall from, chain len from []
| chain_cons : forall from m tl,
    from <= m_index m -> m_index m < m_stop m -> m_stop m <= len ->
    chain len (m_stop m) tl -> chain len from (m :: tl).

Lemma exec_loop_total : forall r input,
  never_empty r ->
  forall fuel lastIndex,
    lastIndex <= List.length input ->
    S (List.length input) - lastIndex <= fuel ->
    exists ms, exec_loop fuel r input lastIndex = Some ms
               /\ chain (List.length input) lastIndex ms.
Proof.
  intros r input Hne fuel. induction fuel as [|fuel IH]; intros lastIndex Hle Hf.
  - lia.
  - simpl. destruct (exec r input lastIndex) as [m|] eqn:E.
    + pose proof (@exec_spec _ _ _ _ E) as [H1 [H2 [H3 _]]].
      apply Hne in H3.
      destruct (Nat.leb_spec (m_stop m) lastIndex); [lia|].
      destruct (IH (m_stop m)) as [ms [E' Hc]]; [lia | lia |].
      rewrite E'. simpl. exists (m :: ms). split; [reflexivity|].
      apply chain_cons; auto; lia.
    + exists []. split; [reflexivity | apply chain_nil].
Qed.

(** The spans of two matches intersect. *)
Definition intersects (a b : imatch) : Prop :=
  im_start a < im_end b /\ im_start b < im_end a.

Definition proper (a : imatch) : Prop := im_start a < im_end a.

Lemma overlaps_intersects : forall a b,
  proper a -> proper b -> (overlaps a b = true <-> intersects a b).
Proof.
  intros a b Ha Hb. unfold overlaps, intersects, proper in *.
  rewrite !orb_true_iff, !andb_true_iff, !Nat.leb_le, !Nat.ltb_lt. lia.
Qed.

Lemma chain_proper : forall len t from ms,
  chain len from ms -> Forall proper (map (to_imatch t) ms).
Proof.
  intros len t from ms H. induction H; simpl; constructor; auto.
Qed.

Lemma find_matches_total : forall text,
  exists bs its,
    exec_loop (S (List.length text)) boldRegex text 0 = Some bs
    /\ exec_loop (S (List.length text)) italicRegex text 0 = Some its
    /\ find_matches text = Some (map (to_imatch bold) bs ++ map (to_imatch italic) its)
    /\ chain (List.length text) 0 bs /\ chain (List.length text) 0 its.
Proof.
  intro text.
  destruct (@exec_loop_total boldRegex text boldRegex_never_empty
              (S (List.length text)) 0) as [bs [Eb Hb]]; try lia.
  destruct (@exec_loop_total italicRegex text italicRegex_never_empty
              (S (List.length text)) 0) as [its [Ei Hi]]; try lia.
  exists bs, its. unfold find_matches, bind. rewrite Eb, Ei. auto.
Qed.

(** Sorting by start offset. *)
Definition by_start (a b : imatch) : Prop := im_start a <= im_start b.

Lemma insert_by_start_perm : forall x l, Permutation (x :: l) (insert_by_start x l).
Proof.
  intros x l. induction l as [|y l IH]; simpl; [apply Permutation_refl|].
  destruct (Nat.leb (im_start x) (im_start y)); [apply Permutation_refl|].
  eapply perm_trans; [apply perm_swap|]. apply perm_skip. exact IH.
Qed.

Lemma sort_by_start_perm : forall l, Permutation l (sort_by_start l).
Proof.
  induction l as [|x l IH]; simpl; [apply perm_nil|].
  eapply perm_trans; [apply perm_skip; exact IH | apply insert_by_start_perm].
Qed.

Lemma insert_by_start_sorted : forall x l,
  StronglySorted by_start l -> StronglySorted by_start (insert_by_start x l).
Proof.
  intros x l H. induction H as [|y l Hs IH Hall]; simpl.
  - constructor; constructor.
  - destruct (Nat.leb_spec (im_start x) (im_start y)).
    + constructor; [constructor; assumption|].
      constructor; [exact H|].
      eapply Forall_impl; [|exact Hall]. unfold by_start. intros; lia.
    + constructor; [exact IH|].
      eapply Permutation_Forall; [apply insert_by_start_perm|].
      constructor; [unfold by_start; lia | exact Hall].
Qed.

Lemma sort_by_start_sorted : forall l, StronglySorted by_start (sort_by_start l).
Proof.
  induction l as [|x l IH]; simpl; [constructor|].
  apply insert_by_start_sorted. exact IH.
Qed.

(** The scan that drops overlapping matches. *)
Lemma filter_overlaps_spec : forall ms acc,
  exists kept,
    filter_overlaps ms acc = acc ++ kept
    /\ (forall x, In x kept -> In x ms)
    /\ (forall x, In x ms -> In x kept \/
                  exists y, In y (acc ++ kept) /\ overlaps x y = true)
    /\ (forall x y, In x kept -> In y acc -> overlaps x y = false).
Proof.
  induction ms as [|cur ms IH]; intros acc; simpl.
  - exists []. rewrite app_nil_r. split; [reflexivity|].
    split; [auto|]. split; [intros x []|intros x y []].
  - destruct (existsb (overlaps cur) acc) eqn:E.
    + destruct (IH acc) as [kept [H1 [H2 [H3 H4]]]]. exists kept.
      split; [exact H1|]. split; [auto|]. split; [|exact H4].
      intros x [<-|Hx]; [|apply H3; exact Hx].
      right. apply existsb_exists in E. destruct E as [y [Hy Ho]].
      exists y. split; [apply in_app_iff; left; exact Hy | exact Ho].
    + destruct (IH (acc ++ [cur])) as [kept [H1 [H2 [H3 H4]]]].
      exists (cur :: kept). rewrite H1, <- app_assoc. simpl.
      split; [reflexivity|]. split; [|split].
      * intros x [<-|Hx]; auto.
      * intros x [<-|Hx]; [left; left; reflexivity|].
        destruct (H3 x Hx) as [Hk|[y [Hy Ho]]]; [left; right; exact Hk|].
        right. exists y. split; [|exact Ho].
        rewrite <- app_assoc in Hy. exact Hy.
      * intros x y [<-|Hx] Hy.
        -- destruct (overlaps cur y) eqn:Eo; [|reflexivity].
           assert (existsb (overlaps cur) acc = true)
             by (apply existsb_exists; exists y; auto).
           congruence.
        -- apply H4; [exact Hx | apply in_app_iff; left; exact Hy].
Qed.

Lemma filter_overlaps_keeps : forall ms acc x,
  In x acc -> In x (filter_overlaps ms acc).
Proof.
  intros ms acc x H. destruct (filter_overlaps_spec ms acc) as [kept [E _]].
  rewrite E. apply in_app_iff. left. exact H.
Qed.

Lemma filter_overlaps_incl : forall ms acc x,
  In x (filter_overlaps ms acc) -> In x acc \/ In x ms.
Proof.
  intros ms acc x H. destruct (filter_overlaps_spec ms acc) as [kept [E [Hk _]]].
  rewrite E in H. apply in_app_iff in H. destruct H as [H|H]; auto.
Qed.

(** No accepted match overlaps one accepted before it. *)
Definition apart (a b : imatch) : Prop := overlaps b a = false.

Lemma ordpairs_snoc : forall (R : imatch -> imatch -> Prop) l x,
  ForallOrdPairs R l -> Forall (fun y => R y x) l -> ForallOrdPairs R (l ++ [x]).
Proof.
  intros R l x H. induction H as [|a l Ha Hl IH]; intros Hx; simpl.
  - constructor; constructor.
  - inversion Hx; subst. constructor.
    + apply Forall_app. split; [exact Ha | constructor; [assumption | constructor]].
    + apply IH. assumption.
Qed.

Lemma filter_overlaps_apart : forall ms acc,
  ForallOrdPairs apart acc -> ForallOrdPairs apart (filter_overlaps ms acc).
Proof.
  induction ms as [|cur ms IH]; intros acc H; simpl; [exact H|].
  destruct (existsb (overlaps cur) acc) eqn:E; [apply IH; exact H|].
  apply IH. apply ordpairs_snoc; [exact H|].
  apply Forall_forall. intros y Hy. unfold apart.
  destruct (overlaps cur y) eqn:Eo; [|reflexivity].
  assert (existsb (overlaps cur) acc = true)
    by (apply existsb_exists; exists y; auto).
  congruence.
Qed.

(** A match that is dropped overlaps a match accepted before it. *)
Lemma filter_overlaps_dropped : forall ms acc,
  StronglySorted by_start ms ->
  (forall y x, In y acc -> In x ms -> by_start y x) ->
  forall x, In x ms ->
    In x (filter_overlaps ms acc)
    \/ exists y, In y (filter_overlaps ms acc)
                 /\ overlaps x y = true /\ by_start y x.
Proof.
  induction ms as [|cur ms IH]; intros acc Hs Hacc x Hx; [destruct Hx|].
  inversion Hs as [|? ? Hs' Hall]; subst. simpl.
  destruct (existsb (overlaps cur) acc) eqn:E.
  - destruct Hx as [<-|Hx].
    + right. apply existsb_exists in E. destruct E as [y [Hy Ho]].
      exists y. split; [apply filter_overlaps_keeps; exact Hy|].
      split; [exact Ho|]. apply Hacc; [exact Hy | left; reflexivity].
    + apply IH; auto. intros y z Hy Hz. apply Hacc; [exact Hy | right; exact Hz].
  - destruct Hx as [<-|Hx].
    + left. apply filter_overlaps_keeps. apply in_app_iff. right. left. reflexivity.
    + apply IH; auto. intros y z Hy Hz. apply in_app_iff in Hy.
      destruct Hy as [Hy|[<-|[]]].
      * apply Hacc; [exact Hy | right; exact Hz].
      * rewrite Forall_forall in Hall. apply Hall. exact Hz.
Qed.

Lemma sorted_remove : forall (l1 : list imatch) x l2,
  StronglySorted by_start (l1 ++ x :: l2) -> StronglySorted by_start (l1 ++ l2).
Proof.
  induction l1 as [|a l1 IH]; intros x l2 H; simpl in *.
  - inversion H; assumption.
  - inversion H as [|? ? Hs Hall]; subst. constructor; [eapply IH; exact Hs|].
    rewrite Forall_app in *. destruct Hall as [H1 H2]. split; [exact H1|].
    inversion H2; assumption.
Qed.

Lemma filter_overlaps_sorted : forall ms acc,
  StronglySorted by_start (acc ++ ms) ->
  StronglySorted by_start (filter_overlaps ms acc).
Proof.
  induction ms as [|cur ms IH]; intros acc H; simpl.
  - rewrite app_nil_r in H. exact H.
  - destruct (existsb (overlaps cur) acc).
    + apply IH. eapply sorted_remove. exact H.
    + apply IH. rewrite <- app_assoc. exact H.
Qed.

Lemma filter_overlaps_head : forall x ms,
  exists kept, filter_overlaps (x :: ms) [] = x :: kept.
Proof.
  intros x ms. simpl. destruct (filter_overlaps_spec ms [x]) as [kept [E _]].
  exists kept. exact E.
Qed.

(** An italic match that starts first is kept, and the bold match it
    intersects is dropped. *)
Example C9_italic_before_bold :
  filteredMatches (js "a _b **c_ d** e")
  = Some [ {| im_start := 2; im_end := 9; im_type := italic; im_text := js "b **c" |} ].
Proof. vm_compute. reflexivity. Qed.

(* ================================================================= *)
(** ** Blank lines and rule lines in the block parser *)

Lemma test_true : forall r input,
  (exists st', matches r (MState 0 input []) st') -> test r input = true.
Proof.
  intros r input [st' H]. unfold test, exec. simpl.
  assert (E : match_at r input 0 <> None).
  { intro E. rewrite match_at_none in E. apply (E st'). exact H. }
  destruct (List.length input - 0); simpl;
    destruct (match_at r input 0); try reflexivity; contradiction.
Qed.

Definition dashes (k : nat) : jsstring := repeat 45%N k.

Lemma dashes_rule : forall k, 3 <= k -> test re_rule (dashes k) = true.
Proof.
  intros k Hk. apply test_true.
  destruct k as [|[|[|j]]]; try lia. unfold dashes. simpl repeat.
  exists (MState (3 + j) [] []). unfold re_rule. simpl rseq.
  apply matches_seq. exists (MState 0 (45 :: 45 :: 45 :: repeat 45 j)%N []).
  split; [apply matches_bol; auto|].
  apply matches_seq. exists (MState 1 (45 :: 45 :: repeat 45 j)%N []).
  split; [apply matches_char; eexists; eexists; repeat split|].
  apply matches_seq. exists (MState 2 (45 :: repeat 45 j)%N []).
  split; [apply matches_char; eexists; eexists; repeat split|].
  apply matches_seq. exists (MState 3 (repeat 45 j)%N []).
  split; [apply matches_char; eexists; eexists; repeat split|].
  apply matches_seq. exists (MState (3 + j) [] []).
  split; [|apply matches_eol; auto].
  apply matches_star_char. exists (repeat 45%N j). unfold advanced. simpl.
  rewrite app_nil_r, repeat_length. repeat split.
  clear. induction j; simpl; auto.
Qed.

Definition blank_line (line : jsstring) : Prop := trim line = [].

Definition rule_line (line : jsstring) : Prop :=
  exists k, 3 <= k /\ trim line = dashes k.

(** What [flushList] does. *)
Definition flushed (s : Scan) : list block :=
  match currentList s with
  | [] => []
  | items => [BulletList (map formatInlineMarkdown items)]
  end.

Lemma flushList_spec : forall s,
  currentList (flushList s) = []
  /\ elements (flushList s) = elements s ++ flushed s.
Proof.
  intro s. unfold flushList, flushed. destruct (currentList s) eqn:E; simpl.
  - rewrite app_nil_r. auto.
  - auto.
Qed.

Lemma scan_blank_line : forall C s line,
  blank_line line ->
  scan_line C s line
  = match elements (flushList s) with
    | [] => flushList s
    | _ => push (flushList s) Spacer
    end.
Proof.
  intros C s line H. unfold scan_line. rewrite H. simpl.
  destruct (elements (flushList s)); reflexivity.
Qed.

Lemma scan_rule_line : forall C s line,
  rule_line line -> scan_line C s line = flushList s.
Proof.
  intros C s line [k [Hk H]]. unfold scan_line. rewrite H.
  rewrite (@dashes_rule k Hk). rewrite orb_true_r. simpl.
  destruct k as [|[|[|j]]]; try lia. reflexivity.
Qed.

(** A run of blank lines. *)
Lemma scan_blank_run : forall C blanks s,
  Forall blank_line blanks ->
  currentList s = [] ->
  scan_lines C blanks s
  = {| elements := elements s
                   ++ match elements s with
                      | [] => []
                      | _ => repeat Spacer (List.length blanks)
                      end;
       currentList := [] |}.
Proof.
  intros C blanks. induction blanks as [|line blanks IH]; intros s Hb Hc.
  - destruct s as [es cl]. simpl in *. subst.
    destruct es; simpl; rewrite ?app_nil_r; reflexivity.
  - inversion Hb as [|? ? Hl Hbs]; subst. unfold scan_lines in *. simpl.
    rewrite (@scan_blank_line C s line Hl).
    assert (Hf : flushList s = s).
    { unfold flushList. rewrite Hc. reflexivity. }
    rewrite Hf. destruct (elements s) as [|b es] eqn:Ee.
    + rewrite (IH s Hbs Hc). rewrite Ee. reflexivity.
    + rewrite (IH (push s Spacer) Hbs); [|exact Hc].
      simpl. rewrite Ee. simpl. f_equal. f_equal. rewrite <- app_assoc.
      reflexivity.
Qed.

Definition spacers (before : list block) (n : nat) : list block :=
  match before with
  | [] => []
  | _ => repeat Spacer n
  end.

(** Three blank lines after a heading give three spacers. *)
Lemma C8_three_spacers :
  formatProtocolContent canon_basic (js "# T" ++ [10; 10; 10; 10]%N ++ js "x")
  = Some [ Heading 1 (Some (NFragment [NSpan (js "T")]));
           Spacer; Spacer; Spacer;
           Paragraph (Some (NFragment [NSpan (js "x")])) ].
Proof. vm_compute. reflexivity. Qed.

(** C8, as the code has it.  A blank line and a rule line (three or more
    dashes) both close the open bullet list.  A rule line pushes nothing
    else.  A blank line pushes one spacer when an element precedes it and
    none otherwise, so a run of [n] blank lines gives [n] spacers after an
    element and none at the start of the text. *)
Theorem C8_blank_and_rule_lines :
  forall (C : Canonicalizer) (s : Scan),
    (forall line, rule_line line ->
        currentList (scan_line C s line) = []
        /\ elements (scan_line C s line) = elements s ++ flushed s)
    /\ (forall line, blank_line line ->
          currentList (scan_line C s line) = []
          /\ elements (scan_line C s line)
             = (elements s ++ flushed s) ++ spacers (elements s ++ flushed s) 1)
    /\ (forall blanks, Forall blank_line blanks -> blanks <> [] ->
          currentList (scan_lines C blanks s) = []
          /\ elements (scan_lines C blanks s)
             = (elements s ++ flushed s)
                 ++ spacers (elements s ++ flushed s) (List.length blanks)).
Proof.
  intros C s. destruct (flushList_spec s) as [Hc He].
  assert (Hblank : forall line, blank_line line ->
            currentList (scan_line C s line) = []
            /\ elements (scan_line C s line)
               = (elements s ++ flushed s) ++ spacers (elements s ++ flushed s) 1).
  { intros line H. rewrite (@scan_blank_line C s line H). rewrite He.
    destruct (elements s ++ flushed s) as [|b es] eqn:E; simpl.
    - rewrite Hc, He. auto.
    - rewrite Hc, He. auto. }
  split; [|split; [exact Hblank|]].
  - intros line H. rewrite (@scan_rule_line C s line H). auto.
  - intros blanks Hb Hne. destruct blanks as [|line blanks]; [contradiction|].
    inversion Hb as [|? ? Hl Hbs]; subst.
    destruct (Hblank line Hl) as [H1 H2].
    unfold scan_lines in *. simpl fold_left.
    pose proof (@scan_blank_run C blanks (scan_line C s line) Hbs H1) as Hrun.
    unfold scan_lines in Hrun. rewrite Hrun. simpl. split; [reflexivity|].
    rewrite H2. destruct (elements s ++ flushed s) as [|b es]; simpl.
    + reflexivity.
    + rewrite <- app_assoc. simpl. reflexivity.
Qed.

Lemma C8_witness :
  let s := {| elements := [Paragraph None]; currentList := [js "item"] |} in
  elements (scan_line canon_basic s (js "  -----  "))
    = [Paragraph None; BulletList [formatInlineMarkdown (js "item")]]
  /\ elements (scan_lines canon_basic [js " "; []; js "  "] s)
     = [Paragraph None; BulletList [formatInlineMarkdown (js "item")];
        Spacer; Spacer; Spacer].
Proof.
  intro s.
  destruct (C8_blank_and_rule_lines canon_basic s) as [Hrule [_ Hrun]]. split.
  - destruct (Hrule (js "  -----  ")) as [_ H]; [|exact H].
    exists 5. split; [lia | vm_compute; reflexivity].
  - destruct (Hrun [js " "; []; js "  "]) as [_ H]; [| |exact H].
    + repeat constructor.
    + discriminate.
Defined.

(* ================================================================= *)
(** ** The speaker label extractor *)

(** *** The order of strings *)

Definition str_lt (a b : jsstring) : Prop := str_ltb a b = true.

Lemma str_ltb_irrefl : forall a, str_ltb a a = false.
Proof.
  induction a as [|x a IH]; simpl; [reflexivity|].
  rewrite N.ltb_irrefl, N.eqb_refl. exact IH.
Qed.

Lemma str_ltb_trans : forall a b c,
  str_ltb a b = true -> str_ltb b c = true -> str_ltb a c = true.
Proof.
  induction a as [|x a IH]; intros [|y b] [|z c] H1 H2; simpl in *;
    try discriminate; try reflexivity.
  destruct (N.ltb_spec x y).
  - destruct (N.ltb_spec y z).
    + destruct (N.ltb_spec x z); [reflexivity | lia].
    + destruct (N.eqb_spec y z); [|discriminate]. subst.
      destruct (N.ltb_spec x z); [reflexivity | lia].
  - destruct (N.eqb_spec x y); [|discriminate]. subst.
    destruct (N.ltb_spec y z); [reflexivity|].
    destruct (N.eqb_spec y z); [|discriminate].
    eapply IH; eauto.
Qed.

Lemma str_ltb_total : forall a b,
  str_ltb a b = false -> str_ltb b a = false -> a = b.
Proof.
  induction a as [|x a IH]; intros [|y b] H1 H2; simpl in *;
    try discriminate; try reflexivity.
  destruct (N.ltb_spec x y); [discriminate|].
  destruct (N.ltb_spec y x); [discriminate|].
  assert (x = y) by lia. subst. rewrite N.eqb_refl in *.
  f_equal. apply IH; assumption.
Qed.

(** *** Sets of labels *)

Lemma set_has_in : forall l x, set_has l x = true <-> In x l.
Proof.
  induction l as [|y l IH]; intros x; simpl.
  - split; [discriminate | intros []].
  - rewrite orb_true_iff, str_eqb_eq, IH. split; intros [H|H]; auto.
Qed.

Lemma set_add_nodup : forall l x, NoDup l -> NoDup (set_add l x).
Proof.
  intros l x H. unfold set_add. destruct (set_has l x) eqn:E; [exact H|].
  assert (Hn : ~ In x l).
  { intro Hin. apply set_has_in in Hin. congruence. }
  clear E. induction H as [|y l Hy Hl IH]; simpl.
  - constructor; [intros [] | constructor].
  - constructor.
    + intro Hin. apply in_app_iff in Hin. destruct Hin as [Hin|[Hin|[]]].
      * contradiction.
      * subst. apply Hn. left. reflexivity.
    + apply IH. intro Hin. apply Hn. right. exact Hin.
Qed.

Lemma set_add_nonempty : forall l x, set_add l x <> [].
Proof.
  intros l x. unfold set_add. destruct (set_has l x) eqn:E.
  - destruct l; [discriminate | discriminate].
  - destruct l; discriminate.
Qed.

Lemma fold_set_add_nodup : forall (A : Type) (f : A -> jsstring) xs l,
  NoDup l -> NoDup (fold_left (fun ls m => set_add ls (f m)) xs l).
Proof.
  intros A f xs. induction xs as [|x xs IH]; intros l H; simpl; [exact H|].
  apply IH. apply set_add_nodup. exact H.
Qed.

Lemma segment_label_nodup : forall labels seg l,
  segment_label labels seg = Some l -> NoDup labels -> NoDup l.
Proof.
  intros labels seg l H Hn. unfold segment_label, bind in H.
  destruct (get seg "speaker"); [|discriminate].
  match type of H with
  | (if ?c then _ else _) = _ => destruct c; [injection H as <-; exact Hn|]
  end.
  match type of H with
  | match ?x with Some _ => _ | None => None end = _ => destruct x; [|discriminate]
  end.
  injection H as <-. apply set_add_nodup. exact Hn.
Qed.

Lemma scan_segments_nodup : forall segs labels l,
  scan_segments labels segs = Some l -> NoDup labels -> NoDup l.
Proof.
  induction segs as [|seg segs IH]; intros labels l H Hn; simpl in H.
  - injection H as <-. exact Hn.
  - unfold bind in H. destruct (segment_label labels seg) as [l'|] eqn:E; [|discriminate].
    eapply IH; [exact H|]. eapply segment_label_nodup; eauto.
Qed.

Lemma transcript_match_label_nodup : forall labels m,
  NoDup labels -> NoDup (transcript_match_label labels m).
Proof.
  intros labels m H. unfold transcript_match_label.
  match goal with
  | |- NoDup (match ?x with [] => _ | _ => _ end) => destruct x; [exact H|]
  end.
  match goal with
  | |- NoDup (if ?c then _ else _) => destruct c; apply set_add_nodup; exact H
  end.
Qed.

Lemma tier_transcript_nodup : forall t, NoDup (tier_transcript t).
Proof.
  intro t. unfold tier_transcript.
  assert (G : forall ms l, NoDup l -> NoDup (fold_left transcript_match_label ms l)).
  { induction ms as [|m ms IH]; intros l H; simpl; [exact H|].
    apply IH. apply transcript_match_label_nodup. exact H. }
  apply G. constructor.
Qed.

Lemma tier_simple_nodup : forall C t, NoDup (tier_simple C t).
Proof.
  intros C t. unfold tier_simple.
  assert (G : forall ps l, NoDup l -> NoDup (fold_left (simple_pattern_labels t) ps l)).
  { induction ps as [|p ps IH]; intros l H; simpl; [exact H|].
    apply IH. unfold simple_pattern_labels.
    apply (@fold_set_add_nodup _ (fun m => trim (match_text t m))). exact H. }
  apply G. constructor.
Qed.

(** *** Sorting *)

Lemma sort_insert_in : forall x l z, In z (sort_insert x l) <-> z = x \/ In z l.
Proof.
  intros x l z. induction l as [|y l IH]; simpl.
  - split; intros [H|H]; auto.
  - destruct (str_leb x y); simpl; [|rewrite IH]; split; intros H;
      repeat destruct H as [H|H]; auto.
Qed.

Lemma sort_insert_sorted : forall x l,
  StronglySorted str_lt l -> ~ In x l -> StronglySorted str_lt (sort_insert x l).
Proof.
  intros x l H. induction H as [|y l Hs IH Hall]; intros Hn; simpl.
  - constructor; constructor.
  - assert (Hxy : x <> y) by (intro; subst; apply Hn; left; reflexivity).
    assert (Hnl : ~ In x l) by (intro; apply Hn; right; assumption).
    unfold str_leb. destruct (str_ltb y x) eqn:E; simpl.
    + constructor; [apply IH; exact Hnl|].
      apply Forall_forall. intros z Hz. apply sort_insert_in in Hz.
      destruct Hz as [->|Hz]; [exact E|].
      rewrite Forall_forall in Hall. apply Hall. exact Hz.
    + assert (Hlt : str_ltb x y = true).
      { destruct (str_ltb x y) eqn:E2; [reflexivity|].
        exfalso. apply Hxy. apply str_ltb_total; assumption. }
      constructor; [constructor; assumption|].
      constructor; [exact Hlt|].
      eapply Forall_impl; [|exact Hall].
      intros z Hz. eapply str_ltb_trans; eauto.
Qed.

Lemma sort_strings_in : forall l z, In z (sort_strings l) <-> In z l.
Proof.
  induction l as [|x l IH]; intros z; simpl; [reflexivity|].
  rewrite sort_insert_in, IH. split; intros [H|H]; auto.
Qed.

Lemma sort_strings_sorted : forall l,
  NoDup l -> StronglySorted str_lt (sort_strings l).
Proof.
  intros l H. induction H as [|x l Hx Hl IH]; simpl; [constructor|].
  apply sort_insert_sorted; [exact IH|].
  intro Hin. apply (proj1 (sort_strings_in l x)) in Hin. contradiction.
Qed.

Lemma sort_strings_nonempty : forall l, l <> [] -> sort_strings l <> [].
Proof.
  intros [|x l] H; [congruence|]. simpl.
  destruct (sort_strings l) as [|y l']; simpl; [discriminate|].
  destruct (str_leb x y); discriminate.
Qed.

(** *** The extractor *)

(** The identifier a segment carries. *)
Definition label_source (seg : value) : value :=
  or_else (get_opt seg "speaker")
    (or_else (get_opt seg "spk")
       (or_else (get_opt seg "label") (get_opt seg "speaker_label"))).

(** A segment the scan can read: it is not [null] or [undefined], and its
    identifier converts to a string. *)
Definition segment_ok (seg : value) : Prop :=
  nullish seg = false /\ String_of (label_source seg) <> None.

Lemma segment_label_total : forall labels seg,
  segment_ok seg -> exists l, segment_label labels seg = Some l.
Proof.
  intros labels seg [Hn Hs]. unfold segment_label, bind.
  assert (E : get seg "speaker" = Some (get_opt seg "speaker")).
  { unfold get_opt, get. destruct seg; try discriminate; reflexivity. }
  rewrite E. fold (label_source seg).
  destruct (nullish (label_source seg)); [eexists; reflexivity|].
  destruct (String_of (label_source seg)); [eexists; reflexivity | contradiction].
Qed.

Lemma scan_segments_total : forall segs labels,
  Forall segment_ok segs -> exists l, scan_segments labels segs = Some l.
Proof.
  induction segs as [|seg segs IH]; intros labels H; simpl.
  - eexists; reflexivity.
  - inversion H; subst. destruct (@segment_label_total labels seg) as [l E]; [assumption|].
    unfold bind. rewrite E. apply IH. assumption.
Qed.

(** A segment that is [null] makes the scan throw. *)
Lemma C2_null_segment_throws :
  speakerLabels canon_basic (VObject [(js "utterances", VArray [VNull])])
                (js "[00:01 - 00:05] Спикер A: hello") = None.
Proof. vm_compute. reflexivity. Qed.

(** C2, as the code has it.  When every diarization segment can be read
    (none is [null] or [undefined], and the identifier of each converts to
    a string; this includes an absent payload, a payload without segments
    and a segment list that is no array), the extractor returns a list of
    labels; every list it returns is not empty and strictly ascending in
    code-unit order, so sorted and free of duplicates; and when none of
    the three scans finds a label, the list is the fallback pair. *)
Theorem C2_labels_sorted_nonempty :
  forall (C : Canonicalizer) (diarization : value) (transcript : jsstring),
    (Forall segment_ok (segments_of diarization) ->
       exists labels, speakerLabels C diarization transcript = Some labels)
    /\ (forall labels,
          speakerLabels C diarization transcript = Some labels ->
          labels <> [] /\ StronglySorted str_lt labels)
    /\ (tier_diarization diarization = Some [] ->
        tier_transcript transcript = [] ->
        tier_simple C transcript = [] ->
        speakerLabels C diarization transcript = Some fallback_labels)
    /\ segments_of VUndefined = [] /\ segments_of VNull = [].
Proof.
  intros C diarization transcript. split; [|split; [|split]].
  - intros H. unfold speakerLabels, tier_diarization, bind.
    destruct (@scan_segments_total (segments_of diarization) []) as [l E]; [exact H|].
    rewrite E. eexists; reflexivity.
  - intros labels H. unfold speakerLabels, bind in H.
    destruct (tier_diarization diarization) as [l1|] eqn:E1; [|discriminate].
    injection H as <-.
    assert (N1 : NoDup l1).
    { unfold tier_diarization in E1. eapply scan_segments_nodup; [exact E1|constructor]. }
    set (l2 := match l1 with [] => tier_transcript transcript | _ => l1 end).
    assert (N2 : NoDup l2).
    { subst l2. destruct l1; [apply tier_transcript_nodup | exact N1]. }
    set (l3 := match l2 with [] => tier_simple C transcript | _ => l2 end).
    assert (N3 : NoDup l3).
    { subst l3. destruct l2; [apply tier_simple_nodup | exact N2]. }
    set (l4 := match l3 with [] => fold_left set_add fallback_labels l3 | _ => l3 end).
    assert (N4 : NoDup l4 /\ l4 <> []).
    { subst l4. destruct l3 as [|x l3'] eqn:E3.
      - split; [|vm_compute; discriminate].
        apply (@fold_set_add_nodup _ (fun x => x)). constructor.
      - split; [exact N3 | discriminate]. }
    destruct N4 as [N4 Hne]. split.
    + apply sort_strings_nonempty. exact Hne.
    + apply sort_strings_sorted. exact N4.
  - intros H1 H2 H3. unfold speakerLabels, bind. rewrite H1, H2, H3.
    vm_compute. reflexivity.
  - split; reflexivity.
Qed.

Lemma C2_witness :
  exists labels,
    speakerLabels canon_basic
      (VObject [(js "segments",
                 VArray [VObject [(js "spk", VNumber 1)];
                         VObject [(js "label", VString (js "b"))];
                         VString (js "x")])])
      (js "text") = Some labels.
Proof.
  apply (C2_labels_sorted_nonempty canon_basic
           (VObject [(js "segments",
                      VArray [VObject [(js "spk", VNumber 1)];
                              VObject [(js "label", VString (js "b"))];
                              VString (js "x")])])
           (js "text")).
  repeat constructor; try (vm_compute; discriminate).
Defined.

(* ================================================================= *)
(** ** The normalisation of identifiers *)

(** [/^[A-Z0-9]+$/] accepts the non-empty texts of upper-case letters and
    digits, and nothing else. *)
Lemma re_token_spec : forall t,
  test re_token t = true <-> t <> [] /\ forallb is_upper_alnum t = true.
Proof.
  intros t. split.
  - intros H. unfold test in H.
    destruct (exec re_token t 0) as [m|] eqn:E; [|discriminate].
    apply exec_spec in E. destruct E as [_ [_ [E _]]].
    apply match_at_spec in E. destruct E as [Hi [st' [Hm _]]].
    unfold re_token in Hm. simpl rseq in Hm.
    apply matches_seq in Hm. destruct Hm as [s1 [H1 Hm]].
    apply matches_bol in H1. destruct H1 as [H0 ->]. simpl in H0.
    rewrite H0 in Hm. simpl skipn in Hm.
    apply matches_seq in Hm. destruct Hm as [s2 [H2 H3]].
    apply matches_plus_char in H2. destruct H2 as [w [[Hw1 Hw2] [Hw3 [Hw4 _]]]].
    apply matches_eol in H3. destruct H3 as [H3 _]. simpl in Hw1.
    rewrite H3, app_nil_r in Hw1. subst. auto.
  - intros [Hne Hall]. apply test_true.
    exists (MState (List.length t) [] []). unfold re_token. simpl rseq.
    apply matches_seq. exists (MState 0 t []). split; [apply matches_bol; auto|].
    apply matches_seq. exists (MState (List.length t) [] []).
    split; [|apply matches_eol; auto].
    apply matches_plus_char. exists t. unfold advanced. simpl.
    rewrite app_nil_r. auto.
Qed.

(** The rule of the first two scans: a trimmed identifier of upper-case
    letters and digits gets the prefix, any other is taken as it is. *)
Definition normalize (identifier : jsstring) : jsstring :=
  let t := trim identifier in
  if nonempty t && forallb is_upper_alnum t then Spiker_sp ++ t else t.

Lemma test_re_token_eq : forall t,
  test re_token t = nonempty t && forallb is_upper_alnum t.
Proof.
  intro t. destruct (test re_token t) eqn:E.
  - apply re_token_spec in E. destruct E as [H1 H2].
    apply nonempty_true in H1. rewrite H1, H2. reflexivity.
  - destruct (nonempty t && forallb is_upper_alnum t) eqn:E2; [|reflexivity].
    apply andb_true_iff in E2. destruct E2 as [H1 H2].
    apply nonempty_true in H1.
    assert (test re_token t = true) by (apply re_token_spec; auto). congruence.
Qed.

(** The designation of a match of the transcript pattern: the third
    group when it took part, the fourth otherwise. *)
Definition designation (m : rx_match) : jsstring :=
  match group 3 m with
  | Some (c :: s) => c :: s
  | _ => match group 4 m with Some s => s | None => [] end
  end.

(** The same identifier in two letter cases gives two labels. *)
Lemma C3_two_labels_for_one_speaker :
  speakerLabels canon_basic
    (VObject [(js "utterances",
               VArray [VObject [(js "speaker", VString (js "A"))];
                       VObject [(js "speaker", VString (js "a"))]])])
    (js "") = Some [js "a"; js "Спикер A"]
  /\ speakerLabels canon_basic VUndefined (js "Speaker A then speaker a")
     = Some [js "Speaker A"; js "speaker a"].
Proof. split; vm_compute; reflexivity. Qed.

(* ================================================================= *)
(** ** The texts a pattern matches *)

(** The words of a regular expression; the anchors take no text. *)
Fixpoint lang (r : regex) (w : jsstring) : Prop :=
  match r with
  | REmpty => w = []
  | RChar p => exists c, w = [c] /\ p c = true
  | RSeq a b => exists w1 w2, w = w1 ++ w2 /\ lang a w1 /\ lang b w2
  | RAlt a b => lang a w \/ lang b w
  | RStar _ r' => exists ws, w = List.concat ws /\ Forall (lang r') ws
  | RGroup _ r' => lang r' w
  | RBol => w = []
  | REol => w = []
  end.

Fixpoint anchor_free (r : regex) : bool :=
  match r with
  | REmpty | RChar _ => true
  | RSeq a b | RAlt a b => anchor_free a && anchor_free b
  | RStar _ r' | RGroup _ r' => anchor_free r'
  | RBol | REol => false
  end.

Fixpoint no_groups (r : regex) : bool :=
  match r with
  | REmpty | RChar _ | RBol | REol => true
  | RSeq a b | RAlt a b => no_groups a && no_groups b
  | RStar _ r' => no_groups r'
  | RGroup _ _ => false
  end.

Lemma star_loop_lang : forall step g (L : jsstring -> Prop),
  (forall st st', In st' (step st) -> exists w, advanced st st' w /\ L w) ->
  forall fuel st st', In st' (star_loop step g fuel st) ->
    exists ws, advanced st st' (List.concat ws) /\ Forall L ws.
Proof.
  intros step g L Hstep fuel. induction fuel as [|fuel IH]; intros st st' H.
  - simpl in H. destruct H as [<-|[]]. exists []. split; [apply advanced_refl | constructor].
  - simpl in H.
    assert (Hmore : In st' (flat_map
               (fun st1 => if Nat.ltb (pos st) (pos st1)
                           then star_loop step g fuel st1 else [])
               (step st)) \/ st' = st).
    { destruct g.
      - apply in_app_iff in H. destruct H as [H|[H|[]]]; auto.
      - destruct H as [H|H]; auto. }
    destruct Hmore as [Hmore | ->];
      [|exists []; split; [apply advanced_refl | constructor]].
    apply in_flat_map in Hmore. destruct Hmore as [st1 [H1 H2]].
    destruct (Nat.ltb (pos st) (pos st1)); [|destruct H2].
    apply Hstep in H1. apply IH in H2.
    destruct H1 as [w1 [A1 L1]]. destruct H2 as [ws [A2 L2]].
    exists (w1 :: ws). split; [|constructor; assumption].
    simpl. eapply advanced_trans; eauto.
Qed.

(** Every match of the engine consumes a word of the expression. *)
Theorem matches_lang : forall r st st',
  matches r st st' -> exists w, advanced st st' w /\ lang r w.
Proof.
  induction r as [|p|a IHa b IHb|a IHa b IHb|g r IH|n r IH| |]; intros st st' H.
  - apply matches_empty in H. subst. exists []. split; [apply advanced_refl | reflexivity].
  - apply matches_char in H. destruct H as [c [tl [Hr [Hp ->]]]].
    exists [c]. split; [unfold advanced; simpl; split; [exact Hr | lia]|].
    exists c. auto.
  - apply matches_seq in H. destruct H as [mid [H1 H2]].
    apply IHa in H1. apply IHb in H2.
    destruct H1 as [w1 [A1 L1]]. destruct H2 as [w2 [A2 L2]].
    exists (w1 ++ w2). split; [eapply advanced_trans; eauto|].
    exists w1, w2. auto.
  - apply matches_alt in H. destruct H as [H|H]; [apply IHa in H | apply IHb in H];
      destruct H as [w [A L]]; exists w; simpl; auto.
  - unfold matches in H. simpl in H.
    eapply star_loop_lang in H; [|intros s s' Hs; apply IH; exact Hs].
    destruct H as [ws [A L]]. exists (List.concat ws). split; [exact A|].
    exists ws. auto.
  - apply matches_group in H. destruct H as [st1 [H ->]].
    apply IH in H. destruct H as [w [A L]]. exists w. split; [exact A | exact L].
  - apply matches_bol in H. destruct H as [_ ->]. exists [].
    split; [apply advanced_refl | reflexivity].
  - apply matches_eol in H. destruct H as [_ ->]. exists [].
    split; [apply advanced_refl | reflexivity].
Qed.

Lemma star_loop_complete : forall step g (L : jsstring -> Prop),
  (forall w st r, L w -> rest st = w ++ r ->
                  exists st', In st' (step st) /\ advanced st st' w) ->
  forall ws fuel st r,
    Forall L ws -> rest st = List.concat ws ++ r -> List.length (List.concat ws) <= fuel ->
    exists st', In st' (star_loop step g fuel st) /\ advanced st st' (List.concat ws).
Proof.
  intros step g L Hstep ws. induction ws as [|w ws IH]; intros fuel st r HL Hr Hf.
  - exists st. split; [|apply advanced_refl].
    destruct fuel; simpl; [left; reflexivity|].
    destruct g; [apply in_app_iff; right|]; left; reflexivity.
  - inversion HL as [|? ? Hw HLs]; subst. simpl in *.
    destruct w as [|c w].
    + simpl in *. apply (IH fuel st r); assumption.
    + destruct fuel as [|fuel]; [simpl in Hf; lia|].
      rewrite <- app_assoc in Hr.
      destruct (Hstep (c :: w) st (List.concat ws ++ r) Hw Hr) as [st1 [H1 A1]].
      assert (Hp : pos st < pos st1) by (destruct A1 as [_ A1]; simpl in A1; lia).
      assert (Hr1 : rest st1 = List.concat ws ++ r).
      { destruct A1 as [A1 _]. rewrite Hr in A1.
        apply app_inv_head in A1. symmetry. exact A1. }
      destruct (IH fuel st1 r HLs Hr1) as [st' [H2 A2]].
      { simpl in Hf. rewrite length_app in Hf. lia. }
      exists st'. split; [|eapply advanced_trans; eauto].
      assert (Hmore : In st' (flat_map
                 (fun s1 => if Nat.ltb (pos st) (pos s1)
                            then star_loop step g fuel s1 else [])
                 (step st))).
      { apply in_flat_map. exists st1. split; [exact H1|].
        destruct (Nat.ltb_spec (pos st) (pos st1)); [exact H2 | lia]. }
      simpl. destruct g; [apply in_app_iff; left | right]; exact Hmore.
Qed.

(** Where the input starts with a word of an expression without anchors,
    the engine finds a match that consumes it. *)
Theorem lang_matches : forall r,
  anchor_free r = true ->
  forall w st tl, lang r w -> rest st = w ++ tl ->
    exists st', matches r st st' /\ advanced st st' w.
Proof.
  induction r as [|p|a IHa b IHb|a IHa b IHb|g r IH|n r IH| |];
    intros Haf w st tl HL Hr; simpl in Haf, HL; try discriminate.
  - subst w. exists st. split; [apply matches_empty; reflexivity | apply advanced_refl].
  - destruct HL as [c [-> Hp]]. simpl in Hr.
    exists (MState (S (pos st)) tl (caps st)). split.
    + apply matches_char. exists c, tl. auto.
    + unfold advanced. simpl. split; [exact Hr | lia].
  - apply andb_true_iff in Haf. destruct Haf as [Ha Hb].
    destruct HL as [w1 [w2 [-> [L1 L2]]]]. rewrite <- app_assoc in Hr.
    destruct (IHa Ha w1 st (w2 ++ tl) L1 Hr) as [mid [M1 A1]].
    assert (Hr2 : rest mid = w2 ++ tl).
    { destruct A1 as [A1 _]. rewrite Hr in A1. apply app_inv_head in A1.
      symmetry. exact A1. }
    destruct (IHb Hb w2 mid tl L2 Hr2) as [st' [M2 A2]].
    exists st'. split; [apply matches_seq; exists mid; auto|].
    eapply advanced_trans; eauto.
  - apply andb_true_iff in Haf. destruct Haf as [Ha Hb].
    destruct HL as [HL|HL]; [destruct (IHa Ha w st tl HL Hr) as [st' [M A]]
                            | destruct (IHb Hb w st tl HL Hr) as [st' [M A]]];
      exists st'; (split; [apply matches_alt; auto | exact A]).
  - destruct HL as [ws [-> HL]].
    destruct (@star_loop_complete (rmatch r) g (lang r)
                (fun u s t Hu Hs => IH Haf u s t Hu Hs)
                ws (List.length (rest st)) st tl HL Hr) as [st' [H A]].
    { rewrite Hr, length_app. lia. }
    exists st'. split; [exact H | exact A].
  - destruct (IH Haf w st tl HL Hr) as [st1 [M A]].
    exists (MState (pos st1) (rest st1)
                   ((n, firstn (pos st1 - pos st) (rest st)) :: caps st1)).
    split; [apply matches_group; exists st1; auto|].
    destruct A as [A1 A2]. unfold advanced. simpl. auto.
Qed.

Lemma no_groups_caps : forall r,
  no_groups r = true -> forall st st', matches r st st' -> caps st' = caps st.
Proof.
  induction r as [|p|a IHa b IHb|a IHa b IHb|g r IH|n r IH| |];
    intros Hn st st' H; simpl in Hn; try discriminate.
  - apply matches_empty in H. subst. reflexivity.
  - apply matches_char in H. destruct H as [c [tl [_ [_ ->]]]]. reflexivity.
  - apply andb_true_iff in Hn. destruct Hn as [Ha Hb].
    apply matches_seq in H. destruct H as [mid [H1 H2]].
    rewrite (IHb Hb _ _ H2). apply (IHa Ha _ _ H1).
  - apply andb_true_iff in Hn. destruct Hn as [Ha Hb].
    apply matches_alt in H. destruct H as [H|H]; [apply (IHa Ha _ _ H) | apply (IHb Hb _ _ H)].
  - unfold matches in H. simpl in H.
    remember (List.length (rest st)) as fuel eqn:E. clear E. revert st st' H.
    induction fuel as [|fuel IHf]; intros st st' H.
    + simpl in H. destruct H as [<-|[]]. reflexivity.
    + simpl in H.
      assert (Hmore : In st' (flat_map
                 (fun st1 => if Nat.ltb (pos st) (pos st1)
                             then star_loop (rmatch r) g fuel st1 else [])
                 (rmatch r st)) \/ st' = st).
      { destruct g.
        - apply in_app_iff in H. destruct H as [H|[H|[]]]; auto.
        - destruct H as [H|H]; auto. }
      destruct Hmore as [Hmore | ->]; [|reflexivity].
      apply in_flat_map in Hmore. destruct Hmore as [st1 [H1 H2]].
      destruct (Nat.ltb (pos st) (pos st1)); [|destruct H2].
      rewrite (IHf _ _ H2). apply (IH Hn _ _ H1).
  - apply matches_bol in H. destruct H as [_ ->]. reflexivity.
  - apply matches_eol in H. destruct H as [_ ->]. reflexivity.
Qed.

(** A pattern that starts with a capturing group: the group holds the
    word its body consumed. *)
Lemma leading_group_capture : forall n P Q st st',
  no_groups Q = true ->
  matches (RSeq (RGroup n P) Q) st st' ->
  exists w1 w2,
    lang P w1 /\ lang Q w2 /\ advanced st st' (w1 ++ w2)
    /\ cap_lookup n (caps st') = Some w1.
Proof.
  intros n P Q st st' Hq H. apply matches_seq in H. destruct H as [mid [H1 H2]].
  apply matches_group in H1. destruct H1 as [st1 [H1 ->]].
  apply matches_lang in H1. destruct H1 as [w1 [A1 L1]].
  pose proof (no_groups_caps Q Hq _ _ H2) as Hc.
  apply matches_lang in H2. destruct H2 as [w2 [A2 L2]].
  exists w1, w2. split; [exact L1|]. split; [exact L2|]. split.
  - destruct A1 as [A1 A1']. destruct A2 as [A2 A2']. simpl in *.
    unfold advanced. rewrite A1, A2, A2', A1', length_app, app_assoc.
    split; [reflexivity | lia].
  - rewrite Hc. simpl. rewrite Nat.eqb_refl.
    destruct A1 as [A1 A1']. rewrite A1, A1'.
    replace (pos st + List.length w1 - pos st) with (List.length w1) by lia.
    rewrite firstn_app, Nat.sub_diag, firstn_all. simpl. rewrite app_nil_r. reflexivity.
Qed.

(** *** The patterns of the transcript annotator *)

(** Equality up to letter case. *)
Definition ci_eq (C : Canonicalizer) (w l : jsstring) : Prop :=
  Forall2 (fun x c => C x = C c) w l.

Lemma chri_nonletter : forall (C : Canonicalizer) c x,
  (c < 128)%N -> is_lower c = false -> is_upper c = false ->
  C x = C c -> x = c.
Proof.
  intros C c x Hc Hl Hu H. rewrite (@canon_ascii C c Hc) in H.
  unfold ascii_upper in H. rewrite Hl in H.
  destruct (N.ltb_spec x 128) as [Hx|Hx].
  - rewrite (@canon_ascii C x Hx) in H. unfold ascii_upper in H.
    destruct (is_lower x) eqn:E; [|exact H].
    exfalso. unfold is_lower, is_upper in *.
    apply andb_true_iff in E. destruct E as [E1 E2].
    apply N.leb_le in E1. apply N.leb_le in E2.
    assert (Hu' : N.leb 65 c && N.leb c 90 = true).
    { apply andb_true_iff. split; apply N.leb_le; lia. }
    congruence.
  - pose proof (@canon_high C x Hx). lia.
Qed.

Lemma lang_liti : forall C l w, lang (liti C l) w <-> ci_eq C w l.
Proof.
  intros C l. induction l as [|c l IH]; intros w; simpl.
  - split; [intros ->; constructor | intros H; inversion H; reflexivity].
  - split.
    + intros (w1 & w2 & -> & (x & -> & Hx) & H2). apply N.eqb_eq in Hx.
      constructor; [exact Hx | apply IH; exact H2].
    + intros H. inversion H as [|x c' w' l' Hx Hw]; subst.
      exists [x], w'. split; [reflexivity|]. split; [|apply IH; exact Hw].
      exists x. split; [reflexivity | apply N.eqb_eq; exact Hx].
Qed.

Lemma lang_star_char : forall g p w,
  lang (RStar g (RChar p)) w <-> forallb p w = true.
Proof.
  intros g p w. simpl. split.
  - intros (ws & -> & H). induction H as [|u ws (c & -> & Hc) Hws IH]; simpl; auto.
    rewrite Hc, IH. reflexivity.
  - intros H. exists (map (fun c => [c]) w). split.
    + clear H. induction w as [|c w IH]; simpl; [reflexivity | f_equal; exact IH].
    + induction w as [|c w IH]; simpl in *; constructor.
      * exists c. apply andb_true_iff in H. destruct H. auto.
      * apply IH. apply andb_true_iff in H. destruct H. assumption.
Qed.

Lemma lang_plus_char : forall g p w,
  lang (rplus g (RChar p)) w <-> forallb p w = true /\ w <> [].
Proof.
  intros g p w. unfold rplus. split.
  - intros (w1 & w2 & -> & (c & -> & Hc) & H2). apply lang_star_char in H2.
    simpl. rewrite Hc, H2. split; [reflexivity | discriminate].
  - intros [H Hne]. destruct w as [|c w]; [contradiction|].
    simpl in H. apply andb_true_iff in H. destruct H as [Hc Hw].
    exists [c], w. split; [reflexivity|]. split; [exists c; auto|].
    apply lang_star_char. exact Hw.
Qed.

Lemma liti_anchor_free : forall C l, anchor_free (liti C l) = true.
Proof. intros C l. induction l; simpl; auto. Qed.

Lemma liti_no_groups : forall C l, no_groups (liti C l) = true.
Proof. intros C l. induction l; simpl; auto. Qed.

(** The pattern text [escapeRegExp] builds reads back as the text it was
    given: the interpolated part of a pattern matches that text, letter
    case apart. *)
Lemma literal_of_escaped : forall s fuel,
  List.length (escapeRegExp s) <= fuel ->
  literal_of_pattern fuel (escapeRegExp s) = Some s.
Proof.
  induction s as [|c s IH]; intros fuel H; simpl in *.
  - destruct fuel; reflexivity.
  - destruct (is_syntax_char c) eqn:E; simpl in H.
    + destruct fuel as [|fuel]; [lia|]. simpl. rewrite E.
      rewrite IH by lia. simpl.
      destruct (N.eqb_spec 92 92); [|congruence]. reflexivity.
    + destruct fuel as [|fuel]; [lia|]. simpl.
      destruct (N.eqb_spec c 92) as [->|Hne]; [vm_compute in E; discriminate|].
      rewrite E. rewrite IH by lia. reflexivity.
Qed.

Lemma escaped_literal_liti : forall C s, escaped_literal C s = liti C s.
Proof.
  intros C s. unfold escaped_literal. rewrite literal_of_escaped; [reflexivity | lia].
Qed.

(** The texts of the timing prefix: an opening bracket, two digits, a
    colon, two digits, spaces, a dash, spaces, two digits, a colon, two
    digits, a closing bracket and spaces. *)
Definition timing_prefix (p : jsstring) : Prop :=
  exists d1 d2 d3 d4 d5 d6 d7 d8 ws1 ws2 ws3,
    forallb is_digit [d1; d2; d3; d4; d5; d6; d7; d8] = true
    /\ forallb is_space ws1 = true /\ forallb is_space ws2 = true
    /\ forallb is_space ws3 = true
    /\ p = [91; d1; d2; 58; d3; d4]%N ++ ws1 ++ [45%N] ++ ws2
             ++ [d5; d6; 58; d7; d8; 93]%N ++ ws3.

(** The designation after the prefix: the label itself, or the word
    [Спикер] and the identifier, letter case apart; spaces and a colon
    follow. *)
Definition label_designation (C : Canonicalizer) (label des : jsstring) : Prop :=
  exists lab ws,
    ci_eq C lab label /\ forallb is_space ws = true /\ des = lab ++ ws ++ [58%N].

Definition id_designation (C : Canonicalizer) (speakerId des : jsstring) : Prop :=
  exists sp ws1 idt ws,
    ci_eq C sp Spiker /\ forallb is_space ws1 = true /\ ws1 <> []
    /\ ci_eq C idt speakerId /\ forallb is_space ws = true
    /\ des = sp ++ ws1 ++ idt ++ ws ++ [58%N].

Ltac chri_inv H :=
  match type of H with
  | lang (chri _ _) _ =>
      let x := fresh "x" in
      let Hx := fresh "Hx" in
      destruct H as (x & -> & Hx); apply N.eqb_eq in Hx;
      apply chri_nonletter in Hx; [subst x | reflexivity | reflexivity | reflexivity]
  end.

Lemma lang_chri_nonletter : forall (C : Canonicalizer) c,
  (c < 128)%N -> is_lower c = false -> is_upper c = false ->
  lang (chri C c) [c].
Proof.
  intros C c _ _ _. exists c. split; [reflexivity | apply N.eqb_refl].
Qed.

Lemma lang_re_timing : forall C p, lang (re_timing C) p <-> timing_prefix p.
Proof.
  intros C p. unfold re_timing. cbn [rseq lang]. split.
  - intros (w1 & r1 & -> & L1 & H). chri_inv L1.
    destruct H as (w2 & r2 & -> & (d1 & -> & D1) & H).
    destruct H as (w3 & r3 & -> & (d2 & -> & D2) & H).
    destruct H as (w4 & r4 & -> & L4 & H). chri_inv L4.
    destruct H as (w5 & r5 & -> & (d3 & -> & D3) & H).
    destruct H as (w6 & r6 & -> & (d4 & -> & D4) & H).
    destruct H as (ws1 & r7 & -> & S1 & H). apply (proj1 (lang_star_char true is_space _)) in S1.
    destruct H as (w8 & r8 & -> & L8 & H). chri_inv L8.
    destruct H as (ws2 & r9 & -> & S2 & H). apply (proj1 (lang_star_char true is_space _)) in S2.
    destruct H as (w10 & r10 & -> & (d5 & -> & D5) & H).
    destruct H as (w11 & r11 & -> & (d6 & -> & D6) & H).
    destruct H as (w12 & r12 & -> & L12 & H). chri_inv L12.
    destruct H as (w13 & r13 & -> & (d7 & -> & D7) & H).
    destruct H as (w14 & r14 & -> & (d8 & -> & D8) & H).
    destruct H as (w15 & ws3 & -> & L15 & S3). chri_inv L15.
    apply (proj1 (lang_star_char true is_space _)) in S3.
    exists d1, d2, d3, d4, d5, d6, d7, d8, ws1, ws2, ws3.
    simpl. rewrite D1, D2, D3, D4, D5, D6, D7, D8. simpl.
    repeat split; auto.
  - intros (d1 & d2 & d3 & d4 & d5 & d6 & d7 & d8 & ws1 & ws2 & ws3
            & D & S1 & S2 & S3 & ->).
    simpl in D. repeat (apply andb_true_iff in D; destruct D as [? D]).
    exists [91%N]. eexists. split; [reflexivity|].
    split; [apply lang_chri_nonletter; reflexivity|].
    exists [d1]. eexists. split; [reflexivity|]. split; [exists d1; auto|].
    exists [d2]. eexists. split; [reflexivity|]. split; [exists d2; auto|].
    exists [58%N]. eexists. split; [reflexivity|].
    split; [apply lang_chri_nonletter; reflexivity|].
    exists [d3]. eexists. split; [reflexivity|]. split; [exists d3; auto|].
    exists [d4]. eexists. split; [reflexivity|]. split; [exists d4; auto|].
    exists ws1. eexists. split; [reflexivity|]. split; [exact (proj2 (lang_star_char true is_space ws1) S1)|].
    exists [45%N]. eexists. split; [reflexivity|].
    split; [apply lang_chri_nonletter; reflexivity|].
    exists ws2. eexists. split; [reflexivity|]. split; [exact (proj2 (lang_star_char true is_space ws2) S2)|].
    exists [d5]. eexists. split; [reflexivity|]. split; [exists d5; auto|].
    exists [d6]. eexists. split; [reflexivity|]. split; [exists d6; auto|].
    exists [58%N]. eexists. split; [reflexivity|].
    split; [apply lang_chri_nonletter; reflexivity|].
    exists [d7]. eexists. split; [reflexivity|]. split; [exists d7; auto|].
    exists [d8]. eexists. split; [reflexivity|]. split; [exists d8; auto|].
    exists [93%N], ws3. split; [reflexivity|].
    split; [apply lang_chri_nonletter; reflexivity | exact (proj2 (lang_star_char true is_space ws3) S3)].
Qed.

(** What follows the timing prefix in the two patterns. *)
Definition after_timing_label (C : Canonicalizer) (label : jsstring) : regex :=
  rseq [escaped_literal C label; RStar true cls_s; chri C 58].

Definition after_timing_id (C : Canonicalizer) (speakerId : jsstring) : regex :=
  rseq [re_spiker_id C speakerId; RStar true cls_s; chri C 58].

Lemma pattern_timing_label_eq : forall C label,
  pattern_timing_label C label = RSeq (re_timing C) (after_timing_label C label).
Proof. reflexivity. Qed.

Lemma pattern_timing_id_eq : forall C speakerId,
  pattern_timing_id C speakerId = RSeq (re_timing C) (after_timing_id C speakerId).
Proof. reflexivity. Qed.

Lemma lang_after_timing_label : forall C label des,
  lang (after_timing_label C label) des <-> label_designation C label des.
Proof.
  intros C label des. unfold after_timing_label, label_designation.
  rewrite escaped_literal_liti. cbn [rseq]. split.
  - intros (lab & r1 & -> & L1 & ws & r2 & -> & S & L2).
    apply lang_liti in L1. apply (proj1 (lang_star_char true is_space _)) in S.
    chri_inv L2. exists lab, ws. auto.
  - intros (lab & ws & L & S & ->).
    exists lab. eexists. split; [reflexivity|]. split; [apply lang_liti; exact L|].
    exists ws, [58%N]. split; [reflexivity|].
    split; [exact (proj2 (lang_star_char true is_space ws) S)|].
    apply lang_chri_nonletter; reflexivity.
Qed.

Lemma lang_after_timing_id : forall C speakerId des,
  lang (after_timing_id C speakerId) des <-> id_designation C speakerId des.
Proof.
  intros C speakerId des. unfold after_timing_id, re_spiker_id, id_designation.
  rewrite escaped_literal_liti. cbn [rseq]. split.
  - intros (w & r1 & -> & (sp & r2 & -> & L1 & ws1 & idt & -> & S1 & L3)
            & ws & r3 & -> & S & L2).
    apply lang_liti in L1. apply lang_liti in L3.
    apply (proj1 (lang_plus_char true is_space _)) in S1. destruct S1 as [S1 Hne].
    apply (proj1 (lang_star_char true is_space _)) in S.
    chri_inv L2. exists sp, ws1, idt, ws. rewrite <- !app_assoc. auto 10.
  - intros (sp & ws1 & idt & ws & L1 & S1 & Hne & L3 & S & ->).
    exists (sp ++ ws1 ++ idt), (ws ++ [58%N]).
    split; [rewrite <- !app_assoc; reflexivity|]. split.
    + exists sp, (ws1 ++ idt). split; [reflexivity|].
      split; [apply lang_liti; exact L1|].
      exists ws1, idt. split; [reflexivity|].
      split; [exact (proj2 (lang_plus_char true is_space ws1) (conj S1 Hne))|].
      apply lang_liti. exact L3.
    + exists ws, [58%N]. split; [reflexivity|].
      split; [exact (proj2 (lang_star_char true is_space ws) S)|].
      apply lang_chri_nonletter; reflexivity.
Qed.

Lemma after_timing_label_flags : forall C label,
  no_groups (after_timing_label C label) = true
  /\ anchor_free (after_timing_label C label) = true.
Proof.
  intros C label. unfold after_timing_label. rewrite escaped_literal_liti.
  cbn [rseq no_groups anchor_free]. rewrite liti_no_groups, liti_anchor_free.
  split; reflexivity.
Qed.

Lemma after_timing_id_flags : forall C speakerId,
  no_groups (after_timing_id C speakerId) = true
  /\ anchor_free (after_timing_id C speakerId) = true.
Proof.
  intros C speakerId. unfold after_timing_id, re_spiker_id.
  rewrite escaped_literal_liti.
  cbn [rseq no_groups anchor_free rplus cls_s].
  rewrite !liti_no_groups, !liti_anchor_free. split; reflexivity.
Qed.

(** A timing pattern: the timing prefix, then a designation without
    groups and anchors whose words are [occ]. *)
Definition timing_pattern (C : Canonicalizer) (pattern : regex)
           (occ : jsstring -> Prop) : Prop :=
  exists after,
    pattern = RSeq (re_timing C) after
    /\ no_groups after = true /\ anchor_free after = true
    /\ forall des, lang after des <-> occ des.

Lemma timing_pattern_label : forall C label,
  timing_pattern C (pattern_timing_label C label) (label_designation C label).
Proof.
  intros C label. exists (after_timing_label C label).
  split; [reflexivity|]. split; [apply after_timing_label_flags|].
  split; [apply after_timing_label_flags | apply lang_after_timing_label].
Qed.

Lemma timing_pattern_id : forall C speakerId,
  timing_pattern C (pattern_timing_id C speakerId) (id_designation C speakerId).
Proof.
  intros C speakerId. exists (after_timing_id C speakerId).
  split; [reflexivity|]. split; [apply after_timing_id_flags|].
  split; [apply after_timing_id_flags | apply lang_after_timing_id].
Qed.

Lemma re_timing_anchor_free : forall C, anchor_free (re_timing C) = true.
Proof. reflexivity. Qed.

(** What a match of a timing pattern is. *)
Lemma timing_match_sound : forall C pattern occ text i m,
  timing_pattern C pattern occ ->
  match_at pattern text i = Some m ->
  exists prefix des,
    timing_prefix prefix /\ occ des
    /\ skipn i text = prefix ++ des ++ skipn (m_stop m) text
    /\ m_index m = i
    /\ m_stop m = i + List.length (prefix ++ des)
    /\ group 1 m = Some prefix.
Proof.
  intros C pattern occ text i m [Q [E [Hg [Ha HL]]]] H. subst pattern.
  apply match_at_spec in H. destruct H as [Hi [st' [Hm [Hs Hc]]]].
  unfold re_timing in Hm.
  apply leading_group_capture in Hm; [|exact Hg].
  destruct Hm as [prefix [des [L1 [L2 [[A1 A2] Hcap]]]]]. simpl in A1, A2.
  exists prefix, des.
  split; [apply (proj1 (lang_re_timing C prefix)); exact L1|].
  split; [apply HL; exact L2|].
  assert (Hrest : rest st' = skipn (m_stop m) text).
  { rewrite Hs, A2.
    replace (i + List.length (prefix ++ des)) with (List.length (prefix ++ des) + i) by lia.
    rewrite <- skipn_skipn, A1, skipn_app, Nat.sub_diag, skipn_all. reflexivity. }
  split; [rewrite A1, Hrest, <- app_assoc; reflexivity|].
  split; [exact Hi|]. split; [rewrite Hs; exact A2|].
  unfold group. rewrite Hc. exact Hcap.
Qed.

(** Where an occurrence starts, a timing pattern matches. *)
Lemma timing_match_complete : forall C pattern occ text i prefix des tl,
  timing_pattern C pattern occ ->
  timing_prefix prefix -> occ des ->
  skipn i text = prefix ++ des ++ tl ->
  match_at pattern text i <> None.
Proof.
  intros C pattern occ text i prefix des tl [Q [E [Hg [Ha HL]]]] Hp Hd Hs. subst pattern.
  assert (L : lang (RSeq (re_timing C) Q) (prefix ++ des)).
  { exists prefix, des. split; [reflexivity|].
    split; [apply lang_re_timing; exact Hp | apply HL; exact Hd]. }
  destruct (@lang_matches (RSeq (re_timing C) Q)) with
      (w := prefix ++ des) (st := MState i (skipn i text) []) (tl := tl)
    as [st' [M _]].
  - simpl. rewrite Ha. reflexivity.
  - exact L.
  - simpl. rewrite Hs, <- app_assoc. reflexivity.
  - intro Hn. rewrite match_at_none in Hn. apply (Hn st'). exact M.
Qed.

(** *** The matches of a global replacement *)

Lemma all_matches_chain : forall r text,
  never_empty r ->
  forall fuel lastIndex,
    chain (List.length text) lastIndex (all_matches fuel r text lastIndex)
    /\ forall m, In m (all_matches fuel r text lastIndex) ->
                 match_at r text (m_index m) = Some m.
Proof.
  intros r text Hne fuel. induction fuel as [|fuel IH]; intros lastIndex; simpl.
  - split; [apply chain_nil | intros m []].
  - destruct (exec r text lastIndex) as [m|] eqn:E;
      [|split; [apply chain_nil | intros m []]].
    pose proof (@exec_spec _ _ _ _ E) as [H1 [H2 [H3 _]]].
    pose proof (Hne _ _ _ H3) as Hlt.
    destruct (Nat.eqb_spec (m_stop m) (m_index m)); [lia|].
    destruct (IH (m_stop m)) as [Hc Hin]. split.
    + apply chain_cons; auto; lia.
    + intros m' [<-|Hm']; [exact H3 | apply Hin; exact Hm'].
Qed.

Lemma all_matches_cover : forall r text,
  never_empty r ->
  forall fuel lastIndex i,
    lastIndex <= i <= List.length text ->
    match_at r text i <> None ->
    List.length text - lastIndex < fuel ->
    exists m, In m (all_matches fuel r text lastIndex)
              /\ m_index m <= i < m_stop m.
Proof.
  intros r text Hne fuel. induction fuel as [|fuel IH]; intros lastIndex i Hi Hm Hf.
  - lia.
  - simpl. destruct (exec r text lastIndex) as [m|] eqn:E.
    + pose proof (@exec_spec _ _ _ _ E) as [H1 [H2 [H3 H4]]].
      pose proof (Hne _ _ _ H3) as Hlt.
      destruct (Nat.eqb_spec (m_stop m) (m_index m)); [lia|].
      assert (Hle : m_index m <= i).
      { destruct (Nat.le_gt_cases (m_index m) i) as [Hle|Hgt]; [exact Hle|].
        exfalso. apply Hm. apply H4. lia. }
      destruct (Nat.lt_ge_cases i (m_stop m)) as [Hin|Hout].
      * exists m. split; [left; reflexivity | lia].
      * destruct (IH (m_stop m) i) as [m' [Hm' Hr]]; [lia | exact Hm | lia |].
        exists m'. split; [right; exact Hm' | exact Hr].
    + exfalso. apply Hm. apply (@exec_none _ _ _ E). lia.
Qed.

Lemma splice_ext : forall text ms from (f g : rx_match -> jsstring),
  (forall m, In m ms -> f m = g m) ->
  splice text from ms f = splice text from ms g.
Proof.
  intros text ms. induction ms as [|m ms IH]; intros from f g H; simpl; [reflexivity|].
  rewrite (H m (or_introl eq_refl)). f_equal. f_equal.
  apply IH. intros m' Hm'. apply H. right. exact Hm'.
Qed.

(** *** The replacer *)

Lemma trimStart_keeps : forall l c,
  In c l -> is_space c = false -> trimStart l <> [].
Proof.
  induction l as [|x l IH]; intros c Hin Hc; [destruct Hin|]. simpl.
  destruct (is_space x) eqn:E; [|discriminate].
  destruct Hin as [->|Hin]; [congruence|]. eapply IH; eauto.
Qed.

Lemma trim_keeps : forall c s, is_space c = false -> trim (c :: s) <> [].
Proof.
  intros c s Hc. unfold trim, trimEnd. simpl trimStart. rewrite Hc.
  intro E. apply (f_equal (@rev N)) in E. rewrite rev_involutive in E. simpl in E.
  revert E. apply trimStart_keeps with (c := c); [|exact Hc].
  apply in_app_iff. right. left. reflexivity.
Qed.

Lemma timing_prefix_nonblank : forall p,
  timing_prefix p -> nonempty p && nonempty (trim p) = true.
Proof.
  intros p (d1 & d2 & d3 & d4 & d5 & d6 & d7 & d8 & ws1 & ws2 & ws3 & _ & _ & _ & _ & ->).
  simpl app. simpl nonempty.
  apply nonempty_true. apply trim_keeps. reflexivity.
Qed.

Lemma replacer_timing : forall C label name text m prefix,
  group 1 m = Some prefix -> timing_prefix prefix ->
  replacer C label name text m = prefix ++ name ++ [58%N].
Proof.
  intros C label name text m prefix Hg Hp. unfold replacer. rewrite Hg.
  rewrite (@timing_prefix_nonblank _ Hp). reflexivity.
Qed.

Lemma timing_never_empty : forall C pattern occ,
  timing_pattern C pattern occ -> never_empty pattern.
Proof.
  intros C pattern occ Hp text i m H.
  destruct (@timing_match_sound _ _ _ _ _ _ Hp H)
    as (prefix & des & Ht & _ & _ & Hi & Hs & _).
  destruct Ht as (d1 & d2 & d3 & d4 & d5 & d6 & d7 & d8 & ws1 & ws2 & ws3
                  & _ & _ & _ & _ & ->).
  rewrite Hi, Hs, length_app. simpl. lia.
Qed.

(** One pass of a timing pattern over a text. *)
Lemma timing_pass : forall C label name text pattern occ,
  timing_pattern C pattern occ ->
  let ms := matchAll pattern text in
  apply_pattern C label name text pattern
    = splice text 0 ms (fun m => cap 1 m ++ name ++ [58%N])
  /\ chain (List.length text) 0 ms
  /\ (forall m, In m ms ->
        exists prefix des,
          group 1 m = Some prefix /\ timing_prefix prefix /\ occ des
          /\ substring text (m_index m) (m_stop m) = prefix ++ des)
  /\ (forall i prefix des tl,
        skipn i text = prefix ++ des ++ tl ->
        timing_prefix prefix -> occ des ->
        exists m, In m ms /\ m_index m <= i < m_stop m).
Proof.
  intros C label name text pattern occ Hp ms.
  pose proof (@timing_never_empty _ _ _ Hp) as Hne.
  destruct (@all_matches_chain pattern text Hne (S (List.length text)) 0) as [Hc Hin].
  fold (matchAll pattern text) in Hc, Hin. fold ms in Hc, Hin.
  assert (Hm : forall m, In m ms ->
             exists prefix des,
               group 1 m = Some prefix /\ timing_prefix prefix /\ occ des
               /\ substring text (m_index m) (m_stop m) = prefix ++ des).
  { intros m Hm. specialize (Hin m Hm).
    destruct (@timing_match_sound _ _ _ _ _ _ Hp Hin)
      as (prefix & des & Ht & Ho & Hs & Hi & Hstop & Hg).
    exists prefix, des. repeat split; auto.
    unfold substring. rewrite Hs, Hstop.
    replace (m_index m + List.length (prefix ++ des) - m_index m)
      with (List.length (prefix ++ des)) by lia.
    rewrite app_assoc, firstn_app, Nat.sub_diag, firstn_all. simpl.
    rewrite app_nil_r. reflexivity. }
  split; [|split; [exact Hc|split; [exact Hm|]]].
  - unfold apply_pattern, replace_all. fold ms. apply splice_ext.
    intros m Hmi. destruct (Hm m Hmi) as (prefix & des & Hg & Ht & _ & _).
    rewrite (@replacer_timing C label name text _ _ Hg Ht).
    unfold cap. rewrite Hg. reflexivity.
  - intros i prefix des tl Hs Ht Ho.
    assert (Hi : i <= List.length text).
    { destruct (Nat.le_gt_cases i (List.length text)) as [H|H]; [exact H|].
      rewrite skipn_all2 in Hs by lia.
      destruct Ht as (d1 & d2 & d3 & d4 & d5 & d6 & d7 & d8 & ws1 & ws2 & ws3
                      & _ & _ & _ & _ & ->).
      discriminate. }
    apply (@all_matches_cover pattern text Hne (S (List.length text)) 0 i).
    + lia.
    + eapply timing_match_complete; eauto.
    + lia.
Qed.

(** *** The transcript annotator *)

(** The two patterns with a timing prefix of a mapping entry, each with
    the designations it replaces. *)
Definition timing_tier (C : Canonicalizer) (label : jsstring)
           (pattern : regex) (occ : jsstring -> Prop) : Prop :=
  (pattern = pattern_timing_id C (speakerId_of C label)
   /\ occ = id_designation C (speakerId_of C label))
  \/ (pattern = pattern_timing_label C label
      /\ occ = label_designation C label).

(** A later entry rewrites what an earlier entry put in, and a name of
    spaces only is skipped: the lines of the mapped labels keep their
    designation. *)
Lemma C1_occurrence_not_replaced :
  applyMappingToTranscript canon_basic
    [(js "Anna", js "Boris"); (js "Boris", js "Anna")]
    (js "[00:01 - 00:05] Anna: hi") = js "[00:01 - 00:05] Anna: hi"
  /\ applyMappingToTranscript canon_basic [(js "Спикер A", js " ")]
       (js "[00:01 - 00:05] Спикер A: hello") = js "[00:01 - 00:05] Спикер A: hello"
  /\ applyMappingToTranscript canon_basic
       [(js "a", js "Ivan"); (js "Спикер A", js "Petr")]
       (js "[00:01 - 00:05] Спикер A: hi") = js "[00:01 - 00:05] Ivan: hi".
Proof. repeat split; vm_compute; reflexivity. Qed.

(** C1, as the code has it.  The entries of the mapping are applied one
    after the other to the running text, an entry with a blank name not
    at all, an entry with another name by its four patterns in turn.  In
    the pass of each of the two patterns with a timing prefix, the matches
    follow one another in the text, each is a timing prefix and a
    designation of the label and is replaced by its timing prefix, the
    name and a colon, the prefix being the text matched, unit for unit;
    the text between the matches is kept; and every place of the running
    text where a timing prefix and a designation of the label start lies
    in a match that is replaced.  Scenario B holds. *)
Theorem C1_timing_prefix_preserved :
  forall (C : Canonicalizer) (label name text : jsstring),
    (nonempty (trim name) = false -> apply_entry C text (label, name) = text)
    /\ (nonempty (trim name) = true ->
        apply_entry C text (label, name)
        = fold_left (apply_pattern C label name) (entry_patterns C label) text)
    /\ (forall mapping,
          applyMappingToTranscript C ((label, name) :: mapping) text
          = applyMappingToTranscript C mapping (apply_entry C text (label, name)))
    /\ (exists line_patterns,
          entry_patterns C label
          = pattern_timing_id C (speakerId_of C label)
              :: pattern_timing_label C label :: line_patterns)
    /\ (forall pattern occ,
          timing_tier C label pattern occ ->
          let ms := matchAll pattern text in
          apply_pattern C label name text pattern
            = splice text 0 ms (fun m => cap 1 m ++ name ++ [58%N])
          /\ chain (List.length text) 0 ms
          /\ (forall m, In m ms ->
                exists prefix des,
                  group 1 m = Some prefix /\ timing_prefix prefix /\ occ des
                  /\ substring text (m_index m) (m_stop m) = prefix ++ des)
          /\ (forall i prefix des tl,
                skipn i text = prefix ++ des ++ tl ->
                timing_prefix prefix -> occ des ->
                exists m, In m ms /\ m_index m <= i < m_stop m))
    /\ applyMappingToTranscript canon_basic [(js "Спикер A", js "John Smith")]
         (js "[00:01 - 00:05] Спикер A: hello")
       = js "[00:01 - 00:05] John Smith: hello".
Proof.
  intros C label name text. split; [|split; [|split; [|split; [|split]]]].
  - intros H. unfold apply_entry. rewrite H. rewrite orb_true_r. reflexivity.
  - intros H. unfold apply_entry. rewrite H.
    destruct name as [|c name]; [vm_compute in H; discriminate|]. reflexivity.
  - reflexivity.
  - eexists. reflexivity.
  - intros pattern occ [[-> ->]|[-> ->]].
    + apply timing_pass. apply timing_pattern_id.
    + apply timing_pass. apply timing_pattern_label.
  - vm_compute. reflexivity.
Qed.

Lemma C1_witness :
  exists m,
    In m (matchAll (pattern_timing_label canon_basic (js "Спикер A"))
                   (js "x [00:01 - 00:05] спикер a : hello"))
    /\ m_index m <= 2 < m_stop m.
Proof.
  destruct (C1_timing_prefix_preserved canon_basic (js "Спикер A") (js "John Smith")
              (js "x [00:01 - 00:05] спикер a : hello"))
    as [_ [_ [_ [_ [H _]]]]].
  destruct (H (pattern_timing_label canon_basic (js "Спикер A"))
              (label_designation canon_basic (js "Спикер A")))
    as [_ [_ [_ Hcover]]].
  - right. split; reflexivity.
  - apply (Hcover 2 (js "[00:01 - 00:05] ") (js "спикер a :") (js " hello")).
    + vm_compute. reflexivity.
    + exists 48%N, 48%N, 48%N, 49%N, 48%N, 48%N, 48%N, 53%N, [32%N], [32%N], [32%N].
      repeat split; vm_compute; reflexivity.
    + exists (js "спикер a"), [32%N]. split; [|split; vm_compute; reflexivity].
      repeat constructor.
Defined.

(* ================================================================= *)
(** ** The inline formatter returns *)

(** A capture made during a match is no longer than the match. *)
Definition caps_bounded (st st' : mstate) : Prop :=
  pos st <= pos st'
  /\ forall n s, cap_lookup n (caps st') = Some s ->
                 cap_lookup n (caps st) = Some s
                 \/ List.length s <= pos st' - pos st.

Lemma caps_bounded_refl : forall st, caps_bounded st st.
Proof. intro st. split; [lia | intros n s H; left; exact H]. Qed.

Lemma caps_bounded_trans : forall a b c,
  caps_bounded a b -> caps_bounded b c -> caps_bounded a c.
Proof.
  intros a b c [P1 H1] [P2 H2]. split; [lia|].
  intros n s H. destruct (H2 n s H) as [H'|H']; [|right; lia].
  destruct (H1 n s H') as [H''|H'']; [left; exact H'' | right; lia].
Qed.

Lemma matches_caps_bounded : forall r st st',
  matches r st st' -> caps_bounded st st'.
Proof.
  induction r as [|p|a IHa b IHb|a IHa b IHb|g r IH|n r IH| |]; intros st st' H.
  - apply matches_empty in H. subst. apply caps_bounded_refl.
  - apply matches_char in H. destruct H as [c [tl [_ [_ ->]]]].
    split; simpl; [lia | intros n s H; left; exact H].
  - apply matches_seq in H. destruct H as [mid [H1 H2]].
    eapply caps_bounded_trans; [apply IHa | apply IHb]; eauto.
  - apply matches_alt in H. destruct H as [H|H]; [apply IHa | apply IHb]; exact H.
  - unfold matches in H. simpl in H.
    remember (List.length (rest st)) as fuel eqn:E. clear E. revert st st' H.
    induction fuel as [|fuel IHf]; intros st st' H.
    + simpl in H. destruct H as [<-|[]]. apply caps_bounded_refl.
    + simpl in H.
      assert (Hmore : In st' (flat_map
                 (fun st1 => if Nat.ltb (pos st) (pos st1)
                             then star_loop (rmatch r) g fuel st1 else [])
                 (rmatch r st)) \/ st' = st).
      { destruct g.
        - apply in_app_iff in H. destruct H as [H|[H|[]]]; auto.
        - destruct H as [H|H]; auto. }
      destruct Hmore as [Hmore | ->]; [|apply caps_bounded_refl].
      apply in_flat_map in Hmore. destruct Hmore as [st1 [H1 H2]].
      destruct (Nat.ltb (pos st) (pos st1)); [|destruct H2].
      eapply caps_bounded_trans; [apply IH; exact H1 | apply IHf; exact H2].
  - apply matches_group in H. destruct H as [st1 [H ->]].
    apply IH in H. destruct H as [P Hc]. split; simpl; [exact P|].
    intros k s Hk. simpl in Hk. destruct (Nat.eqb n k) eqn:E.
    + injection Hk as <-. right. rewrite length_firstn. lia.
    + apply Hc. exact Hk.
  - apply matches_bol in H. destruct H as [_ ->]. apply caps_bounded_refl.
  - apply matches_eol in H. destruct H as [_ ->]. apply caps_bounded_refl.
Qed.

(** After a leading character, the groups hold less than the match. *)
Lemma leading_char_group : forall p r input i m n s,
  match_at (RSeq (RChar p) r) input i = Some m ->
  i <= List.length input ->
  group n m = Some s -> List.length s < List.length input.
Proof.
  intros p r input i m n s H Hi Hg.
  pose proof (@match_at_bounds _ _ _ _ H Hi) as [_ Hb].
  apply match_at_spec in H. destruct H as [_ [st' [Hm [Hs Hc]]]].
  apply matches_seq in Hm. destruct Hm as [mid [H1 H2]].
  apply matches_char in H1. destruct H1 as [c [tl [_ [_ ->]]]].
  apply matches_caps_bounded in H2. destruct H2 as [P Hcaps]. simpl in *.
  unfold group in Hg. rewrite Hc in Hg.
  destruct (Hcaps n s Hg) as [H|H]; [discriminate | lia].
Qed.

Lemma exec_loop_matches : forall r input fuel lastIndex ms,
  exec_loop fuel r input lastIndex = Some ms ->
  forall m, In m ms ->
    match_at r input (m_index m) = Some m /\ m_index m <= List.length input.
Proof.
  intros r input fuel. induction fuel as [|fuel IH]; intros lastIndex ms H m Hm;
    simpl in H; [discriminate|].
  destruct (exec r input lastIndex) as [m0|] eqn:E.
  - destruct (Nat.leb (m_stop m0) lastIndex); [discriminate|].
    destruct (exec_loop fuel r input (m_stop m0)) as [ms'|] eqn:E'; [|discriminate].
    simpl in H. injection H as <-. destruct Hm as [<-|Hm].
    + apply exec_spec in E. destruct E as [H1 [H2 [H3 _]]]. split; [exact H3 | lia].
    + eapply IH; eauto.
  - injection H as <-. destruct Hm.
Qed.

(** The text of an accepted match is shorter than the text it was found
    in. *)
Lemma filteredMatches_shorter : forall text ms,
  filteredMatches text = Some ms ->
  forall m, In m ms -> text <> [] -> List.length (im_text m) < List.length text.
Proof.
  intros text ms H m Hm Hne. unfold filteredMatches, bind in H.
  destruct (find_matches text) as [found|] eqn:Ef; [|discriminate].
  injection H as <-.
  apply filter_overlaps_incl in Hm. destruct Hm as [[]|Hm].
  apply (Permutation_in _ (Permutation_sym (sort_by_start_perm found))) in Hm.
  unfold find_matches, bind in Ef.
  destruct (exec_loop (S (List.length text)) boldRegex text 0) as [bs|] eqn:Eb;
    [|discriminate].
  destruct (exec_loop (S (List.length text)) italicRegex text 0) as [its|] eqn:Ei;
    [|discriminate].
  injection Ef as <-.
  assert (Hpos : 0 < List.length text) by (destruct text; [congruence | simpl; lia]).
  apply in_app_iff in Hm. destruct Hm as [Hm|Hm]; apply in_map_iff in Hm;
    destruct Hm as [m0 [<- Hm0]]; simpl.
  - destruct (exec_loop_matches _ _ _ _ Eb m0 Hm0) as [Hat Hle].
    destruct (group 1 m0) as [s|] eqn:Eg; [|simpl; exact Hpos].
    eapply leading_char_group; eauto.
  - destruct (exec_loop_matches _ _ _ _ Ei m0 Hm0) as [Hat Hle].
    destruct (group 1 m0) as [s|] eqn:Eg; [|simpl; exact Hpos].
    eapply leading_char_group; eauto.
Qed.

Lemma build_parts_total : forall format text ms lastIndex,
  (forall m, In m ms -> format (im_text m) <> None) ->
  build_parts format text ms lastIndex <> None.
Proof.
  intros format text ms. induction ms as [|m ms IH]; intros lastIndex H; simpl.
  - discriminate.
  - unfold bind.
    assert (Hf : format (im_text m) <> None) by (apply H; left; reflexivity).
    assert (Hr : build_parts format text ms (im_end m) <> None)
      by (apply IH; intros m' Hm'; apply H; right; exact Hm').
    destruct (im_type m).
    + destruct (format (im_text m)); [|contradiction].
      destruct (build_parts format text ms (im_end m)); [discriminate | contradiction].
    + destruct (build_parts format text ms (im_end m)); [discriminate | contradiction].
Qed.

Lemma filteredMatches_total : forall text,
  exists ms, filteredMatches text = Some ms.
Proof.
  intro text. destruct (find_matches_total text) as [bs [its [_ [_ [E _]]]]].
  unfold filteredMatches, bind. rewrite E. eexists. reflexivity.
Qed.

Lemma formatInline_total : forall fuel text,
  List.length text < fuel -> formatInline fuel text <> None.
Proof.
  induction fuel as [|fuel IH]; intros text H; [lia|]. simpl.
  destruct text as [|c text]; [discriminate|].
  destruct (filteredMatches_total (c :: text)) as [ms E].
  unfold bind. rewrite E.
  assert (Hb : build_parts (formatInline fuel) (c :: text) ms 0 <> None).
  { apply build_parts_total. intros m Hm. apply IH.
    assert (Hs : List.length (im_text m) < List.length (c :: text)).
    { apply (@filteredMatches_shorter (c :: text) ms E m Hm). discriminate. }
    lia. }
  destruct (build_parts (formatInline fuel) (c :: text) ms 0) as [parts|];
    [|contradiction].
  destruct parts; discriminate.
Qed.

(** [formatInlineMarkdown] returns for every text. *)
Lemma formatInlineMarkdown_total : forall text,
  exists n, formatInlineMarkdown text = Some n.
Proof.
  intro text. unfold formatInlineMarkdown.
  destruct (formatInline (S (List.length text)) text) as [n|] eqn:E;
    [exists n; reflexivity|].
  exfalso. revert E. apply formatInline_total. lia.
Qed.

(* ================================================================= *)
(** ** The mapping as the editor keeps it *)








(** *** The initial assignment *)










(** *** The keys of the mapping *)









(** *** Renaming a participant *)





(** *** The diarization comes first *)

Lemma set_add_grows : forall l x y, In y l -> In y (set_add l x).
Proof.
  intros l x y H. unfold set_add. destruct (set_has l x); [exact H|].
  apply in_app_iff. left. exact H.
Qed.

Lemma segment_label_grows : forall labels seg l,
  segment_label labels seg = Some l -> labels <> [] -> l <> [].
Proof.
  intros labels seg l H Hne. unfold segment_label, bind in H.
  destruct (get seg "speaker"); [|discriminate].
  match type of H with context [nullish ?s] => destruct (nullish s) end.
  - injection H as <-. exact Hne.
  - match type of H with context [String_of ?s] => destruct (String_of s) end;
      [|discriminate].
    injection H as <-. apply set_add_nonempty.
Qed.

Lemma scan_segments_grows : forall segs labels l,
  scan_segments labels segs = Some l -> labels <> [] -> l <> [].
Proof.
  induction segs as [|seg segs IH]; intros labels l H Hne; simpl in H.
  - injection H as <-. exact Hne.
  - unfold bind in H. destruct (segment_label labels seg) as [l1|] eqn:E; [|discriminate].
    eapply IH; [exact H|]. eapply segment_label_grows; eassumption.
Qed.

Lemma segment_label_found : forall labels seg l,
  segment_label labels seg = Some l -> nullish (label_source seg) = false -> l <> [].
Proof.
  intros labels seg l H Hs. unfold segment_label, bind in H.
  destruct (get seg "speaker") as [speaker|] eqn:G; [|discriminate].
  assert (E : speaker = get_opt seg "speaker") by (unfold get_opt; rewrite G; reflexivity).
  subst speaker. fold (label_source seg) in H. rewrite Hs in H.
  destruct (String_of (label_source seg)); [|discriminate].
  injection H as <-. apply set_add_nonempty.
Qed.

Lemma scan_segments_found : forall segs labels l seg,
  scan_segments labels segs = Some l ->
  In seg segs -> nullish (label_source seg) = false -> l <> [].
Proof.
  induction segs as [|s segs IH]; intros labels l seg H Hin Hs; [destruct Hin|].
  simpl in H. unfold bind in H.
  destruct (segment_label labels s) as [l1|] eqn:E; [|discriminate].
  destruct Hin as [->|Hin].
  - eapply scan_segments_grows; [exact H|]. eapply segment_label_found; eassumption.
  - eapply IH; eassumption.
Qed.

(** X4.  When the diarization has a readable segment list in which some
    segment carries a speaker identifier, the labels are those of the
    diarization alone: the transcript is not consulted. *)
Theorem diarization_overrides_transcript :
  forall (C : Canonicalizer) (diarization : value) (seg : value),
    Forall segment_ok (segments_of diarization) ->
    In seg (segments_of diarization) ->
    nullish (label_source seg) = false ->
    exists labels,
      labels <> []
      /\ tier_diarization diarization = Some labels
      /\ (forall transcript,
            speakerLabels C diarization transcript = Some (sort_strings labels)).
Proof.
  intros C diarization seg Hok Hin Hs.
  destruct (@scan_segments_total (segments_of diarization) [] Hok) as [l E].
  assert (Hne : l <> []) by (eapply scan_segments_found; eassumption).
  exists l. split; [exact Hne|]. split; [exact E|].
  intros transcript. unfold speakerLabels, bind, tier_diarization. rewrite E.
  destruct l as [|x l]; [congruence | reflexivity].
Qed.

Lemma diarization_overrides_witness :
  exists labels,
    labels <> []
    /\ tier_diarization (VObject [(js "segments", VArray [VObject [(js "spk", VString (js "A"))]])])
       = Some labels
    /\ (forall transcript,
          speakerLabels canon_basic
            (VObject [(js "segments", VArray [VObject [(js "spk", VString (js "A"))]])])
            transcript = Some (sort_strings labels)).
Proof.
  apply (@diarization_overrides_transcript canon_basic
           (VObject [(js "segments", VArray [VObject [(js "spk", VString (js "A"))]])])
           (VObject [(js "spk", VString (js "A"))])).
  - repeat constructor; vm_compute; discriminate.
  - left. reflexivity.
  - reflexivity.
Defined.

(** *** A transcript without a colon *)

Lemma lang_rseq_snoc : forall rs r w,
  lang (rseq (rs ++ [r])) w -> exists w1 w2, w = w1 ++ w2 /\ lang r w2.
Proof.
  induction rs as [|a rs IH]; intros r w H.
  - exists [], w. split; [reflexivity | exact H].
  - change (rseq ((a :: rs) ++ [r]))
      with (match rs ++ [r] with [] => a | _ => RSeq a (rseq (rs ++ [r])) end) in H.
    destruct (rs ++ [r]) as [|b l] eqn:E; [destruct rs; discriminate|].
    rewrite <- E in H. destruct H as (w1 & w2 & -> & _ & H2).
    apply IH in H2. destruct H2 as (u1 & u2 & -> & L).
    exists (w1 ++ u1), u2. rewrite app_assoc. auto.
Qed.

Lemma in_skipn : forall (A : Type) (x : A) n l, In x (skipn n l) -> In x l.
Proof.
  intros A x n l H. rewrite <- (firstn_skipn n l). apply in_app_iff. right. exact H.
Qed.

Lemma colon_pattern_match : forall (C : Canonicalizer) rs text i m,
  match_at (rseq (rs ++ [chri C 58])) text i = Some m -> In 58%N text.
Proof.
  intros C rs text i m H. apply match_at_spec in H. destruct H as [_ [st' [Hm _]]].
  apply matches_lang in Hm. destruct Hm as [w [[Hr _] L]]. simpl in Hr.
  apply lang_rseq_snoc in L. destruct L as (w1 & w2 & -> & L). chri_inv L.
  apply in_skipn with (n := i). rewrite Hr.
  apply in_app_iff. left. apply in_app_iff. right. left. reflexivity.
Qed.

Lemma colon_pattern_matchAll : forall (C : Canonicalizer) rs text,
  ~ In 58%N text -> matchAll (rseq (rs ++ [chri C 58])) text = [].
Proof.
  intros C rs text H. unfold matchAll. simpl.
  destruct (exec (rseq (rs ++ [chri C 58])) text 0) as [m|] eqn:E; [|reflexivity].
  apply exec_spec in E. destruct E as [_ [_ [E _]]].
  apply colon_pattern_match in E. contradiction.
Qed.

Lemma entry_patterns_colon : forall C label pattern,
  In pattern (entry_patterns C label) ->
  exists rs, pattern = rseq (rs ++ [chri C 58]).
Proof.
  intros C label pattern H. unfold entry_patterns in H.
  destruct H as [<-|[<-|[<-|[<-|[]]]]].
  - exists [re_timing C; re_spiker_id C (speakerId_of C label); RStar true cls_s]. reflexivity.
  - exists [re_timing C; escaped_literal C label; RStar true cls_s]. reflexivity.
  - exists [re_line_start C; RStar true cls_s; re_spiker_id C (speakerId_of C label);
            RStar true cls_s]. reflexivity.
  - exists [re_line_start C; RStar true cls_s; escaped_literal C label; RStar true cls_s].
    reflexivity.
Qed.

Lemma fold_left_fixed : forall (A B : Type) (f : A -> B -> A) (l : list B) (a : A),
  (forall b, In b l -> f a b = a) -> fold_left f l a = a.
Proof.
  intros A B f l a. induction l as [|b l IH]; intros H; simpl; [reflexivity|].
  rewrite (H b) by (left; reflexivity). apply IH.
  intros b' Hb'. apply H. right. exact Hb'.
Qed.

(** X5.  Every pattern of the annotator ends with a colon, so a
    transcript that contains no colon is returned as it is, whatever the
    mapping. *)
Theorem annotator_needs_colon :
  forall (C : Canonicalizer) (mapping : Mapping) (text : jsstring),
    ~ In 58%N text -> applyMappingToTranscript C mapping text = text.
Proof.
  intros C mapping text H. unfold applyMappingToTranscript.
  apply fold_left_fixed. intros [label name] _. unfold apply_entry.
  destruct (negb (nonempty name) || negb (nonempty (trim name))); [reflexivity|].
  apply fold_left_fixed. intros pattern Hp.
  apply entry_patterns_colon in Hp. destruct Hp as [rs ->].
  unfold apply_pattern, replace_all. rewrite colon_pattern_matchAll by exact H.
  reflexivity.
Qed.

Lemma annotator_needs_colon_witness :
  applyMappingToTranscript canon_basic [(js "Спикер A", js "Иван")]
    (js "[00-01] Спикер A - hello") = js "[00-01] Спикер A - hello".
Proof.
  apply (@annotator_needs_colon canon_basic [(js "Спикер A", js "Иван")]
           (js "[00-01] Спикер A - hello")).
  vm_compute. intuition discriminate.
Defined.

(** *** From the label back to the identifier *)

Lemma trimStart_id : forall c s, is_space c = false -> trimStart (c :: s) = c :: s.
Proof. intros c s H. simpl. rewrite H. reflexivity. Qed.

Lemma trim_id : forall s,
  forallb (fun c => negb (is_space c)) s = true -> trim s = s.
Proof.
  intros s H. unfold trim, trimEnd.
  assert (E1 : trimStart s = s).
  { destruct s as [|c s]; [reflexivity|]. simpl in H.
    apply andb_true_iff in H. destruct H as [H _]. apply negb_true_iff in H.
    apply trimStart_id. exact H. }
  rewrite E1.
  assert (E2 : trimStart (rev s) = rev s).
  { destruct (rev s) as [|c r] eqn:E; [reflexivity|].
    apply trimStart_id.
    assert (Hin : In c s) by (apply in_rev; rewrite E; left; reflexivity).
    rewrite forallb_forall in H. apply H in Hin. apply negb_true_iff in Hin. exact Hin. }
  rewrite E2. apply rev_involutive.
Qed.

Lemma upper_alnum_not_space : forall t,
  forallb is_upper_alnum t = true -> forallb (fun c => negb (is_space c)) t = true.
Proof.
  intros t H. rewrite forallb_forall in *. intros c Hc. apply H in Hc.
  unfold is_upper_alnum, is_upper, is_digit in Hc.
  apply orb_true_iff in Hc. apply negb_true_iff.
  destruct (is_space c) eqn:E; [|reflexivity]. exfalso.
  unfold is_space in E. apply existsb_exists in E. destruct E as [x [Hx E]].
  apply N.eqb_eq in E. subst x.
  destruct Hc as [Hc|Hc]; apply andb_true_iff in Hc; destruct Hc as [H1 H2];
    apply N.leb_le in H1; apply N.leb_le in H2;
    simpl in Hx; repeat (destruct Hx as [Hx|Hx]; [subst c; lia|]); destruct Hx.
Qed.

Lemma ci_eq_length : forall C w l, ci_eq C w l -> List.length w = List.length l.
Proof. intros C w l H. induction H; simpl; congruence. Qed.

Lemma ci_eq_refl : forall (C : Canonicalizer) l, ci_eq C l l.
Proof. intros C l. induction l; constructor; auto. Qed.

Lemma app_same_length : forall (A : Type) (a1 a2 b1 b2 : list A),
  a1 ++ b1 = a2 ++ b2 -> List.length a1 = List.length a2 -> a1 = a2 /\ b1 = b2.
Proof.
  induction a1 as [|x a1 IH]; intros [|y a2] b1 b2 H L; simpl in *; try discriminate.
  - auto.
  - injection H as -> H. injection L as L. destruct (IH _ _ _ H L) as [-> ->]. auto.
Qed.

(** [/^Спикер\s+/i] *)
Definition re_spiker_prefix (C : Canonicalizer) : regex :=
  rseq [RBol; liti C Spiker; rplus true cls_s].

(** Where the prefix pattern matches a label made of the word, one space
    and an identifier without spaces, it takes the word and the space. *)
Lemma spiker_prefix_stop : forall (C : Canonicalizer) t st',
  forallb (fun c => negb (is_space c)) t = true ->
  matches (re_spiker_prefix C) (MState 0 (Spiker ++ 32%N :: t) []) st' ->
  pos st' = 7.
Proof.
  intros C t st' Ht H. unfold re_spiker_prefix in H. cbn [rseq] in H.
  apply matches_seq in H. destruct H as [s0 [H0 H]].
  apply matches_bol in H0. destruct H0 as [_ ->].
  apply matches_seq in H. destruct H as [s1 [H1 H2]].
  apply matches_lang in H1. destruct H1 as [w1 [[R1 P1] L1]].
  apply lang_liti in L1. pose proof (ci_eq_length L1) as Len. cbn [rest pos] in R1, P1.
  apply matches_plus_char in H2. destruct H2 as [w2 [[R2 P2] [S2 [N2 _]]]].
  apply app_same_length in R1; [|symmetry; exact Len].
  destruct R1 as [<- R1]. rewrite <- R1 in R2.
  destruct w2 as [|c w2]; [congruence|]. simpl in R2. injection R2 as <- R2.
  destruct w2 as [|c w2].
  - rewrite P2, P1. reflexivity.
  - exfalso. subst t. simpl in Ht, S2.
    apply andb_true_iff in S2. destruct S2 as [S2 _].
    rewrite S2 in Ht. discriminate.
Qed.

Lemma spiker_prefix_found : forall (C : Canonicalizer) t,
  exists st', matches (re_spiker_prefix C) (MState 0 (Spiker ++ 32%N :: t) []) st'.
Proof.
  intros C t. unfold re_spiker_prefix. cbn [rseq].
  destruct (@lang_matches (RSeq (liti C Spiker) (rplus true cls_s)))
    with (w := Spiker ++ [32%N]) (st := MState 0 (Spiker ++ 32%N :: t) []) (tl := t)
    as [st' [M _]].
  - cbn [anchor_free rplus]. rewrite liti_anchor_free. reflexivity.
  - exists Spiker, [32%N]. split; [reflexivity|].
    split; [apply lang_liti; apply ci_eq_refl|].
    apply lang_plus_char. split; [reflexivity | discriminate].
  - cbn [rest]. rewrite <- app_assoc. reflexivity.
  - exists st'. apply matches_seq. exists (MState 0 (Spiker ++ 32%N :: t) []).
    split; [apply matches_bol; auto | exact M].
Qed.

Lemma speakerId_of_prefixed : forall (C : Canonicalizer) t,
  forallb (fun c => negb (is_space c)) t = true ->
  speakerId_of C (Spiker_sp ++ t) = t.
Proof.
  intros C t Ht. unfold speakerId_of. fold (re_spiker_prefix C).
  change (Spiker_sp ++ t) with (Spiker ++ 32%N :: t).
  unfold replace_first, exec. simpl Nat.ltb.
  set (input := Spiker ++ 32%N :: t).
  destruct (match_at (re_spiker_prefix C) input 0) as [m|] eqn:E.
  - assert (Es : search_from (re_spiker_prefix C) input 0 (List.length input - 0) = Some m).
    { destruct (List.length input - 0); simpl; rewrite E; reflexivity. }
    rewrite Es. apply match_at_spec in E. destruct E as [Hi [st' [Hm [Hs _]]]].
    apply spiker_prefix_stop in Hm; [|exact Ht].
    simpl. rewrite Hi, Hs, Hm. simpl. apply trim_id. exact Ht.
  - exfalso. destruct (spiker_prefix_found C t) as [st' Hm].
    apply (proj1 (match_at_none _ _ _) E st'). exact Hm.
Qed.

(** X6.  The extractor gives an identifier of capital letters and digits
    the prefix [Спикер], and the annotator takes the prefix off again: the
    identifier it looks for in the transcript is the identifier the
    diarization gave. *)
Theorem label_identifier_round_trip :
  forall (C : Canonicalizer) (identifier : jsstring),
    test re_token (trim identifier) = true ->
    normalize identifier = Spiker_sp ++ trim identifier
    /\ speakerId_of C (normalize identifier) = trim identifier.
Proof.
  intros C identifier H. rewrite test_re_token_eq in H.
  unfold normalize. cbv zeta. rewrite H. split; [reflexivity|].
  apply andb_true_iff in H. destruct H as [_ H].
  apply speakerId_of_prefixed. apply upper_alnum_not_space. exact H.
Qed.

Lemma label_identifier_witness :
  speakerId_of canon_basic (normalize (js " B2 ")) = js "B2".
Proof.
  apply (@label_identifier_round_trip canon_basic (js " B2 ")).
  vm_compute. reflexivity.
Defined.

(** *** Escaping *)

Lemma is_syntax_char_in : forall c,
  is_syntax_char c = true
  <-> In c [46; 42; 43; 63; 94; 36; 123; 125; 40; 41; 124; 91; 93; 92]%N.
Proof.
  intro c. unfold is_syntax_char. rewrite existsb_exists. split.
  - intros [x [Hx E]]. apply N.eqb_eq in E. subst x. exact Hx.
  - intros H. exists c. split; [exact H | apply N.eqb_refl].
Qed.

Lemma escapeRegExp_count : forall s,
  List.length (escapeRegExp s)
  = List.length s + List.length (filter is_syntax_char s).
Proof.
  induction s as [|c s IH]; simpl; [reflexivity|].
  destruct (is_syntax_char c); simpl; rewrite IH; lia.
Qed.

Lemma escapeRegExp_inj : forall s s', escapeRegExp s' = escapeRegExp s -> s' = s.
Proof.
  induction s as [|c s IH]; intros [|c' s'] E; simpl in E.
  - reflexivity.
  - destruct (is_syntax_char c'); discriminate.
  - destruct (is_syntax_char c); discriminate.
  - destruct (is_syntax_char c) eqn:Hc; destruct (is_syntax_char c') eqn:Hc'.
    + injection E as -> E. f_equal. apply IH. exact E.
    + injection E as -> _. vm_compute in Hc'. discriminate.
    + injection E as <- _. vm_compute in Hc. discriminate.
    + injection E as -> E. f_equal. apply IH. exact E.
Qed.

Lemma escapeRegExp_guarded : forall s u c v,
  escapeRegExp s = u ++ c :: v ->
  is_syntax_char c = true -> c <> 92%N ->
  exists u', u = u' ++ [92%N].
Proof.
  induction s as [|a s IH]; intros u c v E Hc Hb; simpl in E.
  - destruct u; discriminate.
  - destruct (is_syntax_char a) eqn:Ha.
    + destruct u as [|x [|y u]]; simpl in E.
      * injection E as <- _. contradiction.
      * injection E as <- _ _. exists []. reflexivity.
      * injection E as <- <- E. destruct (IH _ _ _ E Hc Hb) as [u' ->].
        exists (92%N :: a :: u'). reflexivity.
    + destruct u as [|x u]; simpl in E.
      * injection E as <- _. congruence.
      * injection E as <- E. destruct (IH _ _ _ E Hc Hb) as [u' ->].
        exists (a :: u'). reflexivity.
Qed.

(** X7.  Escaping loses nothing and touches only the fourteen
    characters of the class: two different texts are never escaped to
    the same pattern text; a text comes back unchanged exactly when it
    has none of the fourteen characters; the result is longer by one
    backslash for each of them; and in the result each of these
    characters other than the backslash stands directly behind a
    backslash. *)
Theorem escapeRegExp_lossless :
  forall s : jsstring,
    (forall s', escapeRegExp s' = escapeRegExp s -> s' = s)
    /\ (escapeRegExp s = s
        <-> forall c, In c s ->
              ~ In c [46; 42; 43; 63; 94; 36; 123; 125; 40; 41; 124; 91; 93; 92]%N)
    /\ List.length (escapeRegExp s)
       = List.length s
         + List.length
             (filter (fun c => existsb (N.eqb c)
                        [46; 42; 43; 63; 94; 36; 123; 125; 40; 41; 124; 91; 93; 92]%N) s)
    /\ (forall u c v,
          escapeRegExp s = u ++ c :: v ->
          In c [46; 42; 43; 63; 94; 36; 123; 125; 40; 41; 124; 91; 93]%N ->
          exists u', u = u' ++ [92%N]).
Proof.
  intro s. split; [intro s'; apply escapeRegExp_inj|]. split; [|split].
  - split.
    + intros E c Hc Hs. apply is_syntax_char_in in Hs.
      pose proof (escapeRegExp_count s) as L. rewrite E in L.
      assert (In c (filter is_syntax_char s)) by (apply filter_In; split; assumption).
      destruct (filter is_syntax_char s); [contradiction | simpl in L; lia].
    + intros H. induction s as [|c s IH]; [reflexivity|]. simpl.
      destruct (is_syntax_char c) eqn:Hc.
      * exfalso. apply (H c (or_introl eq_refl)). apply is_syntax_char_in. exact Hc.
      * f_equal. apply IH. intros x Hx. apply H. right. exact Hx.
  - apply escapeRegExp_count.
  - intros u c v E Hc. eapply escapeRegExp_guarded; [exact E| |].
    + apply is_syntax_char_in. simpl in *. tauto.
    + intro Hb. subst c. simpl in Hc.
      repeat (destruct Hc as [Hc|Hc]; [discriminate|]). exact Hc.
Qed.

(* ================================================================= *)
(** ** The rule of the three scans *)

Lemma set_add_in : forall l x, In x (set_add l x).
Proof.
  intros l x. unfold set_add. destruct (set_has l x) eqn:E.
  - apply set_has_in. exact E.
  - apply in_app_iff. right. left. reflexivity.
Qed.

Lemma set_add_inv : forall l x y, In y (set_add l x) -> In y l \/ y = x.
Proof.
  intros l x y H. unfold set_add in H. destruct (set_has l x); [left; exact H|].
  apply in_app_iff in H. destruct H as [H|[H|[]]]; [left; exact H | right; auto].
Qed.

(** The values the runtime prints as [String_of] does: every number in
    them is an integer below 2^53 in absolute value. *)
Fixpoint exact_numbers (v : value) : bool :=
  match v with
  | VNumber z => Z.ltb (Z.abs z) (2 ^ 53)
  | VArray items => forallb exact_numbers items
  | _ => true
  end.

(** What the first scan does with a segment that carries an identifier. *)
Lemma segment_label_normalize : forall labels seg str l,
  segment_label labels seg = Some l ->
  nullish (label_source seg) = false ->
  String_of (label_source seg) = Some str ->
  l = set_add labels (normalize str).
Proof.
  intros labels seg str l H Hs Hstr. unfold segment_label, bind in H.
  destruct (get seg "speaker") as [speaker|] eqn:G; [|discriminate].
  assert (E : speaker = get_opt seg "speaker") by (unfold get_opt; rewrite G; reflexivity).
  subst speaker. fold (label_source seg) in H. rewrite Hs, Hstr in H.
  rewrite test_re_token_eq in H. injection H as <-. reflexivity.
Qed.

Lemma segment_label_keeps : forall labels seg l y,
  segment_label labels seg = Some l -> In y labels -> In y l.
Proof.
  intros labels seg l y H Hy. unfold segment_label, bind in H.
  destruct (get seg "speaker"); [|discriminate].
  match type of H with context [nullish ?s] => destruct (nullish s) end.
  - injection H as <-. exact Hy.
  - match type of H with context [String_of ?s] => destruct (String_of s) end;
      [|discriminate].
    injection H as <-. apply set_add_grows. exact Hy.
Qed.

Lemma scan_segments_keeps : forall segs labels l y,
  scan_segments labels segs = Some l -> In y labels -> In y l.
Proof.
  induction segs as [|seg segs IH]; intros labels l y H Hy; simpl in H.
  - injection H as <-. exact Hy.
  - unfold bind in H. destruct (segment_label labels seg) as [l1|] eqn:E; [|discriminate].
    eapply IH; [exact H|]. eapply segment_label_keeps; eassumption.
Qed.

Lemma scan_segments_has : forall segs labels l seg str,
  scan_segments labels segs = Some l ->
  In seg segs -> nullish (label_source seg) = false ->
  String_of (label_source seg) = Some str ->
  In (normalize str) l.
Proof.
  induction segs as [|s segs IH]; intros labels l seg str H Hin Hs Hstr; [destruct Hin|].
  simpl in H. unfold bind in H.
  destruct (segment_label labels s) as [l1|] eqn:E; [|discriminate].
  destruct Hin as [->|Hin].
  - eapply scan_segments_keeps; [exact H|].
    rewrite (segment_label_normalize _ _ E Hs Hstr). apply set_add_in.
  - eapply IH; eassumption.
Qed.

(** Two identifiers of one length that differ get different labels. *)
Lemma normalize_apart : forall s1 s2,
  List.length (trim s1) = List.length (trim s2) -> trim s1 <> trim s2 ->
  normalize s1 <> normalize s2.
Proof.
  intros s1 s2 Hl Hne. unfold normalize.
  destruct (nonempty (trim s1) && forallb is_upper_alnum (trim s1));
    destruct (nonempty (trim s2) && forallb is_upper_alnum (trim s2)); intro E.
  - apply app_inv_head in E. contradiction.
  - apply (f_equal (@List.length N)) in E. rewrite length_app in E.
    change (List.length Spiker_sp) with 7 in E. lia.
  - apply (f_equal (@List.length N)) in E. rewrite length_app in E.
    change (List.length Spiker_sp) with 7 in E. lia.
  - contradiction.
Qed.

(** The labels a fold of [set_add] leaves. *)
Lemma fold_set_add_in : forall (A : Type) (f : A -> jsstring) xs acc l,
  In l (fold_left (fun ls x => set_add ls (f x)) xs acc)
  <-> In l acc \/ exists x, In x xs /\ l = f x.
Proof.
  intros A f. induction xs as [|x xs IH]; intros acc l; simpl.
  - split; [auto | intros [H|[x [[] _]]]; exact H].
  - rewrite IH. split.
    + intros [H|[y [Hy E]]].
      * apply set_add_inv in H. destruct H as [H|H]; [left; exact H|].
        right. exists x. split; [left; reflexivity | exact H].
      * right. exists y. split; [right; exact Hy | exact E].
    + intros [H|[y [[<-|Hy] E]]].
      * left. apply set_add_grows. exact H.
      * left. subst l. apply set_add_in.
      * right. exists y. split; assumption.
Qed.

Lemma tier_simple_in : forall (C : Canonicalizer) transcript l,
  In l (tier_simple C transcript)
  <-> exists pattern m,
        In pattern (simplePatterns C) /\ In m (matchAll pattern transcript)
        /\ l = trim (match_text transcript m).
Proof.
  intros C transcript l. unfold tier_simple.
  assert (G : forall ps acc,
            In l (fold_left (simple_pattern_labels transcript) ps acc)
            <-> In l acc \/ exists pattern m,
                  In pattern ps /\ In m (matchAll pattern transcript)
                  /\ l = trim (match_text transcript m)).
  { induction ps as [|p ps IH]; intros acc; simpl.
    - split; [auto | intros [H|[p [m [[] _]]]]; exact H].
    - rewrite IH. unfold simple_pattern_labels at 1. rewrite fold_set_add_in. split.
      + intros [[H|[m [Hm E]]]|[q [m [Hq [Hm E]]]]].
        * left. exact H.
        * right. exists p, m. split; [left; reflexivity | split; assumption].
        * right. exists q, m. split; [right; exact Hq | split; assumption].
      + intros [H|[q [m [[<-|Hq] [Hm E]]]]].
        * left. left. exact H.
        * left. right. exists m. split; assumption.
        * right. exists q, m. split; [exact Hq | split; assumption]. }
  rewrite G. split; [intros [[]|H]; exact H | intro H; right; exact H].
Qed.

Lemma trimStart_suffix : forall s, exists u, s = u ++ trimStart s.
Proof.
  induction s as [|c s [u IH]]; [exists []; reflexivity|]. simpl.
  destruct (is_space c); [|exists []; reflexivity].
  exists (c :: u). simpl. f_equal. exact IH.
Qed.

Lemma trim_infix : forall s, exists u v, s = u ++ trim s ++ v.
Proof.
  intro s. destruct (trimStart_suffix s) as [u Hu].
  destruct (trimStart_suffix (rev (trimStart s))) as [w Hw].
  exists u, (rev w). unfold trim, trimEnd.
  rewrite <- rev_app_distr, <- Hw, rev_involutive. exact Hu.
Qed.

Lemma substring_infix : forall s a b, exists u v, s = u ++ substring s a b ++ v.
Proof.
  intros s a b. unfold substring.
  exists (firstn a s), (skipn (b - a) (skipn a s)).
  rewrite firstn_skipn. symmetry. apply firstn_skipn.
Qed.

(** C3, as the code has it.  The test against [^[A-Z0-9]+$] is case
    sensitive.  The scan of the diarization segments and the scan of the
    timestamp-prefixed transcript lines apply one rule to the identifier
    they read (for a segment, the text [String] makes of it, be it a
    string, a number or another value): trimmed, it gets the prefix when
    it consists of upper-case letters and digits, and is the label as it
    is otherwise.  The scan with the simple patterns takes the matched
    text, trimmed, without this rule: its labels are exactly the trimmed
    texts of the matches, and each of them stands letter for letter in
    the transcript.  Under the rule two identifiers that are equal up to
    letter case and not equal get different labels, and where two
    segments carry such identifiers the extractor returns both labels. *)
Theorem C3_normalisation_rule :
  forall C : Canonicalizer,
    (forall t, test re_token t = true <-> t <> [] /\ forallb is_upper_alnum t = true)
    /\ (forall labels seg str,
          nullish seg = false -> nullish (label_source seg) = false ->
          exact_numbers (label_source seg) = true ->
          String_of (label_source seg) = Some str ->
          segment_label labels seg = Some (set_add labels (normalize str)))
    /\ (forall labels m,
          designation m <> [] ->
          transcript_match_label labels m = set_add labels (normalize (designation m)))
    /\ (forall transcript l,
          In l (tier_simple C transcript)
          <-> exists pattern m,
                In pattern (simplePatterns C) /\ In m (matchAll pattern transcript)
                /\ l = trim (match_text transcript m))
    /\ (forall transcript l,
          In l (tier_simple C transcript) -> exists u v, transcript = u ++ l ++ v)
    /\ (forall s1 s2,
          ci_eq C (trim s1) (trim s2) -> trim s1 <> trim s2 ->
          normalize s1 <> normalize s2)
    /\ (forall diarization transcript seg1 seg2 s1 s2 result,
          speakerLabels C diarization transcript = Some result ->
          In seg1 (segments_of diarization) -> In seg2 (segments_of diarization) ->
          nullish (label_source seg1) = false -> nullish (label_source seg2) = false ->
          exact_numbers (label_source seg1) = true ->
          exact_numbers (label_source seg2) = true ->
          String_of (label_source seg1) = Some s1 ->
          String_of (label_source seg2) = Some s2 ->
          ci_eq C (trim s1) (trim s2) -> trim s1 <> trim s2 ->
          In (normalize s1) result /\ In (normalize s2) result
          /\ normalize s1 <> normalize s2).
Proof.
  intros C. split; [exact re_token_spec|].
  split; [|split; [|split; [|split; [|split]]]].
  - intros labels seg str Hn Hs _ Hstr.
    assert (Hok : segment_ok seg) by (split; [exact Hn | congruence]).
    destruct (@segment_label_total labels seg Hok) as [l E].
    rewrite E. f_equal. exact (segment_label_normalize _ _ E Hs Hstr).
  - intros labels m Hd. unfold transcript_match_label. fold (designation m).
    destruct (designation m) as [|c d] eqn:E; [contradiction|].
    rewrite test_re_token_eq. unfold normalize.
    destruct (nonempty (trim (c :: d)) && forallb is_upper_alnum (trim (c :: d)));
      reflexivity.
  - apply tier_simple_in.
  - intros transcript l H. apply tier_simple_in in H.
    destruct H as [pattern [m [_ [_ ->]]]].
    destruct (substring_infix transcript (m_index m) (m_stop m)) as [u [v E]].
    destruct (trim_infix (match_text transcript m)) as [u' [v' E']].
    exists (u ++ u'), (v' ++ v). fold (match_text transcript m) in E.
    rewrite E at 1. rewrite E' at 1. rewrite <- !app_assoc. reflexivity.
  - intros s1 s2 Hci Hne. apply normalize_apart; [|exact Hne].
    eapply ci_eq_length. exact Hci.
  - intros diarization transcript seg1 seg2 s1 s2 result H H1 H2 N1 N2 _ _ S1 S2 Hci Hne.
    unfold speakerLabels, bind in H.
    destruct (tier_diarization diarization) as [l1|] eqn:E; [|discriminate].
    unfold tier_diarization in E.
    assert (I1 : In (normalize s1) l1)
      by (eapply scan_segments_has; [exact E | exact H1 | exact N1 | exact S1]).
    assert (I2 : In (normalize s2) l1)
      by (eapply scan_segments_has; [exact E | exact H2 | exact N2 | exact S2]).
    destruct l1 as [|x l1]; [destruct I1|].
    injection H as <-.
    split; [apply (proj2 (sort_strings_in (x :: l1) _)); exact I1|].
    split; [apply (proj2 (sort_strings_in (x :: l1) _)); exact I2|].
    apply normalize_apart; [|exact Hne]. eapply ci_eq_length. exact Hci.
Qed.

Lemma C3_witness :
  segment_label [js "Спикер A"] (VObject [(js "spk", VNumber 1)])
  = Some [js "Спикер A"; js "Спикер 1"]
  /\ normalize (js " B ") <> normalize (js "b").
Proof.
  destruct (C3_normalisation_rule canon_basic) as [_ [H [_ [_ [_ [K _]]]]]].
  split.
  - rewrite (H [js "Спикер A"] (VObject [(js "spk", VNumber 1)]) (js "1"));
      vm_compute; reflexivity.
  - apply K.
    + vm_compute. repeat constructor.
    + vm_compute. discriminate.
Defined.

(* ================================================================= *)
(** ** The stored roster *)

Import PermanentParticipants.

Lemma isValid_permanent : forall p, isValid p = true -> is_permanent p = true.
Proof.
  intros p H. unfold isValid in H. unfold is_permanent.
  repeat (apply andb_true_iff in H; destruct H as [H ?]).
  apply andb_true_iff. auto.
Qed.

Lemma filter_filter : forall (A : Type) (f g : A -> bool) l,
  (forall x, f x = true -> g x = true) ->
  filter f (filter g l) = filter f l.
Proof.
  intros A f g l H. induction l as [|x l IH]; simpl; [reflexivity|].
  destruct (g x) eqn:G; simpl.
  - rewrite IH. reflexivity.
  - destruct (f x) eqn:F; [|exact IH]. apply H in F. congruence.
Qed.

(** X8.  What was saved is what is loaded: where the storage takes the
    text and the text reads back as the array that was written, loading
    after saving gives the participants of the saved list that are
    permanent and have a name and an identifier, in their order, and
    leaves the storage as it is. *)
Theorem saved_roster_is_loaded :
  forall JSON_stringify JSON_parse has_room (participants : list value) store,
    let permanentOnly := filter is_permanent participants in
    let text := JSON_stringify (VArray permanentOnly) in
    permanentOnly <> [] ->
    text <> [] -> has_room text = true ->
    JSON_parse text = Some (VArray permanentOnly) ->
    let saved := savePermanentParticipants JSON_stringify has_room
                   (VArray participants) store in
    saved = Some text
    /\ loadPermanentParticipants JSON_parse saved
       = (filter isValid participants, saved).
Proof.
  intros JSON_stringify JSON_parse has_room participants store permanentOnly text
         Hne Htext Hroom Hparse saved.
  assert (E : saved = Some text).
  { subst saved. unfold savePermanentParticipants.
    destruct participants as [|p ps]; [contradiction Hne; reflexivity|].
    fold permanentOnly. destruct permanentOnly as [|q qs] eqn:Eq; [congruence|].
    fold text. rewrite Hroom. reflexivity. }
  split; [exact E|]. rewrite E. unfold loadPermanentParticipants.
  destruct text as [|c s]; [congruence|]. rewrite Hparse.
  f_equal. subst permanentOnly. apply filter_filter. apply isValid_permanent.
Qed.

Definition roster_text : jsstring :=
  js "[{'id':'1','name':'Иван','role':'PM','type':'permanent'}]".

Lemma saved_roster_witness :
  loadPermanentParticipants (fun _ => Some (VArray [participant_value ivan]))
    (savePermanentParticipants (fun _ => roster_text) (fun _ => true)
       (VArray [participant_value ivan; participant_value anna]) None)
  = ([participant_value ivan], Some roster_text).
Proof.
  apply (@saved_roster_is_loaded (fun _ => roster_text)
           (fun _ => Some (VArray [participant_value ivan])) (fun _ => true)
           [participant_value ivan; participant_value anna] None).
  - vm_compute. discriminate.
  - vm_compute. discriminate.
  - reflexivity.
  - reflexivity.
Defined.

(** X9.  Saving never clears the storage and never stores a list without
    a permanent participant: a list that is empty, is no array or has no
    permanent participant leaves the storage as it was, so that the
    roster saved before is still the one that is loaded. *)
Theorem save_keeps_previous_roster :
  forall JSON_stringify JSON_parse has_room (participants : value) store,
    (forall items, participants = VArray items ->
                   forall p, In p items -> is_permanent p = false) ->
    savePermanentParticipants JSON_stringify has_room participants store = store
    /\ loadPermanentParticipants JSON_parse
         (savePermanentParticipants JSON_stringify has_room participants store)
       = loadPermanentParticipants JSON_parse store.
Proof.
  intros JSON_stringify JSON_parse has_room participants store H.
  assert (E : savePermanentParticipants JSON_stringify has_room participants store = store).
  { unfold savePermanentParticipants. destruct participants as [| | | | |items|]; try reflexivity.
    destruct items as [|p ps]; [reflexivity|].
    assert (F : filter is_permanent (p :: ps) = []).
    { specialize (H (p :: ps) eq_refl). clear - H.
      induction (p :: ps) as [|x l IH]; [reflexivity|]. simpl.
      rewrite (H x) by (left; reflexivity). apply IH.
      intros y Hy. apply H. right. exact Hy. }
    rewrite F. reflexivity. }
  rewrite E. split; reflexivity.
Qed.

Lemma save_keeps_witness :
  savePermanentParticipants (fun _ => roster_text) (fun _ => true)
    (VArray [participant_value anna]) (Some roster_text) = Some roster_text.
Proof.
  apply (@save_keeps_previous_roster (fun _ => roster_text)
           (fun _ => Some (VArray [participant_value ivan])) (fun _ => true)
           (VArray [participant_value anna]) (Some roster_text)).
  intros items E p Hin. injection E as <-. destruct Hin as [<-|[]]. reflexivity.
Defined.

(** X10.  Loading is safe on any storage: every participant it returns
    is an object of type [permanent] with a name and an identifier; a
    stored text that does not parse, or parses to something that is no
    array, is removed and gives the empty list; and loading again gives
    the same list and leaves the storage as the first load left it. *)
Theorem load_validates_and_repairs :
  forall JSON_parse (store : Storage),
    Forall (fun p => isValid p = true)
           (fst (loadPermanentParticipants JSON_parse store))
    /\ (forall stored,
          store = Some stored -> stored <> [] ->
          (forall items, JSON_parse stored <> Some (VArray items)) ->
          loadPermanentParticipants JSON_parse store = ([], None))
    /\ loadPermanentParticipants JSON_parse
         (snd (loadPermanentParticipants JSON_parse store))
       = loadPermanentParticipants JSON_parse store
    /\ (snd (loadPermanentParticipants JSON_parse store) = store
        \/ snd (loadPermanentParticipants JSON_parse store) = None).
Proof.
  intros JSON_parse store. unfold loadPermanentParticipants.
  destruct store as [[|c s]|].
  - simpl. split; [constructor|]. split; [|auto].
    intros stored E Hne. injection E as <-. congruence.
  - destruct (JSON_parse (c :: s)) as [v|] eqn:E.
    + destruct v as [| | | | |items|]; simpl;
        try (split; [constructor|]; split; [reflexivity | auto]).
      split; [|split; [|rewrite E; auto]].
      * apply Forall_forall. intros p Hp. apply filter_In in Hp. apply Hp.
      * intros stored Es _ Hna. injection Es as <-. exfalso. apply (Hna items). exact E.
    + simpl. split; [constructor|]. split; [reflexivity | auto].
  - simpl. split; [constructor|]. split; [|auto]. intros stored E. discriminate.
Qed.

Lemma load_repairs_witness :
  loadPermanentParticipants (fun _ => None) (Some (js "{broken")) = ([], None).
Proof.
  destruct (@load_validates_and_repairs (fun _ => None) (Some (js "{broken")))
    as [_ [H _]].
  apply (H (js "{broken")).
  - reflexivity.
  - vm_compute. discriminate.
  - intros items. discriminate.
Defined.

(* ================================================================= *)
(** ** The inline formatter loses no text *)

(** The markdown a node was made from: a bold node in two asterisks on
    each side, an italic node in underscores, everything else as it
    is. *)
Fixpoint source_of (n : node) : jsstring :=
  match n with
  | NNull => []
  | NText s => s
  | NSpan s => s
  | NEm s => 95%N :: s ++ [95%N]
  | NStrong c => 42%N :: 42%N :: source_of c ++ [42; 42]%N
  | NFragment parts => List.concat (map source_of parts)
  end.

Definition marker (t : mtype) : jsstring :=
  match t with bold => [42; 42]%N | italic => [95%N] end.

(** A match lies where the text has its markers around its text. *)
Definition delimited (text : jsstring) (m : imatch) : Prop :=
  substring text (im_start m) (im_end m)
  = marker (im_type m) ++ im_text m ++ marker (im_type m).

Lemma firstn_app_exact : forall (A : Type) (l1 l2 : list A),
  firstn (List.length l1) (l1 ++ l2) = l1.
Proof.
  intros A l1 l2. rewrite firstn_app, Nat.sub_diag, firstn_all. simpl.
  apply app_nil_r.
Qed.

Lemma bold_match_delimited : forall text i m,
  match_at boldRegex text i = Some m -> delimited text (to_imatch bold m).
Proof.
  intros text i m H. apply match_at_spec in H.
  destruct H as [Hi [st' [Hm [Hs Hc]]]].
  unfold boldRegex in Hm. cbn [rseq] in Hm.
  apply matches_seq in Hm. destruct Hm as [s1 [H1 Hm]].
  apply matches_char in H1. destruct H1 as [c1 [t1 [R1 [P1 ->]]]].
  apply N.eqb_eq in P1. subst c1.
  apply matches_seq in Hm. destruct Hm as [s2 [H2 Hm]].
  apply matches_char in H2. destruct H2 as [c2 [t2 [R2 [P2 ->]]]].
  apply N.eqb_eq in P2. subst c2.
  apply matches_seq in Hm. destruct Hm as [s3 [H3 Hm]].
  apply matches_group in H3. destruct H3 as [g [Hg ->]].
  apply matches_plus_char in Hg. destruct Hg as [w [[Rw Pw] [_ [_ Cw]]]].
  apply matches_seq in Hm. destruct Hm as [s4 [H4 H5]].
  apply matches_char in H4. destruct H4 as [c4 [t4 [R4 [P4 ->]]]].
  apply N.eqb_eq in P4. subst c4.
  apply matches_char in H5. destruct H5 as [c5 [t5 [R5 [P5 ->]]]].
  apply N.eqb_eq in P5. subst c5.
  cbn [pos rest caps] in *.
  unfold delimited, to_imatch, group, substring. cbn [im_start im_end im_type im_text marker].
  rewrite Hi, Hs, Hc. cbn [pos caps cap_lookup Nat.eqb].
  rewrite R1, R2, Rw, R4, R5, Pw.
  replace (S (S i) + List.length w - S (S i)) with (List.length w) by lia.
  rewrite firstn_app_exact.
  replace (S (S (S (S i) + List.length w)) - i)
    with (List.length (42%N :: 42%N :: w ++ [42; 42]%N))
    by (cbn [List.length]; rewrite length_app; cbn [List.length]; lia).
  replace (42%N :: 42%N :: w ++ 42%N :: 42%N :: t5)
    with ((42%N :: 42%N :: w ++ [42; 42]%N) ++ t5)
    by (simpl; rewrite <- app_assoc; reflexivity).
  rewrite firstn_app_exact. reflexivity.
Qed.

Lemma italic_match_delimited : forall text i m,
  match_at italicRegex text i = Some m -> delimited text (to_imatch italic m).
Proof.
  intros text i m H. apply match_at_spec in H.
  destruct H as [Hi [st' [Hm [Hs Hc]]]].
  unfold italicRegex in Hm. cbn [rseq] in Hm.
  apply matches_seq in Hm. destruct Hm as [s1 [H1 Hm]].
  apply matches_char in H1. destruct H1 as [c1 [t1 [R1 [P1 ->]]]].
  apply N.eqb_eq in P1. subst c1.
  apply matches_seq in Hm. destruct Hm as [s3 [H3 H5]].
  apply matches_group in H3. destruct H3 as [g [Hg ->]].
  apply matches_plus_char in Hg. destruct Hg as [w [[Rw Pw] [_ [_ Cw]]]].
  apply matches_char in H5. destruct H5 as [c5 [t5 [R5 [P5 ->]]]].
  apply N.eqb_eq in P5. subst c5.
  cbn [pos rest caps] in *.
  unfold delimited, to_imatch, group, substring. cbn [im_start im_end im_type im_text marker].
  rewrite Hi, Hs, Hc. cbn [pos caps cap_lookup Nat.eqb].
  rewrite R1, Rw, R5, Pw.
  replace (S i + List.length w - S i) with (List.length w) by lia.
  rewrite firstn_app_exact.
  replace (S (S i + List.length w) - i)
    with (List.length (95%N :: w ++ [95%N]))
    by (cbn [List.length]; rewrite length_app; cbn [List.length]; lia).
  replace (95%N :: w ++ 95%N :: t5)
    with ((95%N :: w ++ [95%N]) ++ t5)
    by (simpl; rewrite <- app_assoc; reflexivity).
  rewrite firstn_app_exact. reflexivity.
Qed.

(** The accepted matches, one after the other from an offset on. *)
Fixpoint well_placed (text : jsstring) (from : nat) (ms : list imatch) : Prop :=
  match ms with
  | [] => True
  | m :: tl =>
      from <= im_start m /\ im_start m < im_end m /\ delimited text m
      /\ well_placed text (im_end m) tl
  end.

Lemma well_placed_of_sorted : forall text ms,
  StronglySorted by_start ms -> ForallOrdPairs apart ms ->
  Forall proper ms -> Forall (delimited text) ms ->
  forall from, (forall m, In m ms -> from <= im_start m) ->
  well_placed text from ms.
Proof.
  intros text ms Hs. induction Hs as [|m ms Hs IH Hall]; intros Hap Hpr Hd from Hfrom.
  - exact I.
  - inversion Hap as [|? ? Ha Hap']; subst.
    inversion Hpr as [|? ? Hp Hpr']; subst.
    inversion Hd as [|? ? Hdm Hd']; subst.
    simpl. split; [apply Hfrom; left; reflexivity|]. split; [exact Hp|].
    split; [exact Hdm|]. apply IH; auto.
    intros m' Hm'. rewrite Forall_forall in Hall, Ha, Hpr'.
    specialize (Hall m' Hm'). specialize (Ha m' Hm'). specialize (Hpr' m' Hm').
    unfold apart in Ha. unfold by_start in Hall.
    destruct (Nat.le_gt_cases (im_end m) (im_start m')) as [Hle|Hgt]; [exact Hle|].
    exfalso.
    assert (Hi : intersects m' m) by (unfold intersects, proper in *; lia).
    apply (overlaps_intersects Hpr' Hp) in Hi. congruence.
Qed.

Lemma filteredMatches_placed : forall text ms,
  filteredMatches text = Some ms -> well_placed text 0 ms.
Proof.
  intros text ms H. unfold filteredMatches, bind in H.
  destruct (find_matches_total text) as [bs [its [Eb [Ei [Ef [Cb Ci]]]]]].
  rewrite Ef in H. injection H as <-.
  set (found := map (to_imatch bold) bs ++ map (to_imatch italic) its).
  assert (Hin : forall x, In x (filter_overlaps (sort_by_start found) []) -> In x found).
  { intros x Hx. apply filter_overlaps_incl in Hx. destruct Hx as [[]|Hx].
    apply (Permutation_in _ (Permutation_sym (sort_by_start_perm found))). exact Hx. }
  assert (Hproper : Forall proper found).
  { apply Forall_app. split; eapply chain_proper; eassumption. }
  assert (Hdel : Forall (delimited text) found).
  { apply Forall_app. split; apply Forall_forall; intros x Hx;
      apply in_map_iff in Hx; destruct Hx as [m [<- Hm]].
    - destruct (exec_loop_matches _ _ _ _ Eb m Hm) as [Hat _].
      eapply bold_match_delimited; exact Hat.
    - destruct (exec_loop_matches _ _ _ _ Ei m Hm) as [Hat _].
      eapply italic_match_delimited; exact Hat. }
  apply well_placed_of_sorted.
  - apply filter_overlaps_sorted. simpl. apply sort_by_start_sorted.
  - apply filter_overlaps_apart. constructor.
  - apply Forall_forall. intros x Hx. rewrite Forall_forall in Hproper. auto.
  - apply Forall_forall. intros x Hx. rewrite Forall_forall in Hdel. auto.
  - intros m _. lia.
Qed.

Lemma skipn_split : forall (A : Type) (l : list A) a b,
  a <= b -> skipn a l = firstn (b - a) (skipn a l) ++ skipn b l.
Proof.
  intros A l a b H. replace (skipn b l) with (skipn (b - a) (skipn a l)).
  - symmetry. apply firstn_skipn.
  - rewrite skipn_skipn. f_equal. lia.
Qed.

Lemma span_source : forall s,
  List.concat (map source_of (match s with [] => [] | c :: r => [NSpan (c :: r)] end)) = s.
Proof. intros [|c s]; simpl; [reflexivity | rewrite app_nil_r; reflexivity]. Qed.

Lemma build_parts_source : forall (format : jsstring -> option node) text,
  (forall s n, format s = Some n -> source_of n = s) ->
  forall ms lastIndex parts,
    well_placed text lastIndex ms ->
    build_parts format text ms lastIndex = Some parts ->
    List.concat (map source_of parts) = skipn lastIndex text.
Proof.
  intros format text Hf ms. induction ms as [|m ms IH]; intros lastIndex parts Hw H.
  - simpl in H. injection H as <-.
    destruct (Nat.ltb_spec lastIndex (List.length text)).
    + apply (span_source (substring_from text lastIndex)).
    + simpl. symmetry. apply skipn_all2. exact H.
  - simpl in Hw. destruct Hw as [Hfrom [Hlt [Hd Hw]]].
    simpl in H. unfold bind in H.
    destruct (match im_type m with
              | bold => match format (im_text m) with
                        | Some inner => Some (NStrong inner)
                        | None => None
                        end
              | italic => Some (NEm (im_text m))
              end) as [formatted|] eqn:Efm; [|discriminate].
    destruct (build_parts format text ms (im_end m)) as [others|] eqn:Eo; [|discriminate].
    injection H as <-.
    rewrite map_app, concat_app. simpl. rewrite (IH _ _ Hw Eo).
    assert (Eb : List.concat
                   (map source_of
                      (if Nat.ltb lastIndex (im_start m)
                       then match substring text lastIndex (im_start m) with
                            | [] => []
                            | plainText => [NSpan plainText]
                            end
                       else []))
                 = substring text lastIndex (im_start m)).
    { destruct (Nat.ltb_spec lastIndex (im_start m)).
      - apply (span_source (substring text lastIndex (im_start m))).
      - unfold substring. replace (im_start m - lastIndex) with 0 by lia. reflexivity. }
    rewrite Eb.
    assert (Es : source_of formatted = substring text (im_start m) (im_end m)).
    { rewrite Hd. destruct (im_type m); simpl.
      - destruct (format (im_text m)) as [inner|] eqn:Ei; [|discriminate].
        injection Efm as <-. simpl. rewrite (Hf _ _ Ei). reflexivity.
      - injection Efm as <-. reflexivity. }
    rewrite Es. unfold substring. symmetry.
    etransitivity; [apply (@skipn_split _ text lastIndex (im_start m) Hfrom)|].
    f_equal. apply skipn_split. lia.
Qed.

Lemma formatInline_source : forall fuel text n,
  formatInline fuel text = Some n -> source_of n = text.
Proof.
  induction fuel as [|fuel IH]; intros text n H; [discriminate|].
  simpl in H. destruct text as [|c text]; [injection H as <-; reflexivity|].
  unfold bind in H.
  destruct (filteredMatches (c :: text)) as [ms|] eqn:Em; [|discriminate].
  destruct (build_parts (formatInline fuel) (c :: text) ms 0) as [parts|] eqn:Eb;
    [|discriminate].
  pose proof (@build_parts_source (formatInline fuel) (c :: text) IH ms 0 parts
                (filteredMatches_placed _ Em) Eb) as Hs.
  destruct parts; injection H as <-; [reflexivity | exact Hs].
Qed.

Lemma build_parts_nonempty : forall format text ms parts,
  text <> [] -> build_parts format text ms 0 = Some parts -> parts <> [].
Proof.
  intros format text ms parts Hne H. destruct ms as [|m ms]; simpl in H.
  - injection H as <-. destruct text as [|c text]; [congruence|]. simpl. discriminate.
  - unfold bind in H.
    destruct (match im_type m with
              | bold => match format (im_text m) with
                        | Some inner => Some (NStrong inner)
                        | None => None
                        end
              | italic => Some (NEm (im_text m))
              end); [|discriminate].
    destruct (build_parts format text ms (im_end m)); [|discriminate].
    injection H as <-. apply not_eq_sym. apply app_cons_not_nil.
Qed.

(** X11.  The inline formatter returns for every text, and what it
    returns holds the whole text: putting the markers back around the
    bold and the italic parts gives the text again.  For the empty text
    it returns [null]; for any other text it returns a fragment with at
    least one part, never the bare string. *)
Theorem inline_formatter_keeps_text :
  forall text : jsstring,
    exists n,
      formatInlineMarkdown text = Some n
      /\ source_of n = text
      /\ (text = [] -> n = NNull)
      /\ (text <> [] -> exists parts, n = NFragment parts /\ parts <> []).
Proof.
  intros text. unfold formatInlineMarkdown.
  destruct (formatInline (S (List.length text)) text) as [n|] eqn:E.
  - exists n. split; [reflexivity|]. split; [eapply formatInline_source; exact E|].
    split.
    + intros ->. simpl in E. injection E as <-. reflexivity.
    + intros Hne. simpl in E. destruct text as [|c text]; [congruence|].
      unfold bind in E.
      destruct (filteredMatches (c :: text)) as [ms|]; [|discriminate].
      destruct (build_parts (formatInline (List.length (c :: text))) (c :: text) ms 0)
        as [parts|] eqn:Eb; [|discriminate].
      pose proof (@build_parts_nonempty _ _ _ _ Hne Eb) as Hp.
      destruct parts as [|p parts]; [congruence|].
      injection E as <-. exists (p :: parts). split; [reflexivity | discriminate].
  - exfalso. revert E. apply formatInline_total. lia.
Qed.

(* ================================================================= *)
(** ** What the inline formatter finds and what it renders *)

(** The pattern of a kind of match. *)
Definition regex_of (t : mtype) : regex :=
  match t with bold => boldRegex | italic => italicRegex end.

(** The text has, from offset [i] on, the markers of the kind around a
    text that is not empty and has no line terminator. *)
Definition occurs (t : mtype) (text : jsstring) (i : nat) : Prop :=
  exists u w v,
    text = u ++ marker t ++ w ++ marker t ++ v /\ List.length u = i
    /\ w <> [] /\ forallb (fun c => negb (is_line_terminator c)) w = true.

(** The formatted parts among the parts of a fragment, and a match
    rendered as such a part: an italic match as an [em] with its text, a
    bold match as a [strong] with what the formatter makes of its
    text. *)
Definition top_parts (n : node) : list node :=
  match n with NFragment parts => parts | _ => [] end.

Definition is_styled (p : node) : bool :=
  match p with NStrong _ | NEm _ => true | _ => false end.

Definition renders (m : imatch) (p : node) : Prop :=
  match p with
  | NStrong child =>
      im_type m = bold /\ formatInlineMarkdown (im_text m) = Some child
  | NEm s => im_type m = italic /\ s = im_text m
  | _ => False
  end.

Lemma exec_loop_cover : forall r input,
  never_empty r ->
  forall fuel lastIndex ms i,
    exec_loop fuel r input lastIndex = Some ms ->
    lastIndex <= i <= List.length input ->
    match_at r input i <> None ->
    exists m, In m ms /\ m_index m <= i < m_stop m.
Proof.
  intros r input Hne. induction fuel as [|fuel IH]; intros lastIndex ms i H Hi Hm;
    simpl in H; [discriminate|].
  destruct (exec r input lastIndex) as [m0|] eqn:E.
  - destruct (Nat.leb (m_stop m0) lastIndex); [discriminate|].
    destruct (exec_loop fuel r input (m_stop m0)) as [ms'|] eqn:E'; [|discriminate].
    simpl in H. injection H as <-.
    pose proof (exec_spec _ _ _ E) as [H1 [H2 [H3 H4]]].
    destruct (Nat.lt_ge_cases i (m_index m0)) as [Hlt|Hge].
    { exfalso. apply Hm. apply H4. lia. }
    destruct (Nat.lt_ge_cases i (m_stop m0)) as [Hlt|Hge'].
    + exists m0. split; [left; reflexivity | lia].
    + destruct (IH (m_stop m0) ms' i E') as [m [Hin Hr]]; [lia | exact Hm|].
      exists m. split; [right; exact Hin | exact Hr].
  - exfalso. apply Hm. eapply exec_none; [exact E | lia].
Qed.

Lemma skipn_app_exact : forall (A : Type) (u v : list A),
  skipn (List.length u) (u ++ v) = v.
Proof. induction u as [|x u IH]; intro v; simpl; [reflexivity | apply IH]. Qed.

(** Where the markers stand the pattern matches. *)
Lemma occurs_match : forall t text i,
  occurs t text i -> match_at (regex_of t) text i <> None.
Proof.
  intros t text i (u & w & v & -> & <- & Hw & Hd) E.
  rewrite match_at_none in E. rewrite skipn_app_exact in E.
  set (n := List.length u) in *.
  destruct t; cbn [marker regex_of app] in E.
  - apply (E (MState (n + 2 + List.length w + 2) v [(1, w)])).
    unfold boldRegex. cbn [rseq].
    apply matches_seq. eexists. split;
      [apply matches_char; do 2 eexists; repeat split|].
    apply matches_seq. eexists. split;
      [apply matches_char; do 2 eexists; repeat split|].
    cbn [pos rest caps].
    apply matches_seq. exists (MState (S (S n) + List.length w) (42 :: 42 :: v)%N [(1, w)]).
    split.
    + apply matches_group.
      exists (MState (S (S n) + List.length w) (42 :: 42 :: v)%N []). split.
      * apply matches_plus_char. exists w. unfold advanced. cbn [pos rest caps].
        repeat split; try assumption.
      * cbn [pos rest caps].
        replace (S (S n) + List.length w - S (S n)) with (List.length w) by lia.
        rewrite firstn_app_exact. reflexivity.
    + apply matches_seq. eexists. split;
        [apply matches_char; do 2 eexists; repeat split|].
      cbn [pos rest caps]. apply matches_char. do 2 eexists.
      repeat split. cbn [pos rest caps]. f_equal. lia.
  - apply (E (MState (n + 1 + List.length w + 1) v [(1, w)])).
    unfold italicRegex. cbn [rseq].
    apply matches_seq. eexists. split;
      [apply matches_char; do 2 eexists; repeat split|].
    cbn [pos rest caps].
    apply matches_seq. exists (MState (S n + List.length w) (95 :: v)%N [(1, w)]).
    split.
    + apply matches_group.
      exists (MState (S n + List.length w) (95 :: v)%N []). split.
      * apply matches_plus_char. exists w. unfold advanced. cbn [pos rest caps].
        repeat split; try assumption.
      * cbn [pos rest caps].
        replace (S n + List.length w - S n) with (List.length w) by lia.
        rewrite firstn_app_exact. reflexivity.
    + apply matches_char. do 2 eexists. repeat split. cbn [pos rest caps]. f_equal. lia.
Qed.

(** The formatter of the text of a match does not depend on the calls
    that are left. *)
Lemma build_parts_ext : forall (f g : jsstring -> option node) text ms lastIndex,
  (forall m, In m ms -> f (im_text m) = g (im_text m)) ->
  build_parts f text ms lastIndex = build_parts g text ms lastIndex.
Proof.
  intros f g text. induction ms as [|m ms IH]; intros lastIndex H; [reflexivity|].
  cbn [build_parts]. rewrite (H m (or_introl eq_refl)).
  rewrite (IH (im_end m)); [reflexivity|]. intros x Hx. apply H. right. exact Hx.
Qed.

Lemma formatInline_fuel : forall f1 f2 text,
  List.length text < f1 -> List.length text < f2 ->
  formatInline f1 text = formatInline f2 text.
Proof.
  induction f1 as [|f1 IH]; intros f2 text H1 H2; [lia|].
  destruct f2 as [|f2]; [lia|]. cbn [formatInline].
  destruct text as [|c text]; [reflexivity|].
  destruct (filteredMatches (c :: text)) as [ms|] eqn:E; [|reflexivity].
  unfold bind.
  rewrite (@build_parts_ext (formatInline f1) (formatInline f2) (c :: text) ms 0);
    [reflexivity|].
  intros m Hm.
  assert (Hs : List.length (im_text m) < List.length (c :: text)).
  { apply (@filteredMatches_shorter (c :: text) ms E m Hm). discriminate. }
  apply IH; lia.
Qed.

(** The formatted parts [build_parts] gives are the matches, one for
    one and in their order. *)
Lemma build_parts_styled : forall (format : jsstring -> option node) text ms lastIndex parts,
  build_parts format text ms lastIndex = Some parts ->
  Forall2 (fun m p =>
             match p with
             | NStrong child => im_type m = bold /\ format (im_text m) = Some child
             | NEm s => im_type m = italic /\ s = im_text m
             | _ => False
             end)
          ms (filter is_styled parts).
Proof.
  intros format text. induction ms as [|m ms IH]; intros lastIndex parts H.
  - cbn [build_parts] in H. injection H as <-.
    destruct (Nat.ltb lastIndex (List.length text)); [|constructor].
    destruct (substring_from text lastIndex); constructor.
  - cbn [build_parts] in H. unfold bind in H.
    destruct (im_type m) eqn:Et.
    + destruct (format (im_text m)) as [inner|] eqn:Ef; [|discriminate].
      destruct (build_parts format text ms (im_end m)) as [others|] eqn:Eo;
        [|discriminate].
      injection H as <-. rewrite filter_app.
      replace (filter is_styled
                 (if Nat.ltb lastIndex (im_start m)
                  then match substring text lastIndex (im_start m) with
                       | [] => []
                       | c :: r => [NSpan (c :: r)]
                       end
                  else [])) with (@nil node)
        by (destruct (Nat.ltb lastIndex (im_start m)); [|reflexivity];
            destruct (substring text lastIndex (im_start m)); reflexivity).
      cbn [app filter is_styled]. constructor; [split; [exact Et | exact Ef]|].
      eapply IH. exact Eo.
    + destruct (build_parts format text ms (im_end m)) as [others|] eqn:Eo;
        [|discriminate].
      injection H as <-. rewrite filter_app.
      replace (filter is_styled
                 (if Nat.ltb lastIndex (im_start m)
                  then match substring text lastIndex (im_start m) with
                       | [] => []
                       | c :: r => [NSpan (c :: r)]
                       end
                  else [])) with (@nil node)
        by (destruct (Nat.ltb lastIndex (im_start m)); [|reflexivity];
            destruct (substring text lastIndex (im_start m)); reflexivity).
      cbn [app filter is_styled]. constructor; [split; [exact Et | reflexivity]|].
      eapply IH. exact Eo.
Qed.

(** What [formatInlineMarkdown] returns renders the accepted matches. *)
Lemma formatInline_renders : forall text accepted,
  filteredMatches text = Some accepted ->
  exists n, formatInlineMarkdown text = Some n
            /\ Forall2 renders accepted (filter is_styled (top_parts n)).
Proof.
  intros text accepted E. unfold formatInlineMarkdown.
  destruct (formatInline (S (List.length text)) text) as [n|] eqn:F;
    [|exfalso; revert F; apply formatInline_total; lia].
  exists n. split; [reflexivity|].
  cbn [formatInline] in F. destruct text as [|c text].
  - injection F as <-. unfold filteredMatches in E. vm_compute in E.
    injection E as <-. constructor.
  - unfold bind in F. rewrite E in F.
    destruct (build_parts (formatInline (List.length (c :: text))) (c :: text) accepted 0)
      as [parts|] eqn:B; [|discriminate].
    pose proof (build_parts_styled _ _ _ _ B) as S.
    assert (R : Forall2 renders accepted (filter is_styled parts)).
    { clear - S E. revert S.
      assert (Hs : forall m, In m accepted ->
                     List.length (im_text m) < List.length (c :: text)).
      { intros m Hm. apply (@filteredMatches_shorter (c :: text) accepted E m Hm).
        discriminate. }
      clear E. generalize (filter is_styled parts) as ps.
      induction accepted as [|m ms IH]; intros ps S; inversion S; subst; constructor.
      - destruct y; try contradiction; [|assumption].
        destruct H1 as [Ht Hf]. split; [exact Ht|].
        unfold formatInlineMarkdown. rewrite <- Hf.
        apply formatInline_fuel; [lia|]. apply Hs. left. reflexivity.
      - apply IH; [|assumption]. intros x Hx. apply Hs. right. exact Hx. }
    destruct parts; injection F as <-; [|exact R].
    inversion R; subst; constructor.
Qed.

(** C9.  For every text the two [exec] loops end, each over the whole
    text and on its own.  What a loop finds are matches of its pattern:
    each lies where the text has the markers of its kind around its
    text, and wherever the text has such markers around a text without a
    line terminator, a match of that kind was found that starts there or
    covers the place.  The matches, each non-empty, are put in one list,
    bold first, and sorted by start offset; the scan over the sorted
    list keeps a match exactly when its span intersects no match kept
    before it.  So the accepted matches are in ascending order and
    pairwise disjoint, every dropped match intersects an accepted match
    that starts no later, and the match that starts first is accepted,
    bold or italic.  The formatted parts of what is rendered are the
    accepted matches, one for one and in their order: an [em] with the
    text of an italic match, a [strong] with the formatted text of a
    bold match. *)
Theorem C9_earliest_match_wins :
  forall text : jsstring,
    exists bs its n,
      exec_loop (S (List.length text)) boldRegex text 0 = Some bs
      /\ exec_loop (S (List.length text)) italicRegex text 0 = Some its
      /\ (forall t i,
            occurs t text i ->
            exists m, In m (match t with bold => bs | italic => its end)
                      /\ m_index m <= i < m_stop m)
      /\ let found := map (to_imatch bold) bs ++ map (to_imatch italic) its in
         let sorted := sort_by_start found in
         let accepted := filter_overlaps sorted [] in
         find_matches text = Some found
         /\ filteredMatches text = Some accepted
         /\ Forall proper found
         /\ Forall (delimited text) found
         /\ Permutation found sorted
         /\ StronglySorted by_start sorted
         /\ StronglySorted by_start accepted
         /\ (forall x, In x accepted -> In x sorted)
         /\ ForallOrdPairs (fun a b => ~ intersects a b) accepted
         /\ (forall x, In x sorted ->
               In x accepted
               \/ exists y, In y accepted /\ intersects x y
                            /\ im_start y <= im_start x)
         /\ (forall x tl, sorted = x :: tl -> hd_error accepted = Some x)
         /\ formatInlineMarkdown text = Some n
         /\ Forall2 renders accepted (filter is_styled (top_parts n)).
Proof.
  intro text. destruct (find_matches_total text) as [bs [its [Eb [Ei [Ef [Hb Hi]]]]]].
  assert (Ea : filteredMatches text
               = Some (filter_overlaps
                         (sort_by_start
                            (map (to_imatch bold) bs ++ map (to_imatch italic) its)) []))
    by (unfold filteredMatches, bind; rewrite Ef; reflexivity).
  destruct (formatInline_renders _ Ea) as [n [En Hr]].
  exists bs, its, n. split; [exact Eb|]. split; [exact Ei|]. split.
  { intros t i Ho. pose proof (occurs_match Ho) as Hm.
    assert (Hi' : 0 <= i <= List.length text).
    { destruct Ho as (u & w & v & -> & <- & _). rewrite length_app. lia. }
    destruct t; cbn [regex_of] in Hm.
    - eapply exec_loop_cover; [apply boldRegex_never_empty | exact Eb | exact Hi' | exact Hm].
    - eapply exec_loop_cover;
        [apply italicRegex_never_empty | exact Ei | exact Hi' | exact Hm]. }
  intros found sorted accepted.
  assert (Hproper : Forall proper found).
  { apply Forall_app. split; eapply chain_proper; eauto. }
  assert (Hdel : Forall (delimited text) found).
  { apply Forall_app. split; apply Forall_forall; intros x Hx;
      apply in_map_iff in Hx; destruct Hx as [m [<- Hm]].
    - destruct (exec_loop_matches _ _ _ _ Eb m Hm) as [Hat _].
      eapply bold_match_delimited; exact Hat.
    - destruct (exec_loop_matches _ _ _ _ Ei m Hm) as [Hat _].
      eapply italic_match_delimited; exact Hat. }
  assert (Hperm : Permutation found sorted) by apply sort_by_start_perm.
  assert (Hsorted : StronglySorted by_start sorted) by apply sort_by_start_sorted.
  assert (Hps : Forall proper sorted)
    by (eapply Permutation_Forall; [exact Hperm | exact Hproper]).
  assert (Hincl : forall x, In x accepted -> In x sorted).
  { intros x Hx. apply filter_overlaps_incl in Hx. destruct Hx as [[]|Hx]. exact Hx. }
  split; [exact Ef|]. split; [exact Ea|].
  split; [exact Hproper|]. split; [exact Hdel|].
  split; [exact Hperm|]. split; [exact Hsorted|].
  split; [apply filter_overlaps_sorted; exact Hsorted|].
  split; [exact Hincl|]. split; [|split; [|split; [|split]]].
  - assert (Ha : ForallOrdPairs apart accepted)
      by (apply filter_overlaps_apart; constructor).
    assert (Hpa : Forall proper accepted).
    { apply Forall_forall. intros x Hx. rewrite Forall_forall in Hps.
      apply Hps. apply Hincl. exact Hx. }
    clear - Ha Hpa. induction Ha as [|a l Hal Hl IH]; constructor.
    + inversion Hpa as [|? ? Hp Hpl]; subst.
      rewrite Forall_forall in *. intros b Hb [I1 I2].
      specialize (Hal b Hb). unfold apart in Hal.
      assert (overlaps b a = true).
      { apply overlaps_intersects; [apply Hpl; exact Hb | exact Hp |].
        unfold intersects. split; assumption. }
      congruence.
    + apply IH. inversion Hpa; assumption.
  - intros x Hx.
    destruct (@filter_overlaps_dropped sorted [] Hsorted
                (fun y z (H : In y []) _ => match H with end) x Hx)
      as [H|[y [Hy [Ho Hle]]]]; [left; exact H|].
    right. exists y. split; [exact Hy|]. split; [|exact Hle].
    rewrite Forall_forall in Hps.
    apply overlaps_intersects; [apply Hps; exact Hx | apply Hps, Hincl; exact Hy | exact Ho].
  - intros x tl E. subst accepted. rewrite E.
    destruct (filter_overlaps_head x tl) as [kept ->]. reflexivity.
  - exact En.
  - exact Hr.
Qed.

(* ================================================================= *)
(** ** The shape of the blocks *)

(** What one line can do to the scanner: close the open list; close it
    and push a spacer after a block; close it and push another block; add
    an item to the open list; or nothing. *)
Lemma scan_line_cases : forall C s line,
  scan_line C s line = flushList s
  \/ (scan_line C s line = push (flushList s) Spacer /\ elements (flushList s) <> [])
  \/ (exists b, scan_line C s line = push (flushList s) b
                /\ b <> Spacer /\ forall items, b <> BulletList items)
  \/ (exists item, item <> []
                   /\ scan_line C s line
                      = {| elements := elements s;
                           currentList := currentList s ++ [item] |})
  \/ scan_line C s line = s.
Proof.
  intros C s line. unfold scan_line.
  set (trimmed := trim line).
  destruct (negb (nonempty trimmed) || str_eqb trimmed (js "---") || test re_rule trimmed).
  { destruct (negb (nonempty trimmed) && Nat.ltb 0 (List.length (elements (flushList s))))
      eqn:E.
    - right. left. split; [reflexivity|].
      apply andb_true_iff in E. destruct E as [_ E]. apply Nat.ltb_lt in E.
      destruct (elements (flushList s)); [simpl in E; lia | discriminate].
    - left. reflexivity. }
  destruct (startsWith trimmed (js "# ")).
  { right. right. left. eexists. split; [reflexivity|]. split; [discriminate|].
    intros items. discriminate. }
  destruct (startsWith trimmed (js "## ")).
  { right. right. left. eexists. split; [reflexivity|]. split; [discriminate|].
    intros items. discriminate. }
  destruct (startsWith trimmed (js "### ")).
  { right. right. left. eexists. split; [reflexivity|]. split; [discriminate|].
    intros items. discriminate. }
  destruct (exec (transcriptRegex C) trimmed 0).
  { right. right. left. eexists. split; [reflexivity|]. split; [discriminate|].
    intros items. discriminate. }
  destruct (exec numberedRegex trimmed 0).
  { right. right. left. eexists. split; [reflexivity|]. split; [discriminate|].
    intros items. discriminate. }
  destruct (startsWith trimmed (js "- ") || startsWith trimmed (js "•")).
  { match goal with |- context [nonempty ?i] => destruct (nonempty i) eqn:E end.
    - right. right. right. left. eexists. split; [|reflexivity].
      apply nonempty_true. exact E.
    - right. right. right. right. reflexivity. }
  destruct (test (instructionRegex C) trimmed).
  { right. right. left. eexists. split; [reflexivity|]. split; [discriminate|].
    intros items. discriminate. }
  right. right. left. eexists. split; [reflexivity|]. split; [discriminate|].
  intros items. discriminate.
Qed.

(** The invariant of the scan after [k] lines. *)
Definition scan_inv (s : Scan) (k : nat) : Prop :=
  List.length (elements s) + (match currentList s with [] => 0 | _ => 1 end) <= k
  /\ hd_error (elements s) <> Some Spacer
  /\ (forall items, In (BulletList items) (elements s) -> items <> []).

Lemma hd_error_app : forall (A : Type) (l1 l2 : list A),
  hd_error (l1 ++ l2) = match l1 with [] => hd_error l2 | x :: _ => Some x end.
Proof. intros A [|x l1] l2; reflexivity. Qed.

Lemma flushList_inv : forall s k, scan_inv s k -> scan_inv (flushList s) k.
Proof.
  intros s k [H1 [H2 H3]]. unfold flushList.
  destruct (currentList s) as [|i items] eqn:E.
  - unfold scan_inv. rewrite E. auto.
  - unfold scan_inv. simpl. split; [rewrite length_app; simpl; lia|]. split.
    + rewrite hd_error_app. destruct (elements s); [discriminate | exact H2].
    + intros l Hin. apply in_app_iff in Hin. destruct Hin as [Hin|[Hin|[]]].
      * apply H3. exact Hin.
      * injection Hin as <-. discriminate.
Qed.

Lemma flushList_closed : forall s, currentList (flushList s) = [].
Proof. intro s. apply flushList_spec. Qed.

Lemma push_inv : forall s k b,
  scan_inv s k -> currentList s = [] ->
  (b = Spacer -> elements s <> []) -> (forall items, b <> BulletList items) ->
  scan_inv (push s b) (S k).
Proof.
  intros s k b [H1 [H2 H3]] Hc Hs Hb. unfold scan_inv, push. simpl.
  rewrite Hc in *. split; [rewrite length_app; simpl; lia|]. split.
  - rewrite hd_error_app. destruct (elements s) eqn:E; [|exact H2].
    simpl. intro Eq. injection Eq as ->. apply Hs; reflexivity.
  - intros l Hin. apply in_app_iff in Hin. destruct Hin as [Hin|[Hin|[]]].
    + apply H3. exact Hin.
    + exfalso. apply (Hb l). exact Hin.
Qed.

Lemma scan_inv_weaken : forall s k, scan_inv s k -> scan_inv s (S k).
Proof. intros s k [H1 H]. split; [lia | exact H]. Qed.

Lemma scan_line_inv : forall C s line k,
  scan_inv s k -> scan_inv (scan_line C s line) (S k).
Proof.
  intros C s line k H.
  destruct (scan_line_cases C s line)
    as [E|[[E Hne]|[[b [E [Hb1 Hb2]]]|[[item [Hi E]]|E]]]]; rewrite E.
  - apply scan_inv_weaken. apply flushList_inv. exact H.
  - apply push_inv; [apply flushList_inv; exact H | apply flushList_closed | auto |].
    intros items. discriminate.
  - apply push_inv; [apply flushList_inv; exact H | apply flushList_closed | | exact Hb2].
    intros Eb. contradiction.
  - destruct H as [H1 [H2 H3]]. unfold scan_inv. simpl.
    split; [|split; assumption].
    destruct (currentList s ++ [item]) eqn:Ea;
      [destruct (currentList s); discriminate|].
    destruct (currentList s); lia.
  - apply scan_inv_weaken. exact H.
Qed.

Lemma scan_lines_inv : forall C lines s k,
  scan_inv s k -> scan_inv (scan_lines C lines s) (k + List.length lines).
Proof.
  intros C lines. induction lines as [|line lines IH]; intros s k H.
  - simpl. rewrite Nat.add_0_r. exact H.
  - unfold scan_lines in *. simpl.
    replace (k + S (List.length lines)) with (S k + List.length lines) by lia.
    apply IH. apply scan_line_inv. exact H.
Qed.

(** X12.  The blocks of a content: there are no more blocks than lines,
    the first block is never a spacer, and no bullet list is empty. *)
Theorem content_blocks_shape :
  forall (C : Canonicalizer) (content : jsstring) (blocks : list block),
    formatProtocolContent C content = Some blocks ->
    List.length blocks <= List.length (split_lines content)
    /\ hd_error blocks <> Some Spacer
    /\ (forall items, In (BulletList items) blocks -> items <> []).
Proof.
  intros C content blocks H. unfold formatProtocolContent in H.
  destruct content as [|c content]; [discriminate|]. injection H as <-.
  set (lines := split_lines (c :: content)).
  assert (H0 : scan_inv {| elements := []; currentList := [] |} 0).
  { unfold scan_inv. simpl. split; [lia|]. split; [discriminate | intros items []]. }
  pose proof (flushList_inv (scan_lines_inv C lines H0)) as [H1 [H2 H3]].
  simpl in H1. split; [lia|]. split; assumption.
Qed.

Definition content_ex : jsstring := js "

- a
- b
---
text".

Lemma content_blocks_witness :
  exists blocks,
    formatProtocolContent canon_basic content_ex = Some blocks
    /\ List.length blocks <= List.length (split_lines content_ex)
    /\ hd_error blocks <> Some Spacer
    /\ (forall items, In (BulletList items) blocks -> items <> []).
Proof.
  eexists. split; [vm_compute; reflexivity|].
  apply (@content_blocks_shape canon_basic content_ex).
  vm_compute. reflexivity.
Defined.

(* ================================================================= *)
(** ** What a rendered transcript line holds *)

Definition mmss_text (w : jsstring) : Prop :=
  exists d1 d2 d3 d4,
    forallb is_digit [d1; d2; d3; d4] = true /\ w = [d1; d2; 58%N; d3; d4].

Lemma lang_mmss_i : forall C w, lang (re_mmss_i C) w -> mmss_text w.
Proof.
  intros C w H. unfold re_mmss_i in H. cbn [rseq lang] in H.
  destruct H as (w1 & r1 & -> & (d1 & -> & D1) & H).
  destruct H as (w2 & r2 & -> & (d2 & -> & D2) & H).
  destruct H as (w3 & r3 & -> & L3 & H). chri_inv L3.
  destruct H as (w4 & r4 & -> & (d3 & -> & D3) & (d4 & -> & D4)).
  exists d1, d2, d3, d4. simpl. rewrite D1, D2, D3, D4. auto.
Qed.

Ltac take_chri H c t R :=
  let s := fresh "s" in
  let Hc := fresh "Hc" in
  let P := fresh "P" in
  apply matches_seq in H; destruct H as [s [Hc H]];
  apply matches_char in Hc; destruct Hc as [c [t [R [P ->]]]];
  apply N.eqb_eq in P;
  apply chri_nonletter in P; [subst c | reflexivity | reflexivity | reflexivity];
  cbn [pos rest caps] in *.

Ltac take_spaces H s w R P S K :=
  let Hs := fresh "Hs" in
  apply matches_seq in H; destruct H as [s [Hs H]];
  apply matches_star_char in Hs; destruct Hs as [w [[R P] [S K]]];
  cbn [pos rest caps] in *.

Ltac take_group H g w R P L K :=
  let s := fresh "s" in
  let Hg := fresh "Hg" in
  apply matches_seq in H; destruct H as [s [Hg H]];
  apply matches_group in Hg; destruct Hg as [g [Hg ->]];
  match type of Hg with matches ?r _ _ =>
    pose proof (@no_groups_caps r eq_refl _ _ Hg) as K end;
  apply matches_lang in Hg; destruct Hg as [w [[R P] L]];
  cbn [pos rest caps] in *.

Lemma capture_exact : forall a (w r : jsstring),
  firstn (a + List.length w - a) (w ++ r) = w.
Proof.
  intros a w r. replace (a + List.length w - a) with (List.length w) by lia.
  apply firstn_app_exact.
Qed.

Lemma transcript_line_match : forall (C : Canonicalizer) t m,
  exec (transcriptLineRegex C) t 0 = Some m ->
  exists s e ws1 ws2 ws3 des ws4 txt,
    t = [91%N] ++ s ++ ws1 ++ [45%N] ++ ws2 ++ e ++ [93%N] ++ ws3
          ++ des ++ [58%N] ++ ws4 ++ txt
    /\ mmss_text s /\ mmss_text e
    /\ forallb is_space ws1 = true /\ forallb is_space ws2 = true
    /\ forallb is_space ws3 = true /\ forallb is_space ws4 = true
    /\ txt <> [] /\ forallb (fun c => negb (is_line_terminator c)) txt = true
    /\ cap 1 m = s /\ cap 2 m = e /\ cap 5 m = txt
    /\ ((exists word ws x,
           des = word ++ ws ++ x /\ ci_eq C word Spiker
           /\ ws <> [] /\ forallb is_space ws = true
           /\ x <> [] /\ forallb is_alnum_i x = true
           /\ group 3 m = Some x)
        \/ (des <> [] /\ ~ In 58%N des /\ group 3 m = None /\ cap 4 m = des)).
Proof.
  intros C t m H. apply exec_spec in H. destruct H as [_ [_ [H _]]].
  apply match_at_spec in H. destruct H as [Hi [st' [H [Hs Hc]]]].
  unfold transcriptLineRegex in H. cbn [rseq] in H.
  apply matches_seq in H. destruct H as [s0 [H0 H]].
  apply matches_bol in H0. destruct H0 as [H0 ->]. cbn [pos] in H0.
  rewrite H0 in *. cbn [skipn] in H.
  take_chri H c1 t1 R1.
  take_group H g1 w1 Rg1 Pg1 Lg1 Kg1. apply lang_mmss_i in Lg1.
  take_spaces H sp1 ws1 Rs1 Ps1 Ss1 Ks1.
  take_chri H c2 t2 R2.
  take_spaces H sp2 ws2 Rs2 Ps2 Ss2 Ks2.
  take_group H g2 w2 Rg2 Pg2 Lg2 Kg2. apply lang_mmss_i in Lg2.
  take_chri H c3 t3 R3.
  take_spaces H sp3 ws3 Rs3 Ps3 Ss3 Ks3.
  apply matches_seq in H. destruct H as [sa [Ha H]].
  take_chri H c4 t4 R4.
  take_spaces H sp4 ws4 Rs4 Ps4 Ss4 Ks4.
  apply matches_seq in H. destruct H as [s5 [H5 H6]].
  apply matches_group in H5. destruct H5 as [g5 [H5 ->]].
  apply matches_plus_char in H5. destruct H5 as [txt [[R5 P5] [S5 [N5 K5]]]].
  apply matches_eol in H6. destruct H6 as [R6 ->]. cbn [pos rest caps] in *.
  rewrite R6, app_nil_r in R5.
  assert (E1 : firstn (pos g1 - 1) t1 = w1)
    by (rewrite Pg1, Rg1; apply capture_exact).
  assert (E2 : firstn (pos g2 - pos sp2) (rest sp2) = w2)
    by (rewrite Pg2, Rg2; apply capture_exact).
  assert (E5 : firstn (pos g5 - pos sp4) (rest sp4) = txt)
    by (rewrite P5, R5; replace (pos sp4 + List.length txt - pos sp4)
          with (List.length txt) by lia; apply firstn_all).
  rewrite E1 in *. rewrite E2 in *. rewrite E5 in *.
  apply matches_alt in Ha. destruct Ha as [Ha|Ha].
  - apply matches_seq in Ha. destruct Ha as [sl [Hl Ha]].
    pose proof (@no_groups_caps _ (liti_no_groups C Spiker) _ _ Hl) as Kl.
    apply matches_lang in Hl. destruct Hl as [word [[Rl Pl] Ll]].
    apply lang_liti in Ll.
    apply matches_seq in Ha. destruct Ha as [sp [Hp Ha]].
    apply matches_plus_char in Hp. destruct Hp as [ws [[Rp Pp] [Sp [Np Kp]]]].
    apply matches_group in Ha. destruct Ha as [g3 [Ha ->]].
    apply matches_plus_char in Ha. destruct Ha as [x [[Rx Px] [Sx [Nx Kx]]]].
    cbn [pos rest caps] in *.
    assert (E3 : firstn (pos g3 - pos sp) (rest sp) = x)
      by (rewrite Px, Rx; apply capture_exact).
    rewrite E3 in *.
    exists w1, w2, ws1, ws2, ws3, (word ++ ws ++ x), ws4, txt.
    split.
    { rewrite R1, Rg1, Rs1, R2, Rs2, Rg2, R3, Rs3, Rl, Rp, Rx, R4, Rs4, R5.
      simpl. rewrite <- ?app_assoc. reflexivity. }
    unfold cap, group. rewrite Hc, K5, Ks4, Kx, Kp, Kl, Ks3, Kg2, Ks2, Ks1, Kg1.
    cbn [cap_lookup Nat.eqb].
    repeat (split; [assumption || reflexivity|]).
    left. exists word, ws, x. repeat (split; [assumption || reflexivity|]). reflexivity.
  - apply matches_group in Ha. destruct Ha as [g4 [Ha ->]].
    unfold cls_not_colon_i in Ha.
    apply matches_plus_char in Ha. destruct Ha as [des [[Rd Pd] [Sd [Nd Kd]]]].
    cbn [pos rest caps] in *.
    assert (E4 : firstn (pos g4 - pos sp3) (rest sp3) = des)
      by (rewrite Pd, Rd; apply capture_exact).
    rewrite E4 in *.
    exists w1, w2, ws1, ws2, ws3, des, ws4, txt.
    split.
    { rewrite R1, Rg1, Rs1, R2, Rs2, Rg2, R3, Rs3, Rd, R4, Rs4, R5.
      simpl. rewrite <- ?app_assoc. reflexivity. }
    unfold cap, group. rewrite Hc, K5, Ks4, Kd, Ks3, Kg2, Ks2, Ks1, Kg1.
    cbn [cap_lookup Nat.eqb].
    repeat (split; [assumption || reflexivity|]).
    right. split; [exact Nd|]. split; [|split; reflexivity].
    intro Hin. rewrite forallb_forall in Sd. apply Sd in Hin.
    rewrite N.eqb_refl in Hin. discriminate.
Qed.

(** X13.  What [formatTranscript] shows for a line.  A blank line is a
    spacer.  A line that does not start with an opening bracket is a
    paragraph with the trimmed line.  And when a line is shown as an
    utterance, the trimmed line is the opening bracket, the start time,
    a dash between spaces, the end time, the closing bracket, the
    designation of the speaker, a colon and the text, with nothing but
    spaces in between: both times have the form of two digits, a colon
    and two digits, the text is not empty, and the label shown is either
    [Спикер], one space, the identifier and the colon, for a designation
    made of that word in any letter case, spaces and an identifier of
    letters and digits, or the designation itself and the colon. *)
Theorem transcript_line_reads :
  forall (C : Canonicalizer) (line : jsstring),
    (trim line = [] -> transcript_line C line = TSpacer)
    /\ (forall c r, trim line = c :: r -> c <> 91%N ->
          transcript_line C line = TParagraph (trim line))
    /\ (forall s e sp txt,
          transcript_line C line = TUtterance s e sp txt ->
          exists ws1 ws2 ws3 des ws4,
            trim line = [91%N] ++ s ++ ws1 ++ [45%N] ++ ws2 ++ e ++ [93%N] ++ ws3
                          ++ des ++ [58%N] ++ ws4 ++ txt
            /\ mmss_text s /\ mmss_text e
            /\ forallb is_space (ws1 ++ ws2 ++ ws3 ++ ws4) = true
            /\ txt <> []
            /\ forallb (fun c => negb (is_line_terminator c)) txt = true
            /\ ((exists word ws x,
                   des = word ++ ws ++ x /\ ci_eq C word Spiker
                   /\ ws <> [] /\ forallb is_space ws = true
                   /\ x <> [] /\ forallb is_alnum_i x = true
                   /\ sp = Spiker_sp ++ x ++ [58%N])
                \/ (des <> [] /\ ~ In 58%N des /\ sp = des ++ [58%N]))).
Proof.
  intros C line. unfold transcript_line. split; [|split].
  - intros ->. reflexivity.
  - intros c r E Hc. rewrite E.
    destruct (exec (transcriptLineRegex C) (c :: r) 0) as [m|] eqn:Em; [|reflexivity].
    exfalso. apply transcript_line_match in Em.
    destruct Em as (s & e & ws1 & ws2 & ws3 & des & ws4 & txt & Et & _).
    simpl in Et. injection Et as -> _. congruence.
  - intros s e sp txt H. destruct (trim line) as [|c r] eqn:E; [discriminate|].
    destruct (exec (transcriptLineRegex C) (c :: r) 0) as [m|] eqn:Em; [|discriminate].
    apply transcript_line_match in Em.
    destruct Em as (s' & e' & ws1 & ws2 & ws3 & des & ws4 & txt' & Et & Hs & He
                    & S1 & S2 & S3 & S4 & Hn & Hd & C1 & C2 & C5 & Hdes).
    exists ws1, ws2, ws3, des, ws4.
    assert (Hsp : forallb is_space (ws1 ++ ws2 ++ ws3 ++ ws4) = true).
    { rewrite !forallb_app, S1, S2, S3, S4. reflexivity. }
    destruct Hdes as [(word & ws & x & Ed & Hw & Hws & Sws & Hx & Sx & G3)
                     | (Hne & Hco & G3 & C4)].
    + rewrite G3 in H. destruct x as [|cx x]; [congruence|].
      injection H as <- <- <- <-. rewrite C1, C2, C5.
      repeat (split; [assumption|]).
      left. exists word, ws, (cx :: x). repeat (split; [assumption || reflexivity|]).
      reflexivity.
    + rewrite G3 in H. injection H as <- <- <- <-. rewrite C1, C2, C4, C5.
      repeat (split; [assumption|]).
      right. repeat (split; [assumption|]). reflexivity.
Qed.

Lemma transcript_line_witness :
  transcript_line canon_basic (js "  Спикер A без времени ")
  = TParagraph (js "Спикер A без времени").
Proof.
  destruct (@transcript_line_reads canon_basic (js "  Спикер A без времени "))
    as [_ [H _]].
  apply (H 1057%N (List.tl (js "Спикер A без времени"))).
  - vm_compute. reflexivity.
  - discriminate.
Defined.

(* ================================================================= *)
(** ** The match the engine reports *)

(** The state after [j] more units. *)
Definition after (st : mstate) (j : nat) : mstate :=
  MState (pos st + j) (skipn j (rest st)) (caps st).

Lemma after_0 : forall st, after st 0 = st.
Proof. intros [p r c]. unfold after. simpl. rewrite Nat.add_0_r. reflexivity. Qed.

Lemma after_after : forall st i j, after (after st i) j = after st (i + j).
Proof.
  intros st i j. unfold after. simpl. rewrite skipn_skipn, Nat.add_assoc.
  f_equal. f_equal. lia.
Qed.

(** The offsets a greedy repetition of a character class tries, longest
    first. *)
Fixpoint countdown (k : nat) : list nat :=
  match k with
  | O => [0]
  | S k' => S k' :: countdown k'
  end.

(** The maximal run: [w] is in the class, what follows is not. *)
Definition run_of (p : N -> bool) (w r : jsstring) : Prop :=
  forallb p w = true /\ match r with [] => True | c :: _ => p c = false end.

Lemma rmatch_char_hit : forall p st c tl,
  rest st = c :: tl -> p c = true ->
  rmatch (RChar p) st = [MState (S (pos st)) tl (caps st)].
Proof. intros p st c tl H Hp. simpl. rewrite H, Hp. reflexivity. Qed.

Lemma rmatch_char_miss : forall p st,
  match rest st with [] => True | c :: _ => p c = false end ->
  rmatch (RChar p) st = [].
Proof.
  intros p st H. simpl. destruct (rest st) as [|c tl]; [reflexivity|].
  rewrite H. reflexivity.
Qed.

Lemma star_greedy_list : forall p w r fuel st,
  rest st = w ++ r -> run_of p w r -> List.length w <= fuel ->
  star_loop (rmatch (RChar p)) true fuel st
  = map (after st) (countdown (List.length w)).
Proof.
  intros p w. induction w as [|c w IH]; intros r fuel st Hr [Hw Hn] Hf.
  - cbn [List.length countdown map app] in *. rewrite after_0.
    destruct fuel as [|fuel]; [reflexivity|].
    cbn [star_loop]. rewrite rmatch_char_miss; [reflexivity|].
    rewrite Hr. exact Hn.
  - destruct fuel as [|fuel]; [cbn [List.length] in Hf; lia|].
    cbn [forallb] in Hw. apply andb_true_iff in Hw. destruct Hw as [Hc Hw].
    cbn [star_loop]. cbn [app] in Hr.
    rewrite (@rmatch_char_hit p st c (w ++ r) Hr Hc). cbn [flat_map pos].
    replace (Nat.ltb (pos st) (S (pos st))) with true
      by (symmetry; apply Nat.ltb_lt; lia).
    rewrite (IH r fuel (MState (S (pos st)) (w ++ r) (caps st)));
      [|reflexivity|split; assumption|cbn [List.length] in Hf; lia].
    rewrite app_nil_r. cbn [List.length countdown map].
    assert (E : forall j,
               after (MState (S (pos st)) (w ++ r) (caps st)) j = after st (S j)).
    { intros j. unfold after. simpl. rewrite Hr. simpl. f_equal. lia. }
    assert (E0 : after st 0 = st) by apply after_0.
    clear - E E0.
    induction (List.length w) as [|k IHk]; simpl.
    + rewrite !E. rewrite E0. reflexivity.
    + rewrite E. f_equal. exact IHk.
Qed.

(** The first result of a pattern at a state, if it has one. *)
Definition first_match (r : regex) (st : mstate) : option mstate :=
  hd_error (rmatch r st).

Lemma match_at_first : forall r input i,
  match_at r input i
  = option_map (fun st => RxMatch i (pos st) (caps st))
               (first_match r (MState i (skipn i input) [])).
Proof.
  intros r input i. unfold match_at, first_match.
  destruct (rmatch r (MState i (skipn i input) [])); reflexivity.
Qed.

Lemma exec_first : forall r input fin,
  first_match r (MState 0 input []) = Some fin ->
  exec r input 0 = Some (RxMatch 0 (pos fin) (caps fin)).
Proof.
  intros r input fin H. unfold exec. cbn [Nat.ltb Nat.leb].
  assert (E : match_at r input 0 = Some (RxMatch 0 (pos fin) (caps fin))).
  { rewrite match_at_first. cbn [skipn]. rewrite H. reflexivity. }
  destruct (List.length input - 0); cbn [search_from]; rewrite E; reflexivity.
Qed.

Lemma first_seq_bol : forall b st fin,
  pos st = 0 -> first_match b st = Some fin ->
  first_match (RSeq RBol b) st = Some fin.
Proof.
  intros b st fin Hp H. unfold first_match in *. cbn [rmatch]. rewrite Hp.
  cbn [Nat.eqb flat_map]. rewrite app_nil_r. exact H.
Qed.

Lemma first_seq_char : forall p b st c tl fin,
  rest st = c :: tl -> p c = true ->
  first_match b (MState (S (pos st)) tl (caps st)) = Some fin ->
  first_match (RSeq (RChar p) b) st = Some fin.
Proof.
  intros p b st c tl fin Hr Hp H. unfold first_match in *.
  change (rmatch (RSeq (RChar p) b) st) with (flat_map (rmatch b) (rmatch (RChar p) st)).
  rewrite (@rmatch_char_hit p st c tl Hr Hp). cbn [flat_map]. rewrite app_nil_r. exact H.
Qed.

Lemma hd_flat_map_countdown : forall (f : mstate -> list mstate) (g : nat -> mstate) k fin,
  hd_error (f (g k)) = Some fin ->
  hd_error (flat_map f (map g (countdown k))) = Some fin.
Proof.
  intros f g k fin H. destruct k; cbn [countdown map flat_map];
    destruct (f (g _)) eqn:E; try discriminate; exact H.
Qed.

Lemma after_run : forall st (w r : jsstring),
  rest st = w ++ r ->
  after st (List.length w) = MState (pos st + List.length w) r (caps st).
Proof.
  intros st w r H. unfold after. rewrite H, skipn_app, Nat.sub_diag, skipn_all.
  reflexivity.
Qed.

(** A greedy run of a class before a pattern that matches after the
    whole run: the engine reports that match. *)
Lemma first_seq_star : forall p b st w r fin,
  rest st = w ++ r -> run_of p w r ->
  first_match b (MState (pos st + List.length w) r (caps st)) = Some fin ->
  first_match (RSeq (RStar true (RChar p)) b) st = Some fin.
Proof.
  intros p b st w r fin Hr Hrun H. unfold first_match in *.
  change (rmatch (RSeq (RStar true (RChar p)) b) st)
    with (flat_map (rmatch b)
            (star_loop (rmatch (RChar p)) true (List.length (rest st)) st)).
  rewrite (@star_greedy_list p w r (List.length (rest st)) st Hr Hrun)
    by (rewrite Hr, length_app; lia).
  apply hd_flat_map_countdown. rewrite (after_run st w r Hr). exact H.
Qed.

(** The same for a captured run of at least one unit. *)
Lemma first_seq_group_plus : forall n p b st w r fin,
  rest st = w ++ r -> w <> [] -> run_of p w r ->
  first_match b (MState (pos st + List.length w) r ((n, w) :: caps st)) = Some fin ->
  first_match (RSeq (RGroup n (rplus true (RChar p))) b) st = Some fin.
Proof.
  intros n p b st w r fin Hr Hne [Hw Hn] H. unfold first_match in *.
  destruct w as [|c w]; [congruence|].
  cbn [forallb] in Hw. apply andb_true_iff in Hw. destruct Hw as [Hc Hw].
  cbn [app] in Hr.
  change (rmatch (RSeq (RGroup n (rplus true (RChar p))) b) st)
    with (flat_map (rmatch b)
            (map (fun st' => MState (pos st') (rest st')
                               ((n, firstn (pos st' - pos st) (rest st)) :: caps st'))
                 (flat_map (rmatch (RStar true (RChar p))) (rmatch (RChar p) st)))).
  rewrite (@rmatch_char_hit p st c (w ++ r) Hr Hc). cbn [flat_map]. rewrite app_nil_r.
  change (rmatch (RStar true (RChar p)) (MState (S (pos st)) (w ++ r) (caps st)))
    with (star_loop (rmatch (RChar p)) true (List.length (w ++ r))
            (MState (S (pos st)) (w ++ r) (caps st))).
  rewrite (@star_greedy_list p w r (List.length (w ++ r))
             (MState (S (pos st)) (w ++ r) (caps st)) eq_refl (conj Hw Hn))
    by (rewrite length_app; lia).
  rewrite map_map. apply hd_flat_map_countdown.
  rewrite (@after_run (MState (S (pos st)) (w ++ r) (caps st)) w r eq_refl).
  cbn [pos rest caps]. rewrite Hr.
  replace (S (pos st) + List.length w - pos st) with (List.length (c :: w))
    by (cbn [List.length]; lia).
  change (c :: w ++ r) with ((c :: w) ++ r). rewrite firstn_app_exact.
  replace (S (pos st) + List.length w) with (pos st + List.length (c :: w))
    by (cbn [List.length]; lia).
  exact H.
Qed.

(** A captured pattern with one result. *)
Lemma first_seq_group_one : forall n a b st st1 w fin,
  rmatch a st = [st1] -> firstn (pos st1 - pos st) (rest st) = w ->
  first_match b (MState (pos st1) (rest st1) ((n, w) :: caps st1)) = Some fin ->
  first_match (RSeq (RGroup n a) b) st = Some fin.
Proof.
  intros n a b st st1 w fin Ha Hw H. unfold first_match in *.
  cbn [rmatch]. rewrite Ha. cbn [map flat_map]. rewrite app_nil_r, Hw. exact H.
Qed.

(** An alternation whose first branch fails. *)
Lemma first_seq_alt_right : forall a1 a2 b st fin,
  rmatch a1 st = [] ->
  first_match (RSeq a2 b) st = Some fin ->
  first_match (RSeq (RAlt a1 a2) b) st = Some fin.
Proof.
  intros a1 a2 b st fin Ha H. unfold first_match in *.
  cbn [rmatch] in *. rewrite Ha. exact H.
Qed.

Lemma first_eol : forall st, rest st = [] -> first_match REol st = Some st.
Proof. intros st H. unfold first_match. cbn [rmatch]. rewrite H. reflexivity. Qed.

(* ================================================================= *)
(** ** An annotated line in the preview *)

Lemma digit_not_space : forall d, is_digit d = true -> is_space d = false.
Proof.
  intros d H. unfold is_digit in H. apply andb_true_iff in H. destruct H as [H1 H2].
  apply N.leb_le in H1. apply N.leb_le in H2.
  destruct (is_space d) eqn:E; [|reflexivity]. exfalso.
  unfold is_space in E. apply existsb_exists in E. destruct E as [x [Hx E]].
  apply N.eqb_eq in E. subst x.
  simpl in Hx. repeat (destruct Hx as [Hx|Hx]; [subst d; lia|]). destruct Hx.
Qed.

Lemma rmatch_mmss : forall (C : Canonicalizer) st d1 d2 d3 d4 tl,
  rest st = [d1; d2; 58%N; d3; d4] ++ tl ->
  forallb is_digit [d1; d2; d3; d4] = true ->
  rmatch (re_mmss_i C) st = [MState (pos st + 5) tl (caps st)].
Proof.
  intros C st d1 d2 d3 d4 tl Hr Hd. cbn [forallb] in Hd.
  repeat (apply andb_true_iff in Hd; let D := fresh "D" in destruct Hd as [D Hd]).
  unfold re_mmss_i, cls_d, chri. cbn [rseq rmatch]. rewrite Hr. cbn [app].
  rewrite D. cbn [flat_map rest pos caps app]. rewrite D0.
  cbn [flat_map rest pos caps app]. rewrite N.eqb_refl.
  cbn [flat_map rest pos caps app]. rewrite D1.
  cbn [flat_map rest pos caps app]. rewrite D2.
  replace (pos st + 5) with (S (S (S (S (S (pos st)))))) by lia. reflexivity.
Qed.

Lemma not_colon_class : forall (C : Canonicalizer) w,
  ~ In 58%N w -> forallb (fun x => negb (N.eqb (C x) (C 58%N))) w = true.
Proof.
  intros C w H. apply forallb_forall. intros x Hx. apply negb_true_iff.
  apply N.eqb_neq. intro E. apply chri_nonletter in E; try reflexivity.
  subst x. contradiction.
Qed.

(** X14.  A line as the annotator leaves it is shown with the name of the
    participant: for a trimmed line made of the timing in brackets, a
    name without a colon that does not start with a space or with the
    first letter of [Спикер], a colon and a text that does not start
    with a space, [formatTranscript] shows an utterance with the two
    times, the name followed by the colon, and the text. *)
Theorem annotated_line_shows_name :
  forall (C : Canonicalizer) line s e ws1 ws2 ws3 c name ws4 b body,
    trim line = [91%N] ++ s ++ ws1 ++ [45%N] ++ ws2 ++ e ++ [93%N] ++ ws3
                  ++ (c :: name) ++ [58%N] ++ ws4 ++ (b :: body) ->
    mmss_text s -> mmss_text e ->
    forallb is_space ws1 = true -> forallb is_space ws2 = true ->
    forallb is_space ws3 = true -> forallb is_space ws4 = true ->
    is_space c = false -> C c <> C 1057%N -> ~ In 58%N (c :: name) ->
    is_space b = false ->
    forallb (fun x => negb (is_line_terminator x)) (b :: body) = true ->
    transcript_line C line = TUtterance s e ((c :: name) ++ [58%N]) (b :: body).
Proof.
  intros C line s e ws1 ws2 ws3 c name ws4 b body Ht Hs He S1 S2 S3 S4 Hc Hc' Hn Hb Hbody.
  destruct Hs as (a1 & a2 & a3 & a4 & Ha & ->).
  destruct He as (e1 & e2 & e3 & e4 & Hee & ->).
  assert (He1 : is_space e1 = false).
  { apply digit_not_space. cbn [forallb] in Hee.
    apply andb_true_iff in Hee. apply Hee. }
  set (fin := MState
                (1 + 5 + List.length ws1 + 1 + List.length ws2 + 5 + 1
                 + List.length ws3 + List.length (c :: name) + 1
                 + List.length ws4 + List.length (b :: body))
                []
                [(5, b :: body); (4, c :: name);
                 (2, [e1; e2; 58%N; e3; e4]); (1, [a1; a2; 58%N; a3; a4])]).
  assert (F : first_match (transcriptLineRegex C) (MState 0 (trim line) []) = Some fin).
  { rewrite Ht. unfold transcriptLineRegex. cbn [rseq].
    apply first_seq_bol; [reflexivity|].
    eapply first_seq_char; [reflexivity | apply N.eqb_refl|]. cbn [pos caps].
    eapply first_seq_group_one.
    { eapply rmatch_mmss; [cbn [rest app]; reflexivity | exact Ha]. }
    { cbn [pos rest]. apply (capture_exact _ [a1; a2; 58%N; a3; a4]). }
    cbn [pos rest caps].
    eapply first_seq_star; [cbn [rest]; reflexivity | split; [exact S1 | reflexivity]|].
    cbn [pos caps].
    eapply first_seq_char; [reflexivity | apply N.eqb_refl|]. cbn [pos caps].
    eapply first_seq_star;
      [cbn [rest]; reflexivity | split; [exact S2 | exact He1]|].
    cbn [pos caps].
    eapply first_seq_group_one.
    { eapply rmatch_mmss; [cbn [rest app]; reflexivity | exact Hee]. }
    { cbn [pos rest]. apply (capture_exact _ [e1; e2; 58%N; e3; e4]). }
    cbn [pos rest caps].
    eapply first_seq_char; [reflexivity | apply N.eqb_refl|]. cbn [pos caps].
    eapply first_seq_star;
      [cbn [rest]; reflexivity | split; [exact S3 | exact Hc]|].
    cbn [pos caps].
    apply first_seq_alt_right.
    { change Spiker with [1057; 1087; 1080; 1082; 1077; 1088]%N.
      cbn [rseq liti chri rmatch rest app].
      destruct (N.eqb_spec (C c) (C 1057%N)) as [E|_]; [contradiction | reflexivity]. }
    unfold cls_not_colon_i.
    eapply first_seq_group_plus with (w := c :: name);
      [cbn [rest]; reflexivity | discriminate
       | split; [apply not_colon_class; exact Hn | cbn [app]]|].
    { rewrite N.eqb_refl. reflexivity. }
    cbn [pos caps].
    eapply first_seq_char; [reflexivity | apply N.eqb_refl|]. cbn [pos caps].
    eapply first_seq_star;
      [cbn [rest]; reflexivity | split; [exact S4 | exact Hb]|].
    cbn [pos caps].
    eapply first_seq_group_plus with (w := b :: body);
      [cbn [rest]; symmetry; apply app_nil_r | discriminate
       | split; [exact Hbody | exact I]|].
    cbn [pos caps]. rewrite first_eol by reflexivity.
    unfold fin. do 2 f_equal. cbn [List.length]. lia. }
  unfold transcript_line. rewrite (exec_first _ _ F). rewrite Ht. reflexivity.
Qed.

Definition annotated_ex : jsstring := js "[00:01 - 00:05] Иван: добрый день".

Lemma annotated_line_witness :
  transcript_line canon_basic annotated_ex
  = TUtterance (js "00:01") (js "00:05") (js "Иван:") (js "добрый день").
Proof.
  apply (@annotated_line_shows_name canon_basic annotated_ex
           (js "00:01") (js "00:05") [32%N] [32%N] [32%N]
           1048%N (js "ван") [32%N] 1076%N (js "обрый день")).
  - vm_compute. reflexivity.
  - do 4 eexists. split; [|vm_compute; reflexivity]. vm_compute. reflexivity.
  - do 4 eexists. split; [|vm_compute; reflexivity]. vm_compute. reflexivity.
  - reflexivity.
  - reflexivity.
  - reflexivity.
  - reflexivity.
  - reflexivity.
  - vm_compute. discriminate.
  - vm_compute. intuition discriminate.
  - reflexivity.
  - vm_compute. reflexivity.
Defined.

(* ================================================================= *)
(** ** The date the operator types *)

Import ViewerDocument.

Definition digit_chars : list N := [48; 49; 50; 51; 52; 53; 54; 55; 56; 57]%N.

Lemma is_digit_in : forall c, is_digit c = true -> In c digit_chars.
Proof.
  intros c H. unfold is_digit in H. apply andb_true_iff in H. destruct H as [H1 H2].
  apply N.leb_le in H1. apply N.leb_le in H2. unfold digit_chars. simpl. lia.
Qed.

Lemma digit_not_dot : forall c, is_digit c = true -> N.eqb c 46 = false.
Proof.
  intros c H. apply is_digit_in in H. simpl in H.
  repeat (destruct H as [<-|H]; [reflexivity|]). destruct H.
Qed.

Definition dmy (d1 d2 m1 m2 y1 y2 y3 y4 : N) : jsstring :=
  [d1; d2; 46; m1; m2; 46; y1; y2; y3; y4]%N.

Definition ymd (d1 d2 m1 m2 y1 y2 y3 y4 : N) : jsstring :=
  [y1; y2; y3; y4; 45; m1; m2; 45; d1; d2]%N.

Lemma matches_rseq_eol : forall rs st st',
  matches (rseq (rs ++ [REol])) st st' -> rest st' = [].
Proof.
  induction rs as [|a rs IH]; intros st st' H.
  - apply matches_eol in H. destruct H as [H ->]. exact H.
  - change (rseq ((a :: rs) ++ [REol]))
      with (match rs ++ [REol] with [] => a | _ => RSeq a (rseq (rs ++ [REol])) end) in H.
    destruct (rs ++ [REol]) as [|b l] eqn:E; [destruct rs; discriminate|].
    apply matches_seq in H. destruct H as [mid [_ H]].
    eapply IH. exact H.
Qed.

Lemma re_ddmmyyyy_sound : forall d,
  test re_ddmmyyyy d = true ->
  exists d1 d2 m1 m2 y1 y2 y3 y4,
    forallb is_digit [d1; d2; m1; m2; y1; y2; y3; y4] = true
    /\ d = dmy d1 d2 m1 m2 y1 y2 y3 y4.
Proof.
  intros d H. unfold test in H.
  destruct (exec re_ddmmyyyy d 0) as [m|] eqn:E; [|discriminate].
  apply exec_spec in E. destruct E as [_ [_ [E _]]].
  apply match_at_spec in E. destruct E as [Hi [st' [Hm _]]].
  assert (Hend : rest st' = []).
  { apply (@matches_rseq_eol
             [RBol; cls_d; cls_d; chr 46; cls_d; cls_d; chr 46;
              cls_d; cls_d; cls_d; cls_d] _ _ Hm). }
  unfold re_ddmmyyyy in Hm. cbn [rseq] in Hm.
  apply matches_seq in Hm. destruct Hm as [s0 [H0 Hm]].
  apply matches_bol in H0. destruct H0 as [H0 ->]. cbn [pos] in H0.
  rewrite H0 in Hm. cbn [skipn] in Hm.
  apply matches_lang in Hm. destruct Hm as [w [[Rw _] L]]. cbn [rest] in Rw.
  cbn [lang cls_d chr] in L.
  destruct L as (w1 & r1 & -> & (d1 & -> & D1) & L).
  destruct L as (w2 & r2 & -> & (d2 & -> & D2) & L).
  destruct L as (w3 & r3 & -> & (c3 & -> & D3) & L). apply N.eqb_eq in D3. subst c3.
  destruct L as (w4 & r4 & -> & (m1 & -> & M1) & L).
  destruct L as (w5 & r5 & -> & (m2 & -> & M2) & L).
  destruct L as (w6 & r6 & -> & (c6 & -> & D6) & L). apply N.eqb_eq in D6. subst c6.
  destruct L as (w7 & r7 & -> & (y1 & -> & Y1) & L).
  destruct L as (w8 & r8 & -> & (y2 & -> & Y2) & L).
  destruct L as (w9 & r9 & -> & (y3 & -> & Y3) & L).
  destruct L as (w10 & r10 & -> & (y4 & -> & Y4) & ->).
  exists d1, d2, m1, m2, y1, y2, y3, y4. split.
  - simpl. rewrite D1, D2, M1, M2, Y1, Y2, Y3, Y4. reflexivity.
  - rewrite Rw, Hend. reflexivity.
Qed.

Lemma re_ddmmyyyy_complete : forall d1 d2 m1 m2 y1 y2 y3 y4,
  forallb is_digit [d1; d2; m1; m2; y1; y2; y3; y4] = true ->
  test re_ddmmyyyy (dmy d1 d2 m1 m2 y1 y2 y3 y4) = true.
Proof.
  intros d1 d2 m1 m2 y1 y2 y3 y4 H. simpl in H.
  repeat (apply andb_true_iff in H; let D := fresh "D" in destruct H as [D H]).
  apply test_true. eexists. unfold re_ddmmyyyy, dmy. cbn [rseq].
  apply matches_seq. eexists. split; [apply matches_bol; split; reflexivity|].
  do 10 (apply matches_seq; eexists;
         split; [apply matches_char; do 2 eexists;
                 split; [reflexivity|]; split; [eassumption || reflexivity | reflexivity]|];
         cbn [pos rest caps]).
  apply matches_eol. split; reflexivity.
Qed.

Lemma edited_date_dmy : forall d1 d2 m1 m2 y1 y2 y3 y4,
  forallb is_digit [d1; d2; m1; m2; y1; y2; y3; y4] = true ->
  edited_date (dmy d1 d2 m1 m2 y1 y2 y3 y4) = ymd d1 d2 m1 m2 y1 y2 y3 y4.
Proof.
  intros d1 d2 m1 m2 y1 y2 y3 y4 H. unfold edited_date.
  rewrite re_ddmmyyyy_complete by exact H. simpl in H.
  repeat (apply andb_true_iff in H; let D := fresh "D" in destruct H as [D H]).
  unfold dmy. cbn [split_on].
  rewrite (digit_not_dot _ D), (digit_not_dot _ D0), (digit_not_dot _ D1),
          (digit_not_dot _ D2), (digit_not_dot _ D3), (digit_not_dot _ D4),
          (digit_not_dot _ D5), (digit_not_dot _ D6).
  reflexivity.
Qed.

(** A state of the editor in which only the date was edited. *)
Definition date_state (d : jsstring) : ViewerState :=
  {| editedSummary := VString []; editedDecisions := [];
     editedMeetingTitle := VString []; editedAttendees := [];
     editedAssignments := []; editedDate := VString d;
     editedCity := VString []; protocolNumber := js "4" |}.

(** The date of the edited protocol. *)
Lemma apply_edits_date : forall st parsed d result,
  editedDate st = VString d -> apply_edits st parsed = Some result ->
  date (metadata result)
  = if nonempty (trim d) then VString (edited_date d) else date (metadata parsed).
Proof.
  intros st parsed d result Hd H. unfold apply_edits, bind in H.
  destruct (nonblank (editedSummary st)); [|discriminate].
  destruct (nonblank (editedMeetingTitle st)); [|discriminate].
  rewrite Hd in H.
  assert (E : nonblank (VString d) = Some (nonempty (trim d))).
  { unfold nonblank. destruct d as [|c d]; reflexivity. }
  rewrite E in H.
  destruct (nonblank (editedCity st)); [|discriminate].
  injection H as <-. cbn [metadata date]. reflexivity.
Qed.

(** X15.  The date the operator typed and the date of the protocol the
    document is made from.  A text that is empty or blank leaves the
    date of the parsed protocol as it is.  A text of two digits, a dot,
    two digits, a dot and four digits, and no other, is put in with the
    three parts in the order year, month, day and dashes for the dots;
    every other text that is not blank is put in as it was typed. *)
Theorem edited_date_cases :
  forall (st : ViewerState) (parsed : ProtocolJson) (d : jsstring) (result : ProtocolJson),
    editedDate st = VString d ->
    apply_edits st parsed = Some result ->
    (trim d = [] -> date (metadata result) = date (metadata parsed))
    /\ (test re_ddmmyyyy d = true ->
          exists d1 d2 m1 m2 y1 y2 y3 y4,
            forallb is_digit [d1; d2; m1; m2; y1; y2; y3; y4] = true
            /\ d = dmy d1 d2 m1 m2 y1 y2 y3 y4
            /\ date (metadata result) = VString (ymd d1 d2 m1 m2 y1 y2 y3 y4))
    /\ (trim d <> [] -> test re_ddmmyyyy d = false ->
          date (metadata result) = VString d)
    /\ (forall d1 d2 m1 m2 y1 y2 y3 y4,
          d = dmy d1 d2 m1 m2 y1 y2 y3 y4 ->
          forallb is_digit [d1; d2; m1; m2; y1; y2; y3; y4] = true ->
          date (metadata result) = VString (ymd d1 d2 m1 m2 y1 y2 y3 y4)).
Proof.
  intros st parsed d result Hd H.
  pose proof (apply_edits_date _ _ Hd H) as E.
  assert (K : forall d1 d2 m1 m2 y1 y2 y3 y4,
            d = dmy d1 d2 m1 m2 y1 y2 y3 y4 ->
            forallb is_digit [d1; d2; m1; m2; y1; y2; y3; y4] = true ->
            date (metadata result) = VString (ymd d1 d2 m1 m2 y1 y2 y3 y4)).
  { intros d1 d2 m1 m2 y1 y2 y3 y4 -> Hdig. rewrite E.
    assert (T : trim (dmy d1 d2 m1 m2 y1 y2 y3 y4) = dmy d1 d2 m1 m2 y1 y2 y3 y4).
    { apply trim_id. unfold dmy. cbn [forallb] in *.
      repeat (apply andb_true_iff in Hdig;
              let D := fresh "D" in destruct Hdig as [D Hdig]).
      rewrite (digit_not_space _ D), (digit_not_space _ D0), (digit_not_space _ D1),
        (digit_not_space _ D2), (digit_not_space _ D3), (digit_not_space _ D4),
        (digit_not_space _ D5), (digit_not_space _ D6). reflexivity. }
    rewrite T. cbn [dmy nonempty]. fold (dmy d1 d2 m1 m2 y1 y2 y3 y4).
    rewrite edited_date_dmy by exact Hdig. reflexivity. }
  split; [|split; [|split]].
  - intros Hb. rewrite E, Hb. reflexivity.
  - intros Ht. destruct (re_ddmmyyyy_sound _ Ht)
      as (d1 & d2 & m1 & m2 & y1 & y2 & y3 & y4 & Hdig & Hdmy).
    exists d1, d2, m1, m2, y1, y2, y3, y4.
    split; [exact Hdig|]. split; [exact Hdmy|]. apply K; assumption.
  - intros Hb Ht. rewrite E. apply nonempty_true in Hb. rewrite Hb.
    unfold edited_date. rewrite Ht. reflexivity.
  - exact K.
Qed.

Lemma edited_date_witness :
  exists result,
    apply_edits (date_state (js "23.11.2025")) (fallback (protocol_ex None [])) = Some result
    /\ date (metadata result) = VString (js "2025-11-23").
Proof.
  destruct (apply_edits (date_state (js "23.11.2025")) (fallback (protocol_ex None [])))
    as [result|] eqn:E; [|vm_compute in E; discriminate].
  exists result. split; [reflexivity|].
  destruct (@edited_date_cases (date_state (js "23.11.2025"))
              (fallback (protocol_ex None [])) (js "23.11.2025") result eq_refl E)
    as [_ [_ [_ H]]].
  apply (H 50 51 49 49 50 48 50 53)%N; reflexivity.
Defined.

Lemma two_digit_print : forall a b,
  is_digit a = true -> is_digit b = true ->
  padStart2 (String_of_N (N.of_nat (10 * digit_val a + digit_val b))) = [a; b].
Proof.
  intros a b Ha Hb. apply is_digit_in in Ha. apply is_digit_in in Hb.
  assert (A : forallb (fun x => forallb (fun y =>
                str_eqb (padStart2 (String_of_N (N.of_nat (10 * digit_val x + digit_val y))))
                        [x; y]) digit_chars) digit_chars = true)
    by (vm_compute; reflexivity).
  rewrite forallb_forall in A. specialize (A a Ha).
  rewrite forallb_forall in A. specialize (A b Hb).
  apply str_eqb_eq. exact A.
Qed.

Lemma four_digit_print : forall a b c d,
  is_digit a = true -> is_digit b = true -> is_digit c = true -> is_digit d = true ->
  a <> 48%N ->
  String_of_Z (Z.of_nat (1000 * digit_val a + 100 * digit_val b
                         + 10 * digit_val c + digit_val d)) = [a; b; c; d].
Proof.
  intros a b c d Ha Hb Hc Hd Hne.
  apply is_digit_in in Ha. apply is_digit_in in Hb.
  apply is_digit_in in Hc. apply is_digit_in in Hd.
  assert (Ha' : In a (List.tl digit_chars)).
  { destruct Ha as [Ha|Ha]; [congruence | exact Ha]. }
  assert (A : forallb (fun x => forallb (fun y => forallb (fun z => forallb (fun u =>
                str_eqb (String_of_Z (Z.of_nat (1000 * digit_val x + 100 * digit_val y
                                                + 10 * digit_val z + digit_val u)))
                        [x; y; z; u])
                digit_chars) digit_chars) digit_chars) (List.tl digit_chars) = true)
    by (vm_compute; reflexivity).
  rewrite forallb_forall in A. specialize (A a Ha').
  rewrite forallb_forall in A. specialize (A b Hb).
  rewrite forallb_forall in A. specialize (A c Hc).
  rewrite forallb_forall in A. specialize (A d Hd).
  apply str_eqb_eq. exact A.
Qed.

(** X16.  A date typed as day, month and year with dots comes back as
    it was typed: where the runtime reads the stored form as that
    calendar date, the year having no leading zero, the renderer gives
    for the stored form the text the operator typed. *)
Theorem typed_date_round_trip :
  forall (fields : DateFields) d1 d2 m1 m2 y1 y2 y3 y4,
    forallb is_digit [d1; d2; m1; m2; y1; y2; y3; y4] = true ->
    y1 <> 48%N ->
    1 <= 10 * digit_val m1 + digit_val m2 ->
    fields (VString (ymd d1 d2 m1 m2 y1 y2 y3 y4))
    = Some (Z.of_nat (1000 * digit_val y1 + 100 * digit_val y2
                      + 10 * digit_val y3 + digit_val y4),
            10 * digit_val m1 + digit_val m2 - 1,
            10 * digit_val d1 + digit_val d2) ->
    formatDateForProtocol fields
      (VString (edited_date (dmy d1 d2 m1 m2 y1 y2 y3 y4)))
    = VString (dmy d1 d2 m1 m2 y1 y2 y3 y4).
Proof.
  intros fields d1 d2 m1 m2 y1 y2 y3 y4 Hd Hy Hm Hf.
  rewrite edited_date_dmy by exact Hd.
  simpl in Hd.
  repeat (apply andb_true_iff in Hd; let D := fresh "D" in destruct Hd as [D Hd]).
  unfold formatDateForProtocol.
  assert (E1 : truthy (VString (ymd d1 d2 m1 m2 y1 y2 y3 y4)) = true) by reflexivity.
  assert (E2 : is_ND (VString (ymd d1 d2 m1 m2 y1 y2 y3 y4)) = false).
  { unfold is_ND. apply str_eqb_neq. intro E. apply (f_equal (@List.length N)) in E.
    vm_compute in E. discriminate. }
  rewrite E1, E2, Hf. cbn [negb orb].
  replace (10 * digit_val m1 + digit_val m2 - 1 + 1)
    with (10 * digit_val m1 + digit_val m2) by lia.
  rewrite !two_digit_print by assumption.
  rewrite four_digit_print by assumption. reflexivity.
Qed.

Lemma typed_date_witness :
  formatDateForProtocol iso_date_fields (VString (edited_date (js "23.11.2025")))
  = VString (js "23.11.2025").
Proof.
  apply (@typed_date_round_trip iso_date_fields 50 51 49 49 50 48 50 53)%N.
  - reflexivity.
  - discriminate.
  - vm_compute. lia.
  - vm_compute. reflexivity.
Defined.

(* ================================================================= *)
(** ** The preview and the document *)

Import ViewerDocument.

Lemma trimStart_nil : forall s, trimStart s = [] <-> forallb is_space s = true.
Proof.
  induction s as [|c s IH]; simpl; [tauto|].
  destruct (is_space c); simpl; [exact IH|]. split; discriminate.
Qed.

Lemma trimStart_head : forall s c r, trimStart s = c :: r -> is_space c = false.
Proof.
  induction s as [|x s IH]; simpl; intros c r H; [discriminate|].
  destruct (is_space x) eqn:E; [eapply IH; exact H|]. injection H as <- _. exact E.
Qed.

Lemma trim_nil : forall s, trim s = [] <-> forallb is_space s = true.
Proof.
  intros s. unfold trim, trimEnd. split.
  - intros H. apply (f_equal (@rev N)) in H. rewrite rev_involutive in H. simpl in H.
    apply trimStart_nil in H.
    destruct (trimStart s) as [|c r] eqn:E; [apply trimStart_nil; exact E|].
    exfalso. apply trimStart_head in E.
    rewrite forallb_forall in H. specialize (H c).
    rewrite H in E; [discriminate|]. apply -> in_rev. left. reflexivity.
  - intros H. apply trimStart_nil in H. rewrite H. reflexivity.
Qed.

Lemma split_on_chars : forall sep s cur line,
  In line (split_on sep s cur) ->
  forall c, In c line -> In c s \/ In c cur.
Proof.
  intros sep s. induction s as [|x s IH]; intros cur line H c Hc; simpl in H.
  - destruct H as [<-|[]]. right. apply in_rev. exact Hc.
  - destruct (N.eqb x sep).
    + destruct H as [<-|H].
      * right. apply in_rev. exact Hc.
      * destruct (IH [] line H c Hc) as [Hin|[]]. left. right. exact Hin.
    + destruct (IH (x :: cur) line H c Hc) as [Hin|[<-|Hin]].
      * left. right. exact Hin.
      * left. left. reflexivity.
      * right. exact Hin.
Qed.

(** A text of spaces has only blank lines. *)
Lemma blank_text_lines : forall s,
  trim s = [] -> filter (fun d => nonempty (trim d)) (split_lines s) = [].
Proof.
  intros s H. apply trim_nil in H. rewrite forallb_forall in H.
  assert (A : forall line, In line (split_lines s) -> nonempty (trim line) = false).
  { intros line Hl.
    assert (E : trim line = []).
    { apply trim_nil. apply forallb_forall. intros c Hc.
      destruct (split_on_chars _ _ _ _ Hl c Hc) as [Hin|[]]. apply H. exact Hin. }
    rewrite E. reflexivity. }
  induction (split_lines s) as [|line lines IH]; [reflexivity|].
  simpl. rewrite (A line) by (left; reflexivity). apply IH.
  intros l Hl. apply A. right. exact Hl.
Qed.

Lemma buildProtocolJson_attendees : forall JSON_parse protocol,
  exists items,
    attendees_table (ViewerDocument.buildProtocolJson JSON_parse protocol) = VArray items.
Proof.
  intros JSON_parse protocol. unfold ViewerDocument.buildProtocolJson.
  assert (F : exists items,
             attendees_table (ViewerDocument.fallback protocol) = VArray items).
  { unfold ViewerDocument.fallback. simpl.
    destruct (pr_participantsData protocol); eexists; reflexivity. }
  destruct (json_source protocol) as [[|c s]|]; try exact F.
  destruct (from_json JSON_parse protocol (c :: s)) as [result|] eqn:E; [|exact F].
  unfold from_json, bind in E.
  destruct (JSON_parse (c :: s)) as [full|]; [|discriminate].
  destruct (get full "assignments_table"); [|discriminate].
  destruct (attendees_data protocol full) as [attendees|]; [|discriminate].
  injection E as <-. simpl.
  destruct attendees; [destruct (pr_participantsData protocol)|]; eexists; reflexivity.
Qed.

(** X17.  The preview shows what the document will hold: for every
    state of the editor in which a document is generated, the decisions,
    the attendees and the assignments of the generated protocol are the
    ones [getProtocolData] hands to the preview. *)
Theorem preview_shows_document :
  forall JSON_parse fields protocol st n parsed,
    apply_edits st
      (set_protocol_number (ViewerDocument.buildProtocolJson JSON_parse protocol) n)
    = Some parsed ->
    decisions parsed
    = ViewerPreview.d_decisions (ViewerPreview.getProtocolData JSON_parse fields protocol st)
    /\ attendees_table parsed
       = ViewerPreview.d_attendees (ViewerPreview.getProtocolData JSON_parse fields protocol st)
    /\ assignments_table parsed
       = ViewerPreview.d_assignments
           (ViewerPreview.getProtocolData JSON_parse fields protocol st).
Proof.
  intros JSON_parse fields protocol st n parsed H.
  unfold apply_edits, bind in H.
  destruct (nonblank (editedSummary st)); [|discriminate].
  destruct (nonblank (editedMeetingTitle st)); [|discriminate].
  destruct (nonblank (editedDate st)); [|discriminate].
  destruct (nonblank (editedCity st)); [|discriminate].
  injection H as <-. cbn [decisions attendees_table assignments_table
                            set_protocol_number ViewerPreview.getProtocolData
                            ViewerPreview.d_decisions ViewerPreview.d_attendees
                            ViewerPreview.d_assignments].
  split; [|split].
  - destruct (nonempty (editedDecisions st) && nonempty (trim (editedDecisions st))) eqn:E.
    + destruct (filter (fun d => nonempty (trim d)) (split_lines (editedDecisions st)));
        reflexivity.
    + assert (Hb : trim (editedDecisions st) = []).
      { destruct (editedDecisions st) as [|c s] eqn:Es; [reflexivity|].
        simpl in E. destruct (trim (c :: s)); [reflexivity | discriminate]. }
      rewrite (blank_text_lines _ Hb). reflexivity.
  - destruct (editedAttendees st); [|reflexivity].
    destruct (buildProtocolJson_attendees JSON_parse protocol) as [items E].
    rewrite E. reflexivity.
  - reflexivity.
Qed.

Definition edited_protocol : Protocol :=
  {| pr_type := js "standard-meeting"; pr_fileName := js "a.mp3";
     pr_duration := js "10 мин"; pr_participants := [js "Иван"];
     pr_date := js "2025-11-23"; pr_content := js "text";
     pr_summary := js "s"; pr_decisions := [js "x"]; pr_transcript := None;
     pr_protocolType := None; pr_contentJson := None;
     pr_participantsData := None |}.

Definition edited_state : ViewerState :=
  {| editedSummary := VString (js "s");
     editedDecisions := js "first
   
second";
     editedMeetingTitle := VString (js "t");
     editedAttendees := [];
     editedAssignments := [];
     editedDate := VString (js "23.11.2025");
     editedCity := VString (js "г. Москва");
     protocolNumber := js "4" |}.

Lemma preview_shows_witness :
  exists parsed,
    apply_edits edited_state
      (set_protocol_number
         (ViewerDocument.buildProtocolJson (fun _ => None) edited_protocol)
         (VString (js "4")))
    = Some parsed
    /\ decisions parsed = [VString (js "first"); VString (js "second")]
    /\ decisions parsed
       = ViewerPreview.d_decisions
           (ViewerPreview.getProtocolData (fun _ => None) iso_date_fields
              edited_protocol edited_state).
Proof.
  eexists. split; [vm_compute; reflexivity|]. split; [reflexivity|].
  apply (@preview_shows_document (fun _ => None) iso_date_fields edited_protocol
           edited_state (VString (js "4"))).
  vm_compute. reflexivity.
Defined.
